(** * pathfinder: all minimum-weight simple paths by branch-and-bound DFS

    A shallow embedding of [src/pathfinder.c].  The C objects reached through
    the pointers [path_info] and [all_paths] are threaded explicitly as a
    [state]; [int] values that take part in arithmetic are [Z] with the 32-bit
    two's complement wrap-around written out; array indices and vertex numbers
    are [nat]; arrays are lists read with [!!!] and written with [<[_:=_]>]
    (which leaves the list alone when the index is out of range; the code
    never writes out of range when its vertices are below [size]).

    What the file takes from elsewhere is a parameter: the constant [INIT] of
    [pathfinder.h], and [mx_realloc] of libmx, taken with the contract of
    [realloc] (the old cells are kept when the request is served, the old
    block is untouched when it is refused) and an oracle that tells which
    requests are served.  The results of [malloc] and [calloc] are never
    tested by the code; they are taken to succeed.  [free] has no effect on
    what is modelled, so [free_path_info] and [free_paths] do not appear. *)

From Stdlib Require Import ZArith Lia.
From stdpp Require Import base numbers option list strings sorting.

Set Default Proof Using "Type".

Local Open Scope Z_scope.

(** ** Machine integers *)

Definition INT_MAX : Z := 2147483647.
Definition INT_MIN : Z := -2147483648.

(** Reduction of a mathematical integer to the value an [int] holds. *)
Definition int_wrap (z : Z) : Z := (z - INT_MIN) `mod` 4294967296 + INT_MIN.

Definition int_add (a b : Z) : Z := int_wrap (a + b).
Definition int_sub (a b : Z) : Z := int_wrap (a - b).

Definition in_int (z : Z) : Prop := INT_MIN ≤ z ≤ INT_MAX.

Local Close Scope Z_scope.

(** ** Data, as declared in [pathfinder.h] and used by [pathfinder.c] *)

(** [graph->size] and [graph->matrix]. *)
Record t_graph := { size : nat; matrix : list (list Z) }.

(** A list cell's payload; only [id] is read here. *)
Record t_node := { id : nat }.

(** [data->graph] and [data->nodes] (the linked [t_list] is a list). *)
Record t_data := { graph : t_graph; nodes : list t_node }.

Record t_coords := { from : nat; to : nat }.

Record t_path_info := {
  visited : list Z;
  path : list nat;
  path_index : nat;
  weight : Z
}.

(** A stored path: [vertices] and its [length] (named [p_length] here, since
    [length] is the list function). *)
Record t_path := { vertices : list nat; p_length : nat }.

Record t_path_list := { paths : list t_path; count : nat; min_len : Z }.

(** What the code touches outside its two objects: the number of [mx_realloc]
    requests made so far, the lines written to [stderr], and the result lists
    handed to [display_paths]. *)
Record t_world := {
  realloc_calls : nat;
  stderr : list string;
  displayed : list t_path_list
}.

Record state := {
  path_info : t_path_info;
  all_paths : t_path_list;
  world : t_world
}.

#[global] Instance t_path_inhabited : Inhabited t_path :=
  populate {| vertices := []; p_length := 0 |}.

#[global] Instance t_node_inhabited : Inhabited t_node := populate {| id := 0 |}.

#[global] Instance t_path_eq_dec : EqDecision t_path.
Proof. solve_decision. Defined.

(** [graph->matrix[u][v]] *)
Definition matrix_at (g : t_graph) (u v : nat) : Z := (matrix g !!! u) !!! v.

(** ** The program *)

Section Pathfinder.

(** [INIT], the no-edge marker of [pathfinder.h]. *)
Variable INIT : Z.

(** Whether the n-th [mx_realloc] request (counted from 0) is served. *)
Variable mx_realloc_ok : nat → bool.

(** [create_path_info]: [visited] comes from [calloc], [path] from [malloc],
    whose contents are whatever [junk] the allocator left there. *)
Definition create_path_info (junk : nat → nat) (num_vertices : nat) : t_path_info :=
  {| visited := replicate num_vertices 0%Z;
     path := junk <$> seq 0 num_vertices;
     path_index := 0;
     weight := 0 |}.

Definition create_paths : t_path_list :=
  {| paths := []; count := 0; min_len := INT_MAX |}.

(** [add_path].  A served request yields [count + 1] cells that keep the old
    ones; cell [count] then receives a fresh array filled by the copy loop.
    A refused request writes the diagnostic and returns. *)
Definition add_path (all_paths : t_path_list) (current_path : list nat)
    (length : nat) (w : t_world) : t_path_list * t_world :=
  if mx_realloc_ok (realloc_calls w) then
    let new_paths := resize (S (count all_paths)) inhabitant (paths all_paths) in
    let p := {| vertices := (λ i, current_path !!! i) <$> seq 0 length;
                p_length := length |} in
    ({| paths := <[count all_paths := p]> new_paths;
        count := S (count all_paths);
        min_len := min_len all_paths |},
     {| realloc_calls := S (realloc_calls w);
        stderr := stderr w;
        displayed := displayed w |})
  else
    (all_paths,
     {| realloc_calls := S (realloc_calls w);
        stderr := stderr w ++ ["error: memory allocation failed in add_path"%string];
        displayed := displayed w |}).

(** [reached_destination] *)
Definition reached_destination (st : state) : state :=
  let pi := path_info st in
  let ap := all_paths st in
  let ap1 :=
    if (weight pi <? min_len ap)%Z
    then {| paths := []; count := 0; min_len := weight pi |}
    else ap in
  if (weight pi =? min_len ap1)%Z then
    let '(ap2, w) := add_path ap1 (path pi) (path_index pi) (world st) in
    {| path_info := pi; all_paths := ap2; world := w |}
  else
    {| path_info := pi; all_paths := ap1; world := world st |}.

Definition set_weight (w : Z) (st : state) : state :=
  {| path_info :=
       {| visited := visited (path_info st);
          path := path (path_info st);
          path_index := path_index (path_info st);
          weight := w |};
     all_paths := all_paths st;
     world := world st |}.

(** The test of the [if] inside the loop of [explore_neighbors]. *)
Definition may_descend (data : t_data) (from i : nat) (st : state) : bool :=
  let weight' := matrix_at (graph data) from i in
  bool_decide (weight' ≠ INIT)
  && bool_decide (visited (path_info st) !!! i = 0%Z)
  && (int_add (weight (path_info st)) weight' <=? min_len (all_paths st))%Z.

(** One iteration of the loop of [explore_neighbors]; [call] is the
    recursive [find_all_from_to]. *)
Definition explore_step (call : t_coords → state → option state)
    (cords : t_coords) (data : t_data) (i : nat) (st : state) : option state :=
  let weight' := matrix_at (graph data) (from cords) i in
  if may_descend data (from cords) i st then
    st1 ← call {| from := i; to := to cords |}
             (set_weight (int_add (weight (path_info st)) weight') st);
    Some (set_weight (int_sub (weight (path_info st1)) weight') st1)
  else Some st.

(** [for (int i = 0; i < n; i++) body], for the indices still to come. *)
Fixpoint for_each (body : nat → state → option state) (idx : list nat)
    (st : state) : option state :=
  match idx with
  | [] => Some st
  | i :: idx' => st' ← body i st; for_each body idx' st'
  end.

Definition explore_neighbors (call : t_coords → state → option state)
    (cords : t_coords) (data : t_data) (st : state) : option state :=
  for_each (explore_step call cords data) (seq 0 (size (graph data))) st.

(** Lines 143-144: mark [from] and push it. *)
Definition enter (from : nat) (st : state) : state :=
  let pi := path_info st in
  {| path_info :=
       {| visited := <[from := 1%Z]> (visited pi);
          path := <[path_index pi := from]> (path pi);
          path_index := S (path_index pi);
          weight := weight pi |};
     all_paths := all_paths st;
     world := world st |}.

(** Lines 152-153: pop and unmark [from]. *)
Definition leave (from : nat) (st : state) : state :=
  let pi := path_info st in
  {| path_info :=
       {| visited := <[from := 0%Z]> (visited pi);
          path := path pi;
          path_index := pred (path_index pi);
          weight := weight pi |};
     all_paths := all_paths st;
     world := world st |}.

(** The two macros of the file, which it defines and uses nowhere. *)
Definition RESET_PATH_INFO (info : t_path_info) : t_path_info :=
  let index := pred (path_index info) in
  {| visited := <[path info !!! index := 0%Z]> (visited info);
     path := path info;
     path_index := index;
     weight := weight info |}.

Definition CHECK_WEIGHT_CONDITION (info : t_path_info) (paths : t_path_list) : bool :=
  bool_decide (min_len paths ≠ INT_MAX) && (min_len paths <=? weight info)%Z.

(** [find_all_from_to].  [fuel] bounds the nesting of calls: every call
    spends one unit, the loop spends none. *)
Fixpoint find_all_from_to (fuel : nat) (data : t_data) (cords : t_coords)
    (st : state) : option state :=
  match fuel with
  | 0 => None
  | S fuel' =>
      let st1 := enter (from cords) st in
      st2 ← (if decide (from cords = to cords)
             then Some (reached_destination st1)
             else explore_neighbors (λ c, find_all_from_to fuel' data c) cords data st1);
      Some (leave (from cords) st2)
  end.

(** Modelled from the spec: [display_paths] is in another file of the
    repository.  The spec has a presentation collaborator that receives each
    result set, the core producing no text itself; so here the call only
    keeps the list it is handed, in the order of the calls. *)
Definition display_paths (all_paths : t_path_list) (w : t_world) : t_world :=
  {| realloc_calls := realloc_calls w;
     stderr := stderr w;
     displayed := displayed w ++ [all_paths] |}.

(** The body of the loop of [find_all_from] for one [copy]. *)
Definition find_all_from_body (junk : nat → nat) (fuel : nat) (data : t_data)
    (start copy : t_node) (w : t_world) : option t_world :=
  let cords := {| from := id start; to := id copy |} in
  st ← find_all_from_to fuel data cords
         {| path_info := create_path_info junk (size (graph data));
            all_paths := create_paths;
            world := w |};
  Some (display_paths (all_paths st) (world st)).

(** [for (copy = start->next; copy; copy = copy->next)] *)
Fixpoint find_all_from_loop (junk : nat → nat) (fuel : nat) (data : t_data)
    (start : t_node) (copy : list t_node) (w : t_world) : option t_world :=
  match copy with
  | [] => Some w
  | c :: next =>
      w' ← find_all_from_body junk fuel data start c w;
      find_all_from_loop junk fuel data start next w'
  end.

(** [find_all_from]; its argument is a list cell, so the list is not empty. *)
Definition find_all_from (junk : nat → nat) (fuel : nat) (data : t_data)
    (start : list t_node) (w : t_world) : option t_world :=
  match start with
  | [] => None
  | s :: next => find_all_from_loop junk fuel data s next w
  end.

(** [for (current = data->nodes; current; current = current->next)] *)
Fixpoint execute_pathfinding_loop (junk : nat → nat) (fuel : nat) (data : t_data)
    (current : list t_node) (w : t_world) : option t_world :=
  match current with
  | [] => Some w
  | _ :: next =>
      w' ← find_all_from junk fuel data current w;
      execute_pathfinding_loop junk fuel data next w'
  end.

Definition execute_pathfinding (junk : nat → nat) (fuel : nat) (data : t_data)
    (w : t_world) : option t_world :=
  execute_pathfinding_loop junk fuel data (nodes data) w.

End Pathfinder.

(** ** The program, observed

    The same code with the state noted at each program point it passes.
    Nothing here changes what is computed: the state part of the result is
    that of the functions above (lemma [find_all_from_to_observed_state]). *)

Inductive point :=
  | Entered (u : nat)
      (** in the call on [u], after lines 143-144 *)
  | Recorded (u : nat)
      (** after line 147 *)
  | Skipped (u i : nat)
      (** in the loop of the call on [u], the test of line 124 failed for [i] *)
  | Descending (u i : nat)
      (** after line 125, before the call on [i] *)
  | Resumed (u i : nat)
      (** after line 128 *)
  | Left (u : nat) (before : t_path_info)
      (** after lines 152-153; [before] is [*path_info] as the call found it *).

Section Observed.

Variable INIT : Z.
Variable mx_realloc_ok : nat → bool.

Definition explore_step_observed
    (call : t_coords → state → option (list (point * state) * state))
    (cords : t_coords) (data : t_data) (i : nat) (st : state)
    : option (list (point * state) * state) :=
  let weight' := matrix_at (graph data) (from cords) i in
  if may_descend INIT data (from cords) i st then
    let st0 := set_weight (int_add (weight (path_info st)) weight') st in
    r ← call {| from := i; to := to cords |} st0;
    let st2 := set_weight (int_sub (weight (path_info r.2)) weight') r.2 in
    Some ((Descending (from cords) i, st0) :: r.1 ++ [(Resumed (from cords) i, st2)], st2)
  else Some ([(Skipped (from cords) i, st)], st).

Fixpoint for_each_observed
    (body : nat → state → option (list (point * state) * state))
    (idx : list nat) (st : state) : option (list (point * state) * state) :=
  match idx with
  | [] => Some ([], st)
  | i :: idx' =>
      r ← body i st;
      r' ← for_each_observed body idx' r.2;
      Some (r.1 ++ r'.1, r'.2)
  end.

Fixpoint find_all_from_to_observed (fuel : nat) (data : t_data) (cords : t_coords)
    (st : state) : option (list (point * state) * state) :=
  match fuel with
  | 0 => None
  | S fuel' =>
      let st1 := enter (from cords) st in
      r ← (if decide (from cords = to cords)
           then let s := reached_destination mx_realloc_ok st1 in
                Some ([(Recorded (from cords), s)], s)
           else for_each_observed
                  (explore_step_observed (λ c, find_all_from_to_observed fuel' data c)
                     cords data)
                  (seq 0 (size (graph data))) st1);
      let st3 := leave (from cords) r.2 in
      Some ((Entered (from cords), st1) :: r.1
              ++ [(Left (from cords) (path_info st), st3)], st3)
  end.

End Observed.

(** ** Paths of the graph and their weights *)

Section Paths.

Variable INIT : Z.
Variable g : t_graph.

(** Consecutive vertices are joined by an entry other than [INIT]. *)
Fixpoint is_walk (p : list nat) : Prop :=
  match p with
  | u :: (v :: _) as rest => matrix_at g u v ≠ INIT ∧ is_walk rest
  | _ => True
  end.

(** The total weight of a path, as a mathematical integer. *)
Fixpoint path_cost (p : list nat) : Z :=
  match p with
  | u :: (v :: _) as rest => (matrix_at g u v + path_cost rest)%Z
  | _ => 0%Z
  end.

(** The total weight of a path as the program sums it: in [int], edge by
    edge from the start. *)
Fixpoint weight_along (acc : Z) (p : list nat) : Z :=
  match p with
  | u :: (v :: _) as rest => weight_along (int_add acc (matrix_at g u v)) rest
  | _ => acc
  end.

Definition path_weight (p : list nat) : Z := weight_along 0 p.

(** A simple path: distinct vertices of the graph joined by edges. *)
Definition simple (p : list nat) : Prop :=
  NoDup p ∧ Forall (λ v, v < size g) p ∧ is_walk p.

Definition simple_path (s t : nat) (p : list nat) : Prop :=
  head p = Some s ∧ last p = Some t ∧ simple p.

End Paths.

(** ** Notions used to state the properties *)

(** What a call must give back to its caller: the marks, the index, the
    running weight, and the part of the buffer below the index. *)
Definition same_frame (st st' : state) : Prop :=
  visited (path_info st') = visited (path_info st)
  ∧ path_index (path_info st') = path_index (path_info st)
  ∧ weight (path_info st') = weight (path_info st)
  ∧ length (path (path_info st')) = length (path (path_info st))
  ∧ take (path_index (path_info st)) (path (path_info st'))
    = take (path_index (path_info st)) (path (path_info st)).

(** The state in which the code calls [find_all_from_to] on vertex [i]:
    [visited] covers the graph, [i] is not marked, [weight] is an [int]. *)
Definition ready (data : t_data) (i : nat) (st : state) : Prop :=
  size (graph data) ≤ length (visited (path_info st))
  ∧ visited (path_info st) !! i = Some 0%Z
  ∧ in_int (weight (path_info st)).

(** Number of unmarked cells of [visited]. *)
Fixpoint unmarked (vis : list Z) : nat :=
  match vis with
  | [] => 0
  | x :: vis' => (if decide (x = 0%Z) then 1 else 0) + unmarked vis'
  end.

(** [pre] is the path being built: it is what the buffer holds below the
    index, and exactly its vertices are marked. *)
Definition tracks (g : t_graph) (pre : list nat) (pi : t_path_info) : Prop :=
  length (visited pi) = size g
  ∧ (∀ v, v < size g →
       visited pi !! v = Some (if decide (v ∈ pre) then 1%Z else 0%Z))
  ∧ path_index pi = length pre
  ∧ take (length pre) (path pi) = pre
  ∧ size g ≤ length (path pi).

(** The list's own bookkeeping: [count] cells are in use. *)
Definition well_counted (ap : t_path_list) : Prop :=
  count ap = length (paths ap).

(** A path as [add_path] stores it. *)
Definition stored (p : list nat) : t_path :=
  {| vertices := p; p_length := length p |}.

(** The specification's [record]: a strictly lighter candidate replaces the
    collection, an equally light one joins it, a heavier one changes
    nothing. *)
Definition record (g : t_graph) (ap : t_path_list) (p : list nat) : t_path_list :=
  let w := path_cost g p in
  if (w <? min_len ap)%Z then
    {| paths := [stored p]; count := 1; min_len := w |}
  else if (w =? min_len ap)%Z then
    {| paths := paths ap ++ [stored p]; count := S (count ap); min_len := min_len ap |}
  else ap.

(** All simple paths that extend [cur ++ [from]] up to [to], in the order
    in which an unpruned depth-first search meets them. *)
Fixpoint all_simple_paths (INIT : Z) (g : t_graph) (to : nat) (fuel : nat)
    (cur : list nat) (from : nat) : list (list nat) :=
  match fuel with
  | 0 => []
  | S fuel' =>
      if decide (from = to) then [cur ++ [from]]
      else
        i ← seq 0 (size g);
        if decide (matrix_at g from i ≠ INIT ∧ i ∉ cur ++ [from])
        then all_simple_paths INIT g to fuel' (cur ++ [from]) i
        else []
  end.

(** The least of [m] and the weights of the paths of [l]. *)
Definition least_cost (g : t_graph) (m : Z) (l : list (list nat)) : Z :=
  foldl Z.min m (path_cost g <$> l).

(** What a call of [find_all_from_to] on [u] does to the list when it is made
    with [cur] as the path being built: it records, one after the other, the
    simple paths from [start] that go through [cur ++ [u]] to [target]. *)
Definition records_extensions (INIT : Z) (mx_realloc_ok : nat → bool)
    (data : t_data) (start target fuel : nat) : Prop :=
  ∀ cur u st st',
    tracks (graph data) cur (path_info st) →
    weight (path_info st) = path_cost (graph data) (cur ++ [u]) →
    simple INIT (graph data) (cur ++ [u]) →
    head (cur ++ [u]) = Some start →
    well_counted (all_paths st) →
    find_all_from_to INIT mx_realloc_ok fuel data {| from := u; to := target |} st = Some st' →
    all_paths st'
    = foldl (record (graph data)) (all_paths st)
        (all_simple_paths INIT (graph data) target fuel cur u)
    ∧ well_counted (all_paths st').

(** The vertex whose edge is already counted in [weight] though it is not,
    or no longer, in the buffer. *)
Definition pending (pt : point) : list nat :=
  match pt with
  | Descending _ i => [i]
  | Left u _ => [u]
  | _ => []
  end.

(** [visited[v]] is 1 exactly when [v] is among [path[0..path_index)], and 0
    otherwise. *)
Definition marks_agree (g : t_graph) (pi : t_path_info) : Prop :=
  ∀ v, v < size g →
    visited pi !! v
    = Some (if decide (v ∈ take (path_index pi) (path pi)) then 1%Z else 0%Z).

(** What holds of [*path_info] at a program point. *)
Definition agrees_at (g : t_graph) (pt : point) (s : state) : Prop :=
  marks_agree g (path_info s)
  ∧ weight (path_info s)
    = path_weight g (take (path_index (path_info s)) (path (path_info s)) ++ pending pt)
  ∧ match pt with
    | Left _ before =>
        visited (path_info s) = visited before
        ∧ path_index (path_info s) = path_index before
        ∧ weight (path_info s) = weight before
    | _ => True
    end.

(** Every stored path is a simple path of the graph and weighs [min_len]. *)
Definition uniform (INIT : Z) (g : t_graph) (ap : t_path_list) : Prop :=
  Forall (λ sp, simple INIT g (vertices sp)
                ∧ path_weight g (vertices sp) = min_len ap) (paths ap).

(** [weight] is the sum as a mathematical integer. *)
Definition exact_at (g : t_graph) (pt : point) (s : state) : Prop :=
  weight (path_info s)
  = path_cost g (take (path_index (path_info s)) (path (path_info s)) ++ pending pt).

(** The stored paths weigh [min_len] as mathematical integers. *)
Definition exactly_uniform (g : t_graph) (ap : t_path_list) : Prop :=
  Forall (λ sp, path_cost g (vertices sp) = min_len ap) (paths ap).

(** The path in the buffer, with the pending vertex if there is one, is a
    simple path of the graph. *)
Definition simple_at (INIT : Z) (g : t_graph) (pt : point) (s : state) : Prop :=
  simple INIT g
    (take (path_index (path_info s)) (path (path_info s)) ++ pending pt).

(** All that is shown to hold at a program point: marks and weight agree with
    the buffer, the buffer holds a simple path, the stored paths weigh
    [min_len], and no more calls are in progress ([path_index] counts them)
    than the graph has vertices. *)
Definition sound_at (INIT : Z) (g : t_graph) (ps : point * state) : Prop :=
  agrees_at g ps.1 ps.2
  ∧ simple_at INIT g ps.1 ps.2
  ∧ uniform INIT g (all_paths ps.2)
  ∧ path_index (path_info ps.2) ≤ size g.

(** What the observed run of a call on [u] shows when it is made with [cur]
    as the path being built and [weight] already counting the edge to [u]. *)
Definition observed_well (INIT : Z) (mx_realloc_ok : nat → bool) (data : t_data)
    (fuel : nat) : Prop :=
  ∀ cur u target st tr st',
    tracks (graph data) cur (path_info st) →
    simple INIT (graph data) (cur ++ [u]) →
    weight (path_info st) = path_weight (graph data) (cur ++ [u]) →
    uniform INIT (graph data) (all_paths st) →
    well_counted (all_paths st) →
    find_all_from_to_observed INIT mx_realloc_ok fuel data {| from := u; to := target |} st
    = Some (tr, st') →
    Forall (sound_at INIT (graph data)) tr
    ∧ uniform INIT (graph data) (all_paths st')
    ∧ well_counted (all_paths st')
    ∧ same_frame st st'.

(** The state [find_all_from] builds before each search. *)
Definition fresh_state (junk : nat → nat) (data : t_data) (w : t_world) : state :=
  {| path_info := create_path_info junk (size (graph data));
     all_paths := create_paths;
     world := w |}.

(** [p] is a simple path from [s] to [t] and none is lighter. *)
Definition lightest_path (INIT : Z) (g : t_graph) (s t : nat) (p : list nat) : Prop :=
  simple_path INIT g s t p
  ∧ ∀ q, simple_path INIT g s t q → (path_cost g p ≤ path_cost g q)%Z.

(** What a finished search must have left in the list [ap]. *)
Definition holds_lightest_paths (INIT : Z) (g : t_graph) (start target : nat)
    (ap : t_path_list) : Prop :=
  (∀ p, p ∈ vertices <$> paths ap ↔ lightest_path INIT g start target p)
  ∧ (∀ p, lightest_path INIT g start target p → min_len ap = path_cost g p)
  ∧ (∀ q, simple_path INIT g start target q → paths ap ≠ [])
  ∧ ((∀ q, ¬ simple_path INIT g start target q) → paths ap = [] ∧ min_len ap = INT_MAX)
  ∧ NoDup (paths ap)
  ∧ Forall (λ sp, p_length sp = length (vertices sp)) (paths ap)
  ∧ count ap = length (paths ap).

(** The pairs for which [execute_pathfinding] searches: each node with the
    nodes listed after it. *)
Fixpoint later_pairs (l : list t_node) : list (t_node * t_node) :=
  match l with
  | [] => []
  | s :: next => ((λ c, (s, c)) <$> next) ++ later_pairs next
  end.

(** The pairs the specification names: each node with every other listed
    node, in list order. *)
Definition ordered_pairs (l : list t_node) : list (t_node * t_node) :=
  i ← seq 0 (length l);
  j ← seq 0 (length l);
  if decide (i = j) then [] else [(l !!! i, l !!! j)].

(** One search and display per pair, in order. *)
Fixpoint search_each (INIT : Z) (mx_realloc_ok : nat → bool) (junk : nat → nat)
    (fuel : nat) (data : t_data) (pairs : list (t_node * t_node))
    (w : t_world) : option t_world :=
  match pairs with
  | [] => Some w
  | (s, c) :: rest =>
      w' ← find_all_from_body INIT mx_realloc_ok junk fuel data s c w;
      search_each INIT mx_realloc_ok junk fuel data rest w'
  end.

(** ** Notions used to state the further properties *)

(** The line [add_path] writes when its request is refused. *)
Definition refusal_line : string := "error: memory allocation failed in add_path".

(** How many of the requests numbered from [a] up to, not including, [b] are
    refused. *)
Definition refused_between (mx_realloc_ok : nat → bool) (a b : nat) : nat :=
  length (filter (λ n, mx_realloc_ok n = false) (seq a (b - a))).

(** What running part of a search may do to the list and to the world:
    [min_len] does not rise, nothing is displayed, requests are only added,
    and [stderr] grows by one line for each refused request. *)
Definition only_progress (mx_realloc_ok : nat → bool) (st st' : state) : Prop :=
  (min_len (all_paths st') ≤ min_len (all_paths st))%Z
  ∧ displayed (world st') = displayed (world st)
  ∧ realloc_calls (world st) ≤ realloc_calls (world st')
  ∧ stderr (world st')
    = stderr (world st)
      ++ replicate (refused_between mx_realloc_ok (realloc_calls (world st))
                      (realloc_calls (world st'))) refusal_line.

(** Two states that differ at most in the cells of the path buffer at and
    above the index. *)
Definition same_but_junk (st1 st2 : state) : Prop :=
  visited (path_info st1) = visited (path_info st2)
  ∧ path_index (path_info st1) = path_index (path_info st2)
  ∧ weight (path_info st1) = weight (path_info st2)
  ∧ length (path (path_info st1)) = length (path (path_info st2))
  ∧ take (path_index (path_info st1)) (path (path_info st1))
    = take (path_index (path_info st1)) (path (path_info st2))
  ∧ all_paths st1 = all_paths st2
  ∧ world st1 = world st2.

(** Lexicographic order on vertex sequences, a proper prefix coming first. *)
Fixpoint lex_lt (p q : list nat) : Prop :=
  match p, q with
  | _, [] => False
  | [], _ :: _ => True
  | x :: p', y :: q' => x < y ∨ (x = y ∧ lex_lt p' q')
  end.

(** Every stored path has the shape [add_path] gives it. *)
Definition well_stored (ap : t_path_list) : Prop :=
  Forall (λ sp, p_length sp = length (vertices sp)) (paths ap).

(** What a call leaves in the list when [l] is what it stored: the former
    paths are kept exactly when [min_len] ends as it was, and [l] follows. *)
Definition appended (st st' : state) (l : list (list nat)) : Prop :=
  (min_len (all_paths st') ≤ min_len (all_paths st))%Z
  ∧ paths (all_paths st')
    = (if decide (min_len (all_paths st') = min_len (all_paths st))
       then paths (all_paths st) else [])
      ++ (stored <$> l).

(** Neither the list nor the world has changed. *)
Definition untouched (st st' : state) : Prop :=
  all_paths st' = all_paths st ∧ world st' = world st.

(** What a call of [find_all_from_to] on [u] stores, whatever the weights and
    the allocator: some of the simple paths through [cur ++ [u]] to [target],
    in the order of the enumeration; nothing at all when there is none. *)
Definition searches_within (INIT : Z) (mx_realloc_ok : nat → bool)
    (data : t_data) (target fuel : nat) : Prop :=
  ∀ cur u st st',
    tracks (graph data) cur (path_info st) →
    simple INIT (graph data) (cur ++ [u]) →
    in_int (weight (path_info st)) →
    well_counted (all_paths st) →
    find_all_from_to INIT mx_realloc_ok fuel data {| from := u; to := target |} st = Some st' →
    ∃ l,
      l `sublist_of` all_simple_paths INIT (graph data) target fuel cur u
      ∧ appended st st' l
      ∧ well_counted (all_paths st')
      ∧ (all_simple_paths INIT (graph data) target fuel cur u = [] → untouched st st').

(** What holds of the list after a search from [start] to [target],
    whatever the weights and the allocator. *)
Definition sound_result (INIT : Z) (g : t_graph) (start target : nat)
    (ap : t_path_list) : Prop :=
  Forall (λ p, simple_path INIT g start target p ∧ path_weight g p = min_len ap)
    (vertices <$> paths ap)
  ∧ NoDup (vertices <$> paths ap)
  ∧ StronglySorted lex_lt (vertices <$> paths ap)
  ∧ well_stored ap
  ∧ well_counted ap.

(** What a run may do to the requests and to [stderr]. *)
Definition world_progress (mx_realloc_ok : nat → bool) (w w' : t_world) : Prop :=
  realloc_calls w ≤ realloc_calls w'
  ∧ stderr w'
    = stderr w ++ replicate (refused_between mx_realloc_ok (realloc_calls w)
                               (realloc_calls w')) refusal_line.

(** A call made with [weight] not below [min_len] leaves [min_len] alone. *)
Definition keeps_min_len (INIT : Z) (mx_realloc_ok : nat → bool)
    (data : t_data) (start target fuel : nat) : Prop :=
  ∀ cur u st st',
    tracks (graph data) cur (path_info st) →
    weight (path_info st) = path_cost (graph data) (cur ++ [u]) →
    simple INIT (graph data) (cur ++ [u]) →
    head (cur ++ [u]) = Some start →
    (min_len (all_paths st) ≤ weight (path_info st))%Z →
    find_all_from_to INIT mx_realloc_ok fuel data {| from := u; to := target |} st = Some st' →
    min_len (all_paths st') = min_len (all_paths st).

(** The accesses made on the way to a program point were within the arrays:
    on entry the two writes of lines 143-144 landed ([visited[u]] holds 1 and
    the cell below the index holds [u]); the copy loop of [add_path] read
    below the length of the buffer; the test of line 124 read [visited]
    within its length; on exit the write of line 153 landed and the index was
    lowered from above zero (the cell at the index still holds [u]). *)
Definition in_range_at (pt : point) (s : state) : Prop :=
  let pi := path_info s in
  match pt with
  | Entered u =>
      visited pi !! u = Some 1%Z
      ∧ 0 < path_index pi
      ∧ path pi !! pred (path_index pi) = Some u
  | Recorded _ => path_index pi ≤ length (path pi)
  | Skipped _ i | Descending _ i | Resumed _ i => i < length (visited pi)
  | Left u _ =>
      visited pi !! u = Some 0%Z
      ∧ path pi !! path_index pi = Some u
  end.

(** What the observed run of a call shows of its accesses. *)
Definition observed_in_range (INIT : Z) (mx_realloc_ok : nat → bool) (data : t_data)
    (fuel : nat) : Prop :=
  ∀ cur u target st tr st',
    tracks (graph data) cur (path_info st) →
    simple INIT (graph data) (cur ++ [u]) →
    in_int (weight (path_info st)) →
    find_all_from_to_observed INIT mx_realloc_ok fuel data {| from := u; to := target |} st
    = Some (tr, st') →
    Forall (λ ps, in_range_at ps.1 ps.2) tr.

(** ** Inputs used in the examples below *)

Definition world0 : t_world :=
  {| realloc_calls := 0; stderr := []; displayed := [] |}.

Definition no_junk : nat → nat := λ _, 0.

Definition always_served : nat → bool := λ _, true.

(** Only the first request is refused. *)
Definition first_refused : nat → bool := λ n, negb (n =? 0).

(** Two paths of weight 2 from 0 to 3 and a direct edge of weight 5; [x] marks
    the absent edges. *)
Definition diamond (x : Z) : t_data :=
  {| graph := {| size := 4;
                 matrix := [[x; 1; 1; 5]; [x; x; x; 1]; [x; x; x; 1]; [x; x; x; x]]%Z |};
     nodes := [{| id := 0 |}; {| id := 1 |}; {| id := 2 |}; {| id := 3 |}] |}.

(** Non-negative weights whose sums leave [int]: 0-1-3 weighs 2^31 + 100,
    0-2-3 weighs 2^31 + 3, and the edge 0-3 weighs 7. *)
Definition heavy (x : Z) : t_data :=
  {| graph := {| size := 4;
                 matrix := [[x; 1073741824; 5; 7];
                            [x; x; x; 1073741924];
                            [x; x; x; 2147483646];
                            [x; x; x; x]]%Z |};
     nodes := [{| id := 0 |}; {| id := 1 |}; {| id := 2 |}; {| id := 3 |}] |}.

(** One vertex with a loop of weight 3 on it. *)
Definition self_loop : t_data :=
  {| graph := {| size := 1; matrix := [[3%Z]] |}; nodes := [{| id := 0 |}] |}.

(** Two vertices and the single edge 1-0 of weight 1. *)
Definition back_edge (x : Z) : t_data :=
  {| graph := {| size := 2; matrix := [[x; x]; [1; x]]%Z |};
     nodes := [{| id := 0 |}; {| id := 1 |}] |}.

(** The diamond with every edge of weight 0. *)
Definition level (x : Z) : t_data :=
  {| graph := {| size := 4;
                 matrix := [[x; 0; 0; 0]; [x; x; x; 0]; [x; x; x; 0]; [x; x; x; x]]%Z |};
     nodes := [{| id := 0 |}; {| id := 1 |}; {| id := 2 |}; {| id := 3 |}] |}.

(** The state in which the search of [data] from 0 to 3 calls
    [find_all_from_to] on 2: vertex 0 is entered, the iterations of its loop
    for 0 and 1 are done, and the edge to 2 is added to the weight. *)
Definition at_call_on_2 (data : t_data) : state :=
  let st0 := enter 0 (fresh_state no_junk data world0) in
  default st0
    (s ← for_each
           (explore_step (-1) (λ c, find_all_from_to (-1) always_served 3 data c)
              {| from := 0; to := 3 |} data)
           [0; 1] st0;
     Some (set_weight (int_add (weight (path_info s)) (matrix_at (graph data) 0 2)) s)).

(** * Properties *)

(** ** Arithmetic of [int] *)

Lemma int_wrap_in_int z : in_int (int_wrap z).
Proof.
  unfold in_int, int_wrap, INT_MIN, INT_MAX.
  pose proof (Z.mod_pos_bound (z - -2147483648) 4294967296). lia.
Qed.

Lemma int_wrap_id z : in_int z → int_wrap z = z.
Proof.
  unfold in_int, int_wrap, INT_MIN, INT_MAX. intros Hz.
  rewrite Z.mod_small; lia.
Qed.

Lemma int_add_exact a b : in_int (a + b) → int_add a b = (a + b)%Z.
Proof. apply int_wrap_id. Qed.

Lemma int_sub_add a b : in_int a → int_sub (int_add a b) b = a.
Proof.
  intros Ha. unfold int_sub, int_add, int_wrap.
  replace ((a + b - INT_MIN) `mod` 4294967296 + INT_MIN - b - INT_MIN)%Z
    with ((a + b - INT_MIN) `mod` 4294967296 - b)%Z by lia.
  rewrite Zminus_mod_idemp_l.
  replace (a + b - INT_MIN - b)%Z with (a - INT_MIN)%Z by lia.
  apply (int_wrap_id a Ha).
Qed.

Lemma int_le_INT_MAX a b : (int_add a b ≤ INT_MAX)%Z.
Proof. apply int_wrap_in_int. Qed.

(** ** Paths: extension by one edge *)

Section PathFacts.

Variable INIT : Z.
Variable g : t_graph.

Lemma is_walk_snoc p u v :
  is_walk INIT g (p ++ [u; v]) ↔ is_walk INIT g (p ++ [u]) ∧ matrix_at g u v ≠ INIT.
Proof.
  induction p as [|x p IH]; [simpl; tauto|].
  destruct p as [|y p]; [simpl; tauto|].
  change (matrix_at g x y ≠ INIT ∧ is_walk INIT g ((y :: p) ++ [u; v]) ↔
          (matrix_at g x y ≠ INIT ∧ is_walk INIT g ((y :: p) ++ [u])) ∧ matrix_at g u v ≠ INIT).
  tauto.
Qed.

Lemma path_cost_snoc p u v :
  path_cost g (p ++ [u; v]) = (path_cost g (p ++ [u]) + matrix_at g u v)%Z.
Proof.
  induction p as [|x p IH]; [simpl; lia|].
  destruct p as [|y p]; [simpl; lia|].
  change (matrix_at g x y + path_cost g ((y :: p) ++ [u; v]) =
          matrix_at g x y + path_cost g ((y :: p) ++ [u]) + matrix_at g u v)%Z.
  lia.
Qed.

Lemma weight_along_snoc acc p u v :
  weight_along g acc (p ++ [u; v]) = int_add (weight_along g acc (p ++ [u])) (matrix_at g u v).
Proof.
  revert acc. induction p as [|x p IH]; intros acc; [done|].
  destruct p as [|y p]; [done|].
  apply (IH (int_add acc (matrix_at g x y))).
Qed.

Lemma path_weight_snoc p u v :
  path_weight g (p ++ [u; v]) = int_add (path_weight g (p ++ [u])) (matrix_at g u v).
Proof. apply weight_along_snoc. Qed.

Lemma weight_along_in_int acc p : in_int acc → in_int (weight_along g acc p).
Proof.
  revert acc. induction p as [|x p IH]; intros acc Hacc; [done|].
  destruct p as [|y p]; [done|]. apply IH, int_wrap_in_int.
Qed.

Lemma path_weight_in_int p : in_int (path_weight g p).
Proof. apply weight_along_in_int. unfold in_int, INT_MIN, INT_MAX. lia. Qed.

End PathFacts.

(** ** Every call gives back the frame it was given *)

Section Frame.

Variable INIT : Z.
Variable mx_realloc_ok : nat → bool.
Variable data : t_data.

Lemma same_frame_refl st : same_frame st st.
Proof. by unfold same_frame. Qed.

Lemma same_frame_trans st1 st2 st3 :
  same_frame st1 st2 → same_frame st2 st3 → same_frame st1 st3.
Proof.
  unfold same_frame. intros (Hv & Hi & Hw & Hl & Ht) (Hv' & Hi' & Hw' & Hl' & Ht').
  rewrite Hi in Ht'. repeat split; congruence.
Qed.

Lemma reached_destination_info st :
  path_info (reached_destination mx_realloc_ok st) = path_info st.
Proof.
  unfold reached_destination.
  destruct (weight (path_info st) <? min_len (all_paths st))%Z; simpl.
  - destruct (weight (path_info st) =? weight (path_info st))%Z; [|done].
    by destruct (add_path _ _ _ _ _).
  - destruct (weight (path_info st) =? min_len (all_paths st))%Z; [|done].
    by destruct (add_path _ _ _ _ _).
Qed.

Lemma may_descend_unmarked from i st :
  may_descend INIT data from i st = true →
  i < length (visited (path_info st)) →
  visited (path_info st) !! i = Some 0%Z.
Proof.
  unfold may_descend. intros H Hi.
  apply andb_prop in H as [H _]. apply andb_prop in H as [_ H].
  apply bool_decide_eq_true in H. rewrite <- H.
  by apply list_lookup_lookup_total_lt.
Qed.

Lemma explore_step_frame call cords i st st' :
  (∀ c s s', ready data (from c) s → call c s = Some s' → same_frame s s') →
  i < size (graph data) →
  size (graph data) ≤ length (visited (path_info st)) →
  in_int (weight (path_info st)) →
  explore_step INIT call cords data i st = Some st' →
  same_frame st st'.
Proof.
  intros Hcall Hi Hlen Hw. unfold explore_step.
  destruct (may_descend INIT data (from cords) i st) eqn:Hgo;
    [|intros [= <-]; apply same_frame_refl].
  destruct (call _ _) as [st1|] eqn:Hc; simpl; [|done]. intros [= <-].
  apply Hcall in Hc as (Hv & Hk & Hw1 & Hl & Ht).
  - unfold same_frame; simpl in *. rewrite Hw1.
    repeat split; try done. by apply int_sub_add.
  - split; [done|]. split; [|apply int_wrap_in_int].
    apply may_descend_unmarked in Hgo; [done|lia].
Qed.

Lemma for_each_frame call cords idx st st' :
  (∀ c s s', ready data (from c) s → call c s = Some s' → same_frame s s') →
  Forall (λ i, i < size (graph data)) idx →
  size (graph data) ≤ length (visited (path_info st)) →
  in_int (weight (path_info st)) →
  for_each (explore_step INIT call cords data) idx st = Some st' →
  same_frame st st'.
Proof.
  intros Hcall Hidx. revert st. induction Hidx as [|i idx Hi _ IH]; intros st Hlen Hw.
  - intros [= <-]. apply same_frame_refl.
  - simpl. destruct (explore_step _ _ _ _ _ _) as [st1|] eqn:H1; simpl; [|done].
    intros Hrest. apply explore_step_frame in H1; [|done..].
    eapply same_frame_trans; [exact H1|].
    destruct H1 as (Hv & _ & Hw1 & _).
    apply IH; [by rewrite Hv|by rewrite Hw1|done].
Qed.

Lemma Forall_seq_lt n : Forall (λ i, i < n) (seq 0 n).
Proof. apply Forall_forall. intros i Hi%elem_of_seq. lia. Qed.

Lemma find_all_from_to_frame fuel cords st st' :
  ready data (from cords) st →
  find_all_from_to INIT mx_realloc_ok fuel data cords st = Some st' →
  same_frame st st'.
Proof.
  revert cords st st'. induction fuel as [|fuel IH]; intros cords st st'; [done|].
  intros (Hlen & Hfree & Hw). simpl.
  set (st1 := enter (from cords) st).
  destruct (if decide (from cords = to cords) then _ else _) as [st2|] eqn:Hbody;
    simpl; [|done].
  intros [= <-].
  assert (path_info st2 = path_info st1 ∨ same_frame st1 st2) as Hst2.
  { destruct (decide (from cords = to cords)).
    - left. injection Hbody as <-. apply reached_destination_info.
    - right. unfold explore_neighbors in Hbody.
      apply for_each_frame in Hbody; [done| |apply Forall_seq_lt| |done].
      + intros c s s'. apply IH.
      + subst st1; simpl. by rewrite length_insert. }
  assert (same_frame st1 st2) as (Hv & Hk & Hw2 & Hl & Ht).
  { destruct Hst2 as [Heq|?]; [|done]. unfold same_frame. by rewrite Heq. }
  subst st1. unfold same_frame; simpl in *.
  rewrite Hv, Hk, Hw2, Hl. repeat split; try done.
  - rewrite list_insert_insert_eq. by apply list_insert_id.
  - by rewrite length_insert.
  - rewrite <- (take_insert_ge (path (path_info st)) _ (path_index (path_info st)) (from cords))
      by lia.
    assert (take (path_index (path_info st)) (take (S (path_index (path_info st))) (path (path_info st2)))
            = take (path_index (path_info st)) (take (S (path_index (path_info st)))
                (<[path_index (path_info st):=from cords]> (path (path_info st))))) as Hx
      by (by rewrite Ht).
    rewrite !take_take in Hx. by rewrite !Nat.min_l in Hx by lia.
Qed.

End Frame.

(** ** Termination: the nesting of calls is bounded by the unmarked vertices *)

Section Termination.

Variable INIT : Z.
Variable mx_realloc_ok : nat → bool.
Variable data : t_data.

Lemma unmarked_insert vis i :
  vis !! i = Some 0%Z → unmarked vis = S (unmarked (<[i:=1%Z]> vis)).
Proof.
  revert i. induction vis as [|x vis IH]; intros [|i] Hi; try done.
  - injection Hi as ->. done.
  - simpl. rewrite (IH i Hi). lia.
Qed.

Lemma unmarked_replicate n : unmarked (replicate n 0%Z) = n.
Proof. induction n as [|n IH]; [done|]. simpl. by rewrite IH. Qed.

Lemma unmarked_le_length vis : unmarked vis ≤ length vis.
Proof.
  induction vis as [|x vis IH]; [done|]. simpl. destruct (decide (x = 0%Z)); lia.
Qed.

Lemma for_each_total fuel cords idx st :
  (∀ c s, ready data (from c) s → unmarked (visited (path_info s)) ≤ fuel →
          is_Some (find_all_from_to INIT mx_realloc_ok fuel data c s)) →
  Forall (λ i, i < size (graph data)) idx →
  size (graph data) ≤ length (visited (path_info st)) →
  in_int (weight (path_info st)) →
  unmarked (visited (path_info st)) ≤ fuel →
  is_Some (for_each
             (explore_step INIT (λ c, find_all_from_to INIT mx_realloc_ok fuel data c) cords data)
             idx st).
Proof.
  intros Hcall Hidx. revert st.
  induction Hidx as [|i idx Hi _ IH]; intros st Hlen Hw Hfuel; [by eexists|].
  simpl.
  assert (∃ st1, explore_step INIT (λ c, find_all_from_to INIT mx_realloc_ok fuel data c)
                   cords data i st = Some st1) as [st1 H1].
  { unfold explore_step.
    destruct (may_descend INIT data (from cords) i st) eqn:Hgo; [|by eexists].
    destruct (Hcall {| from := i; to := to cords |}
                (set_weight (int_add (weight (path_info st))
                   (matrix_at (graph data) (from cords) i)) st)) as [s1 Hs1].
    - split; [done|]. split; [|apply int_wrap_in_int].
      apply may_descend_unmarked in Hgo; [done|lia].
    - done.
    - rewrite Hs1. by eexists. }
  rewrite H1. simpl.
  apply explore_step_frame in H1 as (Hv & _ & Hw1 & _); [|try done..].
  - apply IH; by rewrite ?Hv, ?Hw1.
  - intros c s s'. apply find_all_from_to_frame.
Qed.

Lemma find_all_from_to_total fuel cords st :
  ready data (from cords) st →
  unmarked (visited (path_info st)) ≤ fuel →
  is_Some (find_all_from_to INIT mx_realloc_ok fuel data cords st).
Proof.
  revert cords st. induction fuel as [|fuel IH]; intros cords st (Hlen & Hfree & Hw) Hfuel.
  { rewrite (unmarked_insert _ _ Hfree) in Hfuel. lia. }
  simpl.
  assert (is_Some (if decide (from cords = to cords)
                   then Some (reached_destination mx_realloc_ok (enter (from cords) st))
                   else explore_neighbors INIT
                          (λ c, find_all_from_to INIT mx_realloc_ok fuel data c)
                          cords data (enter (from cords) st))) as [st2 ->]; [|by eexists].
  destruct (decide (from cords = to cords)); [by eexists|].
  apply for_each_total; simpl; [exact IH|apply Forall_seq_lt| |done|].
  - by rewrite length_insert.
  - rewrite (unmarked_insert _ _ Hfree) in Hfuel. lia.
Qed.

Lemma find_all_from_to_returns fuel cords st :
  ready data (from cords) st →
  unmarked (visited (path_info st)) ≤ fuel →
  ∃ st', find_all_from_to INIT mx_realloc_ok fuel data cords st = Some st'
         ∧ same_frame st st'.
Proof.
  intros Hr Hfuel.
  destruct (find_all_from_to_total fuel cords st Hr Hfuel) as [st' Hst'].
  exists st'. split; [done|]. by eapply find_all_from_to_frame.
Qed.

End Termination.

(** More fuel changes nothing once a call returns. *)
Lemma explore_step_mono INIT (call call' : t_coords → state → option state)
    cords data i st st' :
  (∀ c s s', call c s = Some s' → call' c s = Some s') →
  explore_step INIT call cords data i st = Some st' →
  explore_step INIT call' cords data i st = Some st'.
Proof.
  intros Hcall. unfold explore_step.
  destruct (may_descend INIT data (from cords) i st); [|done].
  destruct (call _ _) as [s1|] eqn:H1; [|done].
  by rewrite (Hcall _ _ _ H1).
Qed.

Lemma for_each_mono (body body' : nat → state → option state) idx st st' :
  (∀ i s s', body i s = Some s' → body' i s = Some s') →
  for_each body idx st = Some st' → for_each body' idx st = Some st'.
Proof.
  intros Hbody. revert st. induction idx as [|i idx IH]; intros st; [done|].
  simpl. destruct (body i st) as [s1|] eqn:H1; [|done].
  rewrite (Hbody _ _ _ H1). simpl. apply IH.
Qed.

Lemma find_all_from_to_more_fuel INIT mx_realloc_ok data fuel fuel' cords st st' :
  fuel ≤ fuel' →
  find_all_from_to INIT mx_realloc_ok fuel data cords st = Some st' →
  find_all_from_to INIT mx_realloc_ok fuel' data cords st = Some st'.
Proof.
  revert fuel' cords st st'. induction fuel as [|fuel IH]; intros fuel' cords st st' Hle; [done|].
  destruct fuel' as [|fuel']; [lia|]. simpl.
  destruct (decide (from cords = to cords)); [done|].
  destruct (explore_neighbors _ _ _ _ _) as [s2|] eqn:H2; [|done].
  unfold explore_neighbors in *.
  erewrite for_each_mono; [done| |exact H2].
  intros i s s'. apply explore_step_mono. intros c s0 s0'. apply IH. lia.
Qed.

(** ** The accumulator *)

Section Accumulator.

Variable mx_realloc_ok : nat → bool.

Lemma copy_loop_take (l : list nat) n :
  n ≤ length l → (λ i, l !!! i) <$> seq 0 n = take n l.
Proof.
  intros Hn. apply list_eq. intros i. rewrite list_lookup_fmap.
  destruct (decide (i < n)) as [Hi|Hi].
  - rewrite lookup_seq_lt, lookup_take_lt by done. simpl.
    symmetry. apply list_lookup_lookup_total_lt. lia.
  - rewrite lookup_seq_ge, lookup_take_ge by lia. done.
Qed.

Lemma grow_and_store (l : list t_path) d p :
  <[length l := p]> (resize (S (length l)) d l) = l ++ [p].
Proof.
  rewrite resize_ge by lia.
  replace (S (length l) - length l) with 1 by lia. simpl.
  rewrite insert_app_r_alt by lia.
  by replace (length l - length l) with 0 by lia.
Qed.

Lemma add_path_served ap cur n w :
  mx_realloc_ok (realloc_calls w) = true →
  well_counted ap →
  n ≤ length cur →
  add_path mx_realloc_ok ap cur n w
  = ({| paths := paths ap ++ [stored (take n cur)];
        count := S (count ap);
        min_len := min_len ap |},
     {| realloc_calls := S (realloc_calls w);
        stderr := stderr w;
        displayed := displayed w |}).
Proof.
  intros Hok Hc Hn. unfold add_path. rewrite Hok, Hc.
  rewrite grow_and_store, copy_loop_take by done.
  unfold stored. by rewrite length_take_le.
Qed.

Lemma add_path_refused ap cur n w :
  mx_realloc_ok (realloc_calls w) = false →
  add_path mx_realloc_ok ap cur n w
  = (ap,
     {| realloc_calls := S (realloc_calls w);
        stderr := stderr w ++ ["error: memory allocation failed in add_path"%string];
        displayed := displayed w |}).
Proof. intros Hno. unfold add_path. by rewrite Hno. Qed.

Lemma add_path_well_counted ap cur n w :
  well_counted ap → well_counted (add_path mx_realloc_ok ap cur n w).1.
Proof.
  intros Hc. unfold add_path. destruct (mx_realloc_ok _); [|done].
  unfold well_counted in *. simpl. by rewrite length_insert, length_resize.
Qed.

Lemma reached_destination_well_counted st :
  well_counted (all_paths st) →
  well_counted (all_paths (reached_destination mx_realloc_ok st)).
Proof.
  intros Hc. unfold reached_destination.
  destruct (weight (path_info st) <? min_len (all_paths st))%Z; simpl.
  - destruct (_ =? _)%Z; [|done].
    pose proof (add_path_well_counted {| paths := []; count := 0; min_len := weight (path_info st) |}
                  (path (path_info st)) (path_index (path_info st)) (world st)) as H.
    destruct (add_path _ _ _ _ _). by apply H.
  - destruct (_ =? _)%Z; [|done].
    pose proof (add_path_well_counted (all_paths st)
                  (path (path_info st)) (path_index (path_info st)) (world st) Hc) as H.
    by destruct (add_path _ _ _ _ _).
Qed.

(** With its request served, [reached_destination] is the specification's
    [record] applied to the path in the buffer. *)
Lemma reached_destination_record g st pre :
  mx_realloc_ok (realloc_calls (world st)) = true →
  well_counted (all_paths st) →
  take (path_index (path_info st)) (path (path_info st)) = pre →
  path_index (path_info st) ≤ length (path (path_info st)) →
  weight (path_info st) = path_cost g pre →
  all_paths (reached_destination mx_realloc_ok st) = record g (all_paths st) pre.
Proof.
  intros Hok Hc Hpre Hlen Hw. unfold reached_destination, record.
  rewrite <- Hw.
  destruct (weight (path_info st) <? min_len (all_paths st))%Z eqn:Hlt; simpl.
  - rewrite Z.eqb_refl. rewrite add_path_served by done. simpl. by rewrite Hpre.
  - destruct (weight (path_info st) =? min_len (all_paths st))%Z; [|done].
    rewrite add_path_served by done. simpl. by rewrite Hpre.
Qed.

End Accumulator.

Lemma reached_destination_refused mx_realloc_ok st :
  mx_realloc_ok (realloc_calls (world st)) = false →
  (weight (path_info st) ≤ min_len (all_paths st))%Z →
  reached_destination mx_realloc_ok st
  = {| path_info := path_info st;
       all_paths :=
         if (weight (path_info st) <? min_len (all_paths st))%Z
         then {| paths := []; count := 0; min_len := weight (path_info st) |}
         else all_paths st;
       world :=
         {| realloc_calls := S (realloc_calls (world st));
            stderr := stderr (world st)
                      ++ ["error: memory allocation failed in add_path"%string];
            displayed := displayed (world st) |} |}.
Proof.
  intros Hno Hle. unfold reached_destination.
  destruct (weight (path_info st) <? min_len (all_paths st))%Z eqn:Hlt; simpl.
  - rewrite Z.eqb_refl. by rewrite add_path_refused.
  - apply Z.ltb_ge in Hlt. rewrite (proj2 (Z.eqb_eq _ _)) by lia.
    by rewrite add_path_refused.
Qed.

(** ** Simple paths *)

Lemma distinct_length (p : list nat) n :
  NoDup p → Forall (λ v, v < n) p → length p ≤ n.
Proof.
  intros Hnd Hlt. transitivity (length (seq 0 n)); [|by rewrite length_seq].
  apply submseteq_length, NoDup_submseteq; [done|].
  intros x Hx. apply elem_of_seq.
  rewrite Forall_forall in Hlt. specialize (Hlt x Hx). lia.
Qed.

Section SimplePaths.

Variable INIT : Z.
Variable g : t_graph.

Lemma simple_length p : simple INIT g p → length p ≤ size g.
Proof. intros (Hnd & Hlt & _). by apply distinct_length. Qed.

Lemma is_walk_app_r a b : is_walk INIT g (a ++ b) → is_walk INIT g b.
Proof.
  induction a as [|x a IH]; [done|].
  destruct a as [|y a].
  - destruct b; simpl; tauto.
  - intros [_ H]. by apply IH.
Qed.

Lemma is_walk_app_l a b : is_walk INIT g (a ++ b) → is_walk INIT g a.
Proof.
  induction a as [|x a IH]; [done|].
  destruct a as [|y a]; [done|].
  intros [He H]. split; [done|]. by apply IH.
Qed.

Lemma simple_snoc pre u i :
  simple INIT g (pre ++ [u]) →
  i < size g → matrix_at g u i ≠ INIT → i ∉ pre ++ [u] →
  simple INIT g ((pre ++ [u]) ++ [i]).
Proof.
  intros (Hnd & Hlt & Hwalk) Hi He Hnew. split; [|split].
  - apply NoDup_app. split; [done|]. split; [|apply NoDup_singleton].
    intros x Hx ->%list_elem_of_singleton. done.
  - apply Forall_app. split; [done|]. by apply Forall_singleton.
  - rewrite <- app_assoc. by apply is_walk_snoc.
Qed.

Lemma simple_app_l a b : simple INIT g (a ++ b) → simple INIT g a.
Proof.
  intros (Hnd & Hlt & Hwalk). split; [|split].
  - by apply NoDup_app in Hnd as (? & _).
  - by apply Forall_app in Hlt as (? & _).
  - by eapply is_walk_app_l.
Qed.

Section NonNegative.

Hypothesis weights_nonneg :
  ∀ u v, u < size g → v < size g → matrix_at g u v ≠ INIT → (0 ≤ matrix_at g u v)%Z.

Lemma path_cost_nonneg p :
  Forall (λ v, v < size g) p → is_walk INIT g p → (0 ≤ path_cost g p)%Z.
Proof using weights_nonneg.
  induction p as [|x p IH]; [done|].
  destruct p as [|y p]; [done|].
  intros Hlt [He Hw]. 
  apply Forall_cons in Hlt as [Hx Hlt].
  pose proof Hlt as [Hy _]%Forall_cons.
  specialize (IH Hlt Hw). specialize (weights_nonneg x y Hx Hy He).
  change (0 ≤ matrix_at g x y + path_cost g (y :: p))%Z. lia.
Qed.

Lemma path_cost_app_le pre q :
  Forall (λ v, v < size g) (pre ++ q) → is_walk INIT g (pre ++ q) →
  (path_cost g pre ≤ path_cost g (pre ++ q))%Z.
Proof using weights_nonneg.
  induction pre as [|x pre IH]; [apply path_cost_nonneg|].
  destruct pre as [|y pre].
  - intros. change (0 ≤ path_cost g (x :: q))%Z. by apply path_cost_nonneg.
  - intros Hlt [He Hw]. apply Forall_cons in Hlt as [Hx Hlt].
    specialize (IH Hlt Hw).
    change (matrix_at g x y + path_cost g (y :: pre)
            ≤ matrix_at g x y + path_cost g ((y :: pre) ++ q))%Z. lia.
Qed.

(** Where nothing overflows, the sum the program takes is the sum. *)
Lemma weight_along_exact acc p :
  Forall (λ v, v < size g) p → is_walk INIT g p →
  (0 ≤ acc)%Z → (acc + path_cost g p ≤ INT_MAX)%Z →
  weight_along g acc p = (acc + path_cost g p)%Z.
Proof using weights_nonneg.
  revert acc. induction p as [|x p IH]; intros acc Hlt Hw Hacc Hfit; [simpl; lia|].
  destruct p as [|y p]; [simpl; lia|].
  destruct Hw as [He Hw]. apply Forall_cons in Hlt as [Hx Hlt].
  pose proof Hlt as [Hy _]%Forall_cons.
  pose proof (weights_nonneg x y Hx Hy He) as Hxy.
  pose proof (path_cost_nonneg (y :: p) Hlt Hw) as Hrest.
  change (path_cost g (x :: y :: p)) with (matrix_at g x y + path_cost g (y :: p))%Z in *.
  change (weight_along g (int_add acc (matrix_at g x y)) (y :: p)
          = acc + (matrix_at g x y + path_cost g (y :: p)))%Z.
  rewrite int_add_exact by (unfold in_int, INT_MIN; lia).
  rewrite IH by (done || lia). lia.
Qed.

Lemma path_weight_exact p :
  Forall (λ v, v < size g) p → is_walk INIT g p →
  (path_cost g p ≤ INT_MAX)%Z →
  path_weight g p = path_cost g p.
Proof using weights_nonneg.
  intros Hlt Hw Hfit. unfold path_weight. rewrite weight_along_exact by (done || lia). lia.
Qed.

End NonNegative.

(** *** The enumeration of simple paths *)

Variable to : nat.

Lemma all_simple_paths_sound fuel cur from p :
  simple INIT g (cur ++ [from]) →
  p ∈ all_simple_paths INIT g to fuel cur from →
  ∃ q, p = (cur ++ [from]) ++ q ∧ simple INIT g p ∧ last p = Some to.
Proof.
  revert cur from. induction fuel as [|fuel IH]; intros cur from Hpre; simpl.
  { by intros ?%elem_of_nil. }
  destruct (decide (from = to)) as [->|Hne].
  - intros ->%list_elem_of_singleton. exists []. rewrite app_nil_r.
    split; [done|]. split; [done|]. apply last_snoc.
  - intros (i & Hp & Hi%elem_of_seq)%list_elem_of_bind.
    destruct (decide _) as [[He Hnew]|]; [|by apply elem_of_nil in Hp].
    apply IH in Hp as (q & -> & Hs & Hl).
    + exists (i :: q). split; [|done].
      by rewrite <- (app_assoc (cur ++ [from]) [i] q).
    + apply simple_snoc; [done|lia|done..].
Qed.

Lemma all_simple_paths_complete fuel cur from q :
  size g ≤ fuel + length cur →
  simple INIT g ((cur ++ [from]) ++ q) →
  last ((cur ++ [from]) ++ q) = Some to →
  (cur ++ [from]) ++ q ∈ all_simple_paths INIT g to fuel cur from.
Proof.
  revert cur from q. induction fuel as [|fuel IH]; intros cur from q Hfuel Hs Hl.
  { apply simple_length in Hs. rewrite !length_app in Hs. simpl in *. lia. }
  simpl. destruct (decide (from = to)) as [->|Hne].
  - destruct q as [|i q _] using rev_ind.
    + rewrite app_nil_r. apply list_elem_of_singleton. done.
    + exfalso. rewrite app_assoc, last_snoc in Hl. injection Hl as ->.
      destruct Hs as (Hnd & _).
      rewrite <- !app_assoc in Hnd. apply NoDup_app in Hnd as (_ & _ & Hnd).
      simpl in Hnd. apply NoDup_cons in Hnd as [Hnd _].
      apply Hnd. apply elem_of_app. right. by apply list_elem_of_singleton.
  - destruct q as [|i q].
    + rewrite app_nil_r, last_snoc in Hl. congruence.
    + pose proof Hs as (Hnd & Hlt & Hwalk).
      assert (i < size g) as Hi.
      { apply Forall_app in Hlt as [_ Hlt]. by apply Forall_cons in Hlt as [? _]. }
      assert (matrix_at g from i ≠ INIT) as He.
      { rewrite <- app_assoc in Hwalk. apply is_walk_app_r in Hwalk. by destruct Hwalk. }
      assert (i ∉ cur ++ [from]) as Hnew.
      { apply NoDup_app in Hnd as (_ & Hnd & _). intros Hin.
        apply (Hnd i Hin). apply list_elem_of_here. }
      apply list_elem_of_bind. exists i. split; [|apply elem_of_seq; lia].
      rewrite decide_True by done.
      replace ((cur ++ [from]) ++ i :: q) with (((cur ++ [from]) ++ [i]) ++ q) in *
        by (by rewrite <- (app_assoc _ [i] q)).
      apply IH; [|done..]. rewrite length_app. simpl. lia.
Qed.

End SimplePaths.

(** ** Folding [record] over a list of candidates keeps the lightest ones *)

Section Record.

Variable g : t_graph.

Lemma least_cost_snoc m l p :
  least_cost g m (l ++ [p]) = Z.min (least_cost g m l) (path_cost g p).
Proof. unfold least_cost. by rewrite fmap_app, foldl_app. Qed.

Lemma least_cost_le_init m l : (least_cost g m l ≤ m)%Z.
Proof.
  induction l as [|p l IH] using rev_ind; [done|].
  rewrite least_cost_snoc. lia.
Qed.

Lemma least_cost_le m l p : p ∈ l → (least_cost g m l ≤ path_cost g p)%Z.
Proof.
  induction l as [|q l IH] using rev_ind; [by intros ?%elem_of_nil|].
  rewrite least_cost_snoc. intros [Hp| ->%list_elem_of_singleton]%elem_of_app.
  - specialize (IH Hp). lia.
  - lia.
Qed.

Lemma least_cost_attained m l :
  least_cost g m l = m ∨ ∃ p, p ∈ l ∧ least_cost g m l = path_cost g p.
Proof.
  induction l as [|q l IH] using rev_ind; [by left|].
  rewrite least_cost_snoc.
  destruct (Z.min_spec (least_cost g m l) (path_cost g q)) as [[_ ->]|[_ ->]].
  - destruct IH as [?|(p & Hp & ?)]; [by left|].
    right. exists p. split; [|done]. apply elem_of_app. by left.
  - right. exists q. split; [|done]. apply elem_of_app. right. by apply list_elem_of_singleton.
Qed.

Lemma filter_cost_none (c : Z) (l : list (list nat)) :
  (∀ p, p ∈ l → path_cost g p ≠ c) → filter (λ p, path_cost g p = c) l = [].
Proof.
  intros H. induction l as [|q l IH]; [done|].
  rewrite filter_cons_False.
  - apply IH. intros p Hp. apply H. by apply elem_of_cons; right.
  - apply H. apply list_elem_of_here.
Qed.

Lemma foldl_record_heavier ap l :
  (∀ p, p ∈ l → (min_len ap < path_cost g p)%Z) → foldl (record g) ap l = ap.
Proof.
  induction l as [|p l IH]; intros H; [done|].
  simpl. assert (record g ap p = ap) as ->.
  { unfold record. specialize (H p (list_elem_of_here _ _)).
    rewrite (proj2 (Z.ltb_ge _ _)) by lia.
    by rewrite (proj2 (Z.eqb_neq _ _)) by lia. }
  apply IH. intros q Hq. apply H. by apply elem_of_cons; right.
Qed.

Lemma foldl_record ap l :
  min_len (foldl (record g) ap l) = least_cost g (min_len ap) l
  ∧ paths (foldl (record g) ap l)
    = (if (least_cost g (min_len ap) l <? min_len ap)%Z then [] else paths ap)
      ++ (stored <$> filter (λ p, path_cost g p = least_cost g (min_len ap) l) l).
Proof.
  induction l as [|p l [IHm IHp]] using rev_ind.
  { simpl. unfold least_cost. simpl. rewrite Z.ltb_irrefl. by rewrite app_nil_r. }
  rewrite foldl_app. simpl. rewrite least_cost_snoc.
  pose proof (least_cost_le_init (min_len ap) l) as Hinit.
  set (m := min_len ap) in *. set (ml := least_cost g m l) in *.
  set (apl := foldl (record g) ap l) in *.
  unfold record. rewrite IHm.
  destruct (path_cost g p <? ml)%Z eqn:Hlt; simpl.
  - apply Z.ltb_lt in Hlt. rewrite Z.min_r by lia. split; [done|].
    rewrite (proj2 (Z.ltb_lt _ _)) by lia. simpl.
    rewrite filter_app, filter_cost_none.
    + by rewrite filter_cons_True.
    + intros q Hq. pose proof (least_cost_le m l q Hq). fold ml in H. lia.
  - apply Z.ltb_ge in Hlt. rewrite Z.min_l by lia.
    destruct (path_cost g p =? ml)%Z eqn:Heq; simpl.
    + apply Z.eqb_eq in Heq. split; [done|].
      rewrite IHp, filter_app, fmap_app, app_assoc.
      by rewrite (filter_cons_True _ p) by done.
    + apply Z.eqb_neq in Heq. split; [done|].
      rewrite IHp, filter_app, fmap_app.
      rewrite (filter_cons_False _ p) by done. simpl. by rewrite app_nil_r.
Qed.

End Record.

(** ** The search records every simple path, pruned ones being no loss *)

Section Search.

Variable INIT : Z.
Variable mx_realloc_ok : nat → bool.
Variable data : t_data.
Variable start target : nat.

Local Abbreviation g := (graph data).

Lemma tracks_lookup pre pi v :
  tracks g pre pi → v < size g →
  visited pi !! v = Some (if decide (v ∈ pre) then 1%Z else 0%Z).
Proof. intros (_ & H & _) Hv. by apply H. Qed.

Lemma tracks_same_frame pre st st' :
  same_frame st st' → tracks g pre (path_info st) → tracks g pre (path_info st').
Proof.
  intros (Hv & Hk & _ & Hl & Ht) (H1 & H2 & H3 & H4 & H5).
  unfold tracks. rewrite Hv, Hk, Hl. rewrite H3 in Ht. rewrite Ht. done.
Qed.

Lemma tracks_enter_distinct cur u st :
  tracks g cur (path_info st) →
  NoDup (cur ++ [u]) → Forall (λ v, v < size g) (cur ++ [u]) →
  tracks g (cur ++ [u]) (path_info (enter u st)).
Proof.
  intros (H1 & H2 & H3 & H4 & H5) Hnd Hlt.
  pose proof (distinct_length _ _ Hnd Hlt) as Hlen. rewrite length_app in Hlen. simpl in Hlen.
  assert (u < size g) as Hu.
  { apply Forall_app in Hlt as [_ Hu]. by rewrite Forall_singleton in Hu. }
  unfold tracks. simpl. rewrite !length_insert, H3.
  split; [done|]. split; [|split; [|split; [|done]]].
  - intros v Hv. destruct (decide (v = u)) as [->|Hne].
    + rewrite list_lookup_insert_eq by lia.
      rewrite decide_True; [done|]. apply elem_of_app. right. by apply list_elem_of_singleton.
    + rewrite list_lookup_insert_ne by done. rewrite H2 by done.
      destruct (decide (v ∈ cur)) as [Hin|Hin].
      * rewrite decide_True; [done|]. apply elem_of_app. by left.
      * rewrite decide_False; [done|].
        intros [?| ?%list_elem_of_singleton]%elem_of_app; done.
  - rewrite length_app. simpl. lia.
  - rewrite length_app. simpl. replace (length cur + 1) with (S (length cur)) by lia.
    rewrite (take_S_r _ _ u).
    + by rewrite take_insert_ge, H4 by lia.
    + apply list_lookup_insert_eq. lia.
Qed.

Lemma tracks_enter cur u st :
  tracks g cur (path_info st) →
  simple INIT g (cur ++ [u]) →
  tracks g (cur ++ [u]) (path_info (enter u st)).
Proof. intros Htr (Hnd & Hlt & _). by apply tracks_enter_distinct. Qed.

Hypothesis always_served : ∀ n, mx_realloc_ok n = true.

Hypothesis weights_nonneg :
  ∀ u v, u < size g → v < size g → matrix_at g u v ≠ INIT → (0 ≤ matrix_at g u v)%Z.

Hypothesis weights_fit :
  ∀ p, simple INIT g p → head p = Some start → (path_cost g p ≤ INT_MAX)%Z.

Lemma simple_cost_in_int p :
  simple INIT g p → head p = Some start → in_int (path_cost g p).
Proof using weights_nonneg weights_fit.
  intros Hs Hh. pose proof (weights_fit p Hs Hh). destruct Hs as (_ & Hlt & Hw).
  pose proof (path_cost_nonneg INIT g weights_nonneg p Hlt Hw).
  unfold in_int, INT_MIN. lia.
Qed.

Lemma explore_step_records fuel cur u i st st' :
  records_extensions INIT mx_realloc_ok data start target fuel →
  i < size g →
  tracks g (cur ++ [u]) (path_info st) →
  weight (path_info st) = path_cost g (cur ++ [u]) →
  simple INIT g (cur ++ [u]) →
  head (cur ++ [u]) = Some start →
  well_counted (all_paths st) →
  explore_step INIT (λ c, find_all_from_to INIT mx_realloc_ok fuel data c)
    {| from := u; to := target |} data i st = Some st' →
  all_paths st'
  = foldl (record g) (all_paths st)
      (if decide (matrix_at g u i ≠ INIT ∧ i ∉ cur ++ [u])
       then all_simple_paths INIT g target fuel (cur ++ [u]) i else [])
  ∧ well_counted (all_paths st')
  ∧ same_frame st st'.
Proof using weights_nonneg weights_fit.
  intros IH Hi Htr Hw Hs Hh Hc. unfold explore_step. simpl.
  pose proof (tracks_lookup _ _ i Htr Hi) as Hvis.
  destruct (decide (matrix_at g u i ≠ INIT ∧ i ∉ cur ++ [u])) as [[He Hnew]|Hno].
  - rewrite decide_False in Hvis by done.
    assert (simple INIT g ((cur ++ [u]) ++ [i])) as Hs' by by apply simple_snoc.
    assert (head ((cur ++ [u]) ++ [i]) = Some start) as Hh'.
    { rewrite head_app. by rewrite Hh. }
    pose proof (simple_cost_in_int _ Hs' Hh') as Hfit.
    pose proof (simple_cost_in_int _ Hs Hh) as Hfit0.
    assert (path_cost g ((cur ++ [u]) ++ [i]) = (weight (path_info st) + matrix_at g u i)%Z) as Hcost.
    { rewrite <- app_assoc. simpl. rewrite path_cost_snoc. by rewrite Hw. }
    rewrite Hcost in Hfit.
    assert (may_descend INIT data u i st
            = (weight (path_info st) + matrix_at g u i <=? min_len (all_paths st))%Z) as ->.
    { unfold may_descend. rewrite !bool_decide_eq_true_2; [|by apply list_lookup_total_correct|done].
      by rewrite int_add_exact. }
    rewrite int_add_exact by done.
    destruct (_ <=? _)%Z eqn:Hle.
    + destruct (find_all_from_to _ _ _ _ _ _) as [s1|] eqn:Hcall; simpl; [|done].
      intros [= <-]. simpl.
      pose proof Hcall as Hfr. apply find_all_from_to_frame in Hfr.
      2:{ split; [|split]; simpl; [|done|done]. destruct Htr as (-> & _). done. }
      apply (IH (cur ++ [u]) i) in Hcall as [Hacc Hc1]; simpl; [|done|by rewrite <- Hcost|done..].
      split; [done|]. split; [done|].
      destruct Hfr as (Hv & Hk & Hw1 & Hl & Ht). simpl in *.
      unfold same_frame. simpl. rewrite Hw1.
      repeat split; try done.
      rewrite <- (int_add_exact (weight (path_info st)) (matrix_at g u i)) by done.
      apply int_sub_add. by rewrite Hw.
    + intros [= <-]. split; [|split; [done|apply same_frame_refl]].
      symmetry. apply foldl_record_heavier. intros p Hp.
      apply all_simple_paths_sound in Hp as (q & -> & (_ & Hlt & Hwalk) & _); [|done].
      apply Z.leb_gt in Hle.
      pose proof (path_cost_app_le INIT g weights_nonneg _ q Hlt Hwalk). lia.
  - assert (may_descend INIT data u i st = false) as ->.
    { unfold may_descend.
      destruct (decide (matrix_at g u i ≠ INIT)) as [He|He].
      - rewrite decide_True in Hvis by (destruct (decide (i ∈ cur ++ [u])); tauto).
        apply list_lookup_total_correct in Hvis. rewrite Hvis.
        rewrite (bool_decide_eq_false_2 (1%Z = 0%Z)) by done.
        by rewrite andb_false_r.
      - by rewrite bool_decide_eq_false_2. }
    intros [= <-]. split; [done|]. split; [done|apply same_frame_refl].
Qed.

Lemma for_each_records fuel cur u idx st st' :
  records_extensions INIT mx_realloc_ok data start target fuel →
  Forall (λ i, i < size g) idx →
  tracks g (cur ++ [u]) (path_info st) →
  weight (path_info st) = path_cost g (cur ++ [u]) →
  simple INIT g (cur ++ [u]) →
  head (cur ++ [u]) = Some start →
  well_counted (all_paths st) →
  for_each (explore_step INIT (λ c, find_all_from_to INIT mx_realloc_ok fuel data c)
              {| from := u; to := target |} data) idx st = Some st' →
  all_paths st'
  = foldl (record g) (all_paths st)
      (i ← idx;
       if decide (matrix_at g u i ≠ INIT ∧ i ∉ cur ++ [u])
       then all_simple_paths INIT g target fuel (cur ++ [u]) i else [])
  ∧ well_counted (all_paths st').
Proof using weights_nonneg weights_fit.
  intros IH Hidx. revert st.
  induction Hidx as [|i idx Hi _ IHidx]; intros st Htr Hw Hs Hh Hc.
  { by intros [= <-]. }
  simpl. destruct (explore_step _ _ _ _ _ _) as [s1|] eqn:Hstep; simpl; [|done].
  intros Hrest.
  eapply explore_step_records in Hstep as (Hacc & Hc1 & Hfr); [|done..].
  rewrite foldl_app, <- Hacc.
  apply IHidx; [|destruct Hfr as (_ & _ & -> & _)|..]; try done.
  by eapply tracks_same_frame.
Qed.

Lemma find_all_from_to_records fuel :
  records_extensions INIT mx_realloc_ok data start target fuel.
Proof using always_served weights_nonneg weights_fit.
  induction fuel as [|fuel IH]; intros cur u st st' Htr Hw Hs Hh Hc; [done|].
  simpl. pose proof (tracks_enter _ _ _ Htr Hs) as Htr1.
  destruct (decide (u = target)) as [->|Hne].
  - simpl. intros [= <-]. simpl. split.
    + change (all_paths st) with (all_paths (enter target st)).
      destruct Htr1 as (_ & _ & Hk & Ht & _).
      apply reached_destination_record.
      * apply always_served.
      * done.
      * by rewrite Hk.
      * rewrite Hk. rewrite <- Ht at 1. rewrite length_take. lia.
      * done.
    + by apply reached_destination_well_counted.
  - destruct (explore_neighbors _ _ _ _ _) as [s2|] eqn:Hloop; simpl; [|done].
    intros [= <-]. simpl.
    unfold explore_neighbors in Hloop.
    eapply for_each_records in Hloop; [done|done|apply Forall_seq_lt|done..].
Qed.

End Search.

(** ** The enumeration lists every simple path once *)

Section Enumeration.

Variable INIT : Z.
Variable g : t_graph.
Variable target : nat.

Lemma all_simple_paths_prefix fuel cur u p :
  p ∈ all_simple_paths INIT g target fuel cur u → ∃ q, p = (cur ++ [u]) ++ q.
Proof.
  revert cur u. induction fuel as [|fuel IH]; intros cur u; simpl.
  { by intros ?%elem_of_nil. }
  destruct (decide (u = target)).
  - intros ->%list_elem_of_singleton. exists []. by rewrite app_nil_r.
  - intros (i & Hp & _)%list_elem_of_bind.
    destruct (decide _); [|by apply elem_of_nil in Hp].
    apply IH in Hp as [q ->]. exists (i :: q).
    by rewrite <- (app_assoc (cur ++ [u]) [i] q).
Qed.

Lemma NoDup_bind_disjoint {A} (f : nat → list A) idx :
  NoDup idx →
  (∀ i, NoDup (f i)) →
  (∀ i j x, x ∈ f i → x ∈ f j → i = j) →
  NoDup (idx ≫= f).
Proof.
  intros Hidx Hf Hdis. induction Hidx as [|i idx Hi _ IH]; [apply NoDup_nil_2|].
  rewrite bind_cons. apply NoDup_app. split; [apply Hf|]. split; [|done].
  intros x Hx (j & Hxj & Hj)%list_elem_of_bind.
  by rewrite (Hdis i j x Hx Hxj) in Hi.
Qed.

Lemma all_simple_paths_NoDup fuel cur u :
  NoDup (all_simple_paths INIT g target fuel cur u).
Proof.
  revert cur u. induction fuel as [|fuel IH]; intros cur u; simpl.
  { apply NoDup_nil_2. }
  destruct (decide (u = target)); [apply NoDup_singleton|].
  apply NoDup_bind_disjoint.
  - apply NoDup_seq.
  - intros i. destruct (decide _); [apply IH|apply NoDup_nil_2].
  - intros i j p Hi Hj.
    destruct (decide _); [|by apply elem_of_nil in Hi].
    destruct (decide _); [|by apply elem_of_nil in Hj].
    apply all_simple_paths_prefix in Hi as [q Hq].
    apply all_simple_paths_prefix in Hj as [q' Hq'].
    rewrite Hq in Hq'. rewrite <- !app_assoc in Hq'.
    apply app_inv_head in Hq'. simpl in Hq'. congruence.
Qed.

Lemma all_simple_paths_spec fuel start p :
  start < size g → size g ≤ fuel →
  p ∈ all_simple_paths INIT g target fuel [] start ↔ simple_path INIT g start target p.
Proof.
  intros Hstart Hfuel. split.
  - intros Hp. apply all_simple_paths_sound in Hp as (q & -> & Hs & Hl).
    + by split.
    + split; [apply NoDup_singleton|]. split; [by apply Forall_singleton|done].
  - intros (Hh & Hl & Hs). destruct p as [|s q]; [done|]. injection Hh as ->.
    apply (all_simple_paths_complete INIT g target fuel [] start q); [simpl; lia|done..].
Qed.

End Enumeration.

#[global] Instance stored_inj : Inj (=) (=) stored.
Proof. intros p q H. by injection H. Qed.

(** ** Searching from a fresh state *)

Section MinimumPaths.

Variable INIT : Z.
Variable mx_realloc_ok : nat → bool.
Variable junk : nat → nat.
Variable data : t_data.
Variable start target : nat.

Local Abbreviation g := (graph data).

Lemma fresh_state_ready w :
  start < size g → ready data start (fresh_state junk data w).
Proof.
  intros Hs. split; [|split]; simpl.
  - by rewrite length_replicate.
  - by apply lookup_replicate_2.
  - unfold in_int, INT_MIN, INT_MAX. lia.
Qed.

Lemma fresh_state_tracks w : tracks g [] (path_info (fresh_state junk data w)).
Proof.
  unfold tracks. simpl. rewrite length_replicate, length_fmap, length_seq.
  split; [done|]. split; [|done].
  intros v Hv. by apply lookup_replicate_2.
Qed.

Lemma search_from_fresh fuel w :
  start < size g → size g ≤ fuel →
  (∀ n, mx_realloc_ok n = true) →
  (∀ u v, u < size g → v < size g → matrix_at g u v ≠ INIT → (0 ≤ matrix_at g u v)%Z) →
  (∀ p, simple INIT g p → head p = Some start → (path_cost g p ≤ INT_MAX)%Z) →
  ∃ st',
    find_all_from_to INIT mx_realloc_ok fuel data {| from := start; to := target |}
      (fresh_state junk data w) = Some st'
    ∧ all_paths st'
      = foldl (record g) create_paths (all_simple_paths INIT g target fuel [] start)
    ∧ well_counted (all_paths st').
Proof.
  intros Hstart Hfuel Hok Hnn Hfit.
  destruct (find_all_from_to_returns INIT mx_realloc_ok data fuel
              {| from := start; to := target |} (fresh_state junk data w))
    as (st' & Hrun & _).
  { by apply fresh_state_ready. }
  { simpl. by rewrite unmarked_replicate. }
  exists st'. split; [done|].
  apply (find_all_from_to_records INIT mx_realloc_ok data start target Hok Hnn Hfit
           fuel [] start) in Hrun; [done|apply fresh_state_tracks|done| |done|done].
  split; [apply NoDup_singleton|]. split; [by apply Forall_singleton|done].
Qed.

End MinimumPaths.

(** ** The pairs that are searched *)

Section Pairs.

Variable INIT : Z.
Variable mx_realloc_ok : nat → bool.
Variable junk : nat → nat.
Variable fuel : nat.
Variable data : t_data.

Lemma search_each_app l1 l2 w :
  search_each INIT mx_realloc_ok junk fuel data (l1 ++ l2) w
  = w' ← search_each INIT mx_realloc_ok junk fuel data l1 w;
    search_each INIT mx_realloc_ok junk fuel data l2 w'.
Proof.
  revert w. induction l1 as [|[s c] l1 IH]; intros w; [done|].
  simpl. destruct (find_all_from_body _ _ _ _ _ _ _ _) as [w'|]; [|done].
  simpl. apply IH.
Qed.

Lemma find_all_from_loop_pairs s next w :
  find_all_from_loop INIT mx_realloc_ok junk fuel data s next w
  = search_each INIT mx_realloc_ok junk fuel data ((λ c, (s, c)) <$> next) w.
Proof.
  revert w. induction next as [|c next IH]; intros w; [done|].
  simpl. destruct (find_all_from_body _ _ _ _ _ _ _ _) as [w'|]; [|done].
  simpl. apply IH.
Qed.

Lemma execute_pathfinding_loop_pairs current w :
  execute_pathfinding_loop INIT mx_realloc_ok junk fuel data current w
  = search_each INIT mx_realloc_ok junk fuel data (later_pairs current) w.
Proof.
  revert w. induction current as [|s next IH]; intros w; [done|].
  simpl. rewrite search_each_app, find_all_from_loop_pairs.
  destruct (search_each _ _ _ _ _ _ _) as [w'|]; [|done].
  simpl. apply IH.
Qed.

Lemma later_pairs_length l : 2 * length (later_pairs l) = length l * (length l - 1).
Proof.
  induction l as [|s next IH]; [done|].
  simpl. rewrite length_app, length_fmap. nia.
Qed.

End Pairs.

(** ** The observed program computes the same states *)

Section ObservedState.

Variable INIT : Z.
Variable mx_realloc_ok : nat → bool.

Lemma explore_step_observed_state call call' cords data i st :
  (∀ c s, snd <$> call' c s = call c s) →
  snd <$> explore_step_observed INIT call' cords data i st
  = explore_step INIT call cords data i st.
Proof.
  intros Hcall. unfold explore_step_observed, explore_step.
  destruct (may_descend INIT data (from cords) i st); [|done].
  rewrite <- Hcall. by destruct (call' _ _) as [[tr s1]|].
Qed.

Lemma for_each_observed_state body body' idx st :
  (∀ i s, snd <$> body' i s = body i s) →
  snd <$> for_each_observed body' idx st = for_each body idx st.
Proof.
  intros Hbody. revert st. induction idx as [|i idx IH]; intros st; [done|].
  simpl. rewrite <- Hbody. destruct (body' i st) as [[tr s1]|]; [|done].
  simpl. rewrite <- IH. by destruct (for_each_observed body' idx s1) as [[tr' s2]|].
Qed.

Lemma find_all_from_to_observed_state fuel data cords st :
  snd <$> find_all_from_to_observed INIT mx_realloc_ok fuel data cords st
  = find_all_from_to INIT mx_realloc_ok fuel data cords st.
Proof.
  revert cords st. induction fuel as [|fuel IH]; intros cords st; [done|].
  simpl. destruct (decide (from cords = to cords)); [done|].
  unfold explore_neighbors.
  rewrite <- (for_each_observed_state
                (explore_step INIT (λ c, find_all_from_to INIT mx_realloc_ok fuel data c) cords data)
                (explore_step_observed INIT
                   (λ c, find_all_from_to_observed INIT mx_realloc_ok fuel data c) cords data)).
  - by destruct (for_each_observed _ _ _) as [[tr s2]|].
  - intros i s. apply explore_step_observed_state. intros c s0. apply IH.
Qed.

Lemma find_all_from_to_observed_Some fuel data cords st tr st' :
  find_all_from_to_observed INIT mx_realloc_ok fuel data cords st = Some (tr, st') →
  find_all_from_to INIT mx_realloc_ok fuel data cords st = Some st'.
Proof. intros H. rewrite <- find_all_from_to_observed_state, H. done. Qed.

Lemma find_all_from_to_observed_exists fuel data cords st st' :
  find_all_from_to INIT mx_realloc_ok fuel data cords st = Some st' →
  ∃ tr, find_all_from_to_observed INIT mx_realloc_ok fuel data cords st = Some (tr, st').
Proof.
  rewrite <- find_all_from_to_observed_state.
  destruct (find_all_from_to_observed _ _ _ _ _ _) as [[tr s]|]; [|done].
  intros [= <-]. by exists tr.
Qed.

End ObservedState.

(** ** What holds at every program point *)

Lemma may_descend_spec INIT data u i st :
  may_descend INIT data u i st = true
  ↔ matrix_at (graph data) u i ≠ INIT
    ∧ visited (path_info st) !!! i = 0%Z
    ∧ (int_add (weight (path_info st)) (matrix_at (graph data) u i)
       ≤ min_len (all_paths st))%Z.
Proof.
  unfold may_descend.
  rewrite !andb_true_iff, !bool_decide_eq_true, Z.leb_le. tauto.
Qed.

Section Invariant.

Variable INIT : Z.
Variable mx_realloc_ok : nat → bool.
Variable data : t_data.

Local Abbreviation g := (graph data).

Lemma tracks_agrees pre pt s :
  tracks g pre (path_info s) →
  weight (path_info s) = path_weight g (pre ++ pending pt) →
  match pt with
  | Left _ before =>
      visited (path_info s) = visited before
      ∧ path_index (path_info s) = path_index before
      ∧ weight (path_info s) = weight before
  | _ => True
  end →
  agrees_at g pt s.
Proof.
  intros (_ & Hm & Hk & Ht & _) Hw Hleft. rewrite <- Hk in Ht.
  split; [|split; [|done]].
  - intros v Hv. rewrite Ht. by apply Hm.
  - by rewrite Ht.
Qed.

Lemma tracks_ready cur u st :
  tracks g cur (path_info st) →
  NoDup (cur ++ [u]) → Forall (λ v, v < size g) (cur ++ [u]) →
  weight (path_info st) = path_weight g (cur ++ [u]) →
  ready data u st.
Proof.
  intros (Hl & Hm & _) Hnd Hlt Hw. split; [lia|]. split.
  - rewrite Forall_app, Forall_singleton in Hlt. destruct Hlt as [_ Hu].
    rewrite Hm by done. rewrite decide_False; [done|].
    apply NoDup_app in Hnd as (_ & Hnd & _). intros Hin.
    apply (Hnd u Hin). by apply list_elem_of_singleton.
  - rewrite Hw. apply path_weight_in_int.
Qed.

Lemma reached_destination_uniform pre st :
  tracks g pre (path_info st) →
  simple INIT g pre →
  weight (path_info st) = path_weight g pre →
  uniform INIT g (all_paths st) → well_counted (all_paths st) →
  uniform INIT g (all_paths (reached_destination mx_realloc_ok st)).
Proof.
  intros (_ & _ & Hk & Ht & _) Hs Hw Hu Hc.
  assert (path_index (path_info st) ≤ length (path (path_info st))) as Hlen.
  { rewrite Hk. rewrite <- Ht at 1. rewrite length_take. lia. }
  unfold reached_destination.
  destruct (mx_realloc_ok (realloc_calls (world st))) eqn:Hok.
  - destruct (weight (path_info st) <? min_len (all_paths st))%Z eqn:Hlt; simpl.
    + rewrite Z.eqb_refl, add_path_served by done. simpl.
      apply Forall_singleton. simpl. by rewrite Hk, Ht.
    + destruct (weight (path_info st) =? min_len (all_paths st))%Z eqn:Heq; [|done].
      rewrite add_path_served by done. simpl.
      apply Forall_app. split; [done|]. apply Forall_singleton. simpl.
      apply Z.eqb_eq in Heq. by rewrite Hk, Ht, <- Hw.
  - destruct (weight (path_info st) <? min_len (all_paths st))%Z eqn:Hlt; simpl.
    + rewrite Z.eqb_refl, add_path_refused by done. apply Forall_nil_2.
    + destruct (weight (path_info st) =? min_len (all_paths st))%Z eqn:Heq; [|done].
      by rewrite add_path_refused.
Qed.

Lemma tracks_sound pre pt s :
  tracks g pre (path_info s) →
  simple INIT g (pre ++ pending pt) →
  weight (path_info s) = path_weight g (pre ++ pending pt) →
  match pt with
  | Left _ before =>
      visited (path_info s) = visited before
      ∧ path_index (path_info s) = path_index before
      ∧ weight (path_info s) = weight before
  | _ => True
  end →
  uniform INIT g (all_paths s) →
  sound_at INIT g (pt, s).
Proof.
  intros Htr Hs Hw Hleft Hu.
  split; [by apply (tracks_agrees pre)|]. split; [|split; [done|]].
  - unfold simple_at. simpl. destruct Htr as (_ & _ & -> & -> & _). done.
  - simpl. destruct Htr as (_ & _ & -> & _).
    apply simple_app_l in Hs as (Hnd & Hlt & _). by apply distinct_length.
Qed.

Lemma explore_step_observed_well fuel cur u target i st tr st' :
  observed_well INIT mx_realloc_ok data fuel →
  i < size g →
  tracks g (cur ++ [u]) (path_info st) →
  simple INIT g (cur ++ [u]) →
  weight (path_info st) = path_weight g (cur ++ [u]) →
  uniform INIT g (all_paths st) → well_counted (all_paths st) →
  explore_step_observed INIT
    (λ c, find_all_from_to_observed INIT mx_realloc_ok fuel data c)
    {| from := u; to := target |} data i st = Some (tr, st') →
  Forall (sound_at INIT g) tr
  ∧ uniform INIT g (all_paths st') ∧ well_counted (all_paths st') ∧ same_frame st st'.
Proof.
  intros IH Hi Htr Hs Hw Hu Hc. unfold explore_step_observed. simpl.
  destruct (may_descend INIT data u i st) eqn:Hgo.
  - destruct (find_all_from_to_observed _ _ _ _ _ _) as [[tr1 s1]|] eqn:Hcall; [|done].
    simpl. intros [= <- <-].
    pose proof Htr as (Hl & Hm & _).
    pose proof Hgo as (He & _)%may_descend_spec.
    apply may_descend_unmarked in Hgo; [|lia].
    assert (i ∉ cur ++ [u]) as Hnew.
    { intros Hin. rewrite Hm, decide_True in Hgo by done. done. }
    assert (simple INIT g ((cur ++ [u]) ++ [i])) as Hs' by by apply simple_snoc.
    assert (int_add (weight (path_info st)) (matrix_at g u i)
            = path_weight g ((cur ++ [u]) ++ [i])) as Hw'.
    { rewrite <- app_assoc. simpl. by rewrite path_weight_snoc, Hw. }
    apply (IH (cur ++ [u]) i target) in Hcall as (Hall & Hu1 & Hc1 & Hfr); try done.
    pose proof Hfr as (Hv1 & Hk1 & Hw1 & Hl1 & Ht1). simpl in *.
    assert (int_sub (weight (path_info s1)) (matrix_at g u i) = weight (path_info st)) as Hback.
    { rewrite Hw1. apply int_sub_add. rewrite Hw. apply path_weight_in_int. }
    assert (same_frame st
              (set_weight (int_sub (weight (path_info s1)) (matrix_at g u i)) s1)) as Hfr'.
    { unfold same_frame. simpl. by rewrite Hback. }
    split; [|done]. apply Forall_cons. split; [|apply Forall_app; split; [done|]].
    + apply (tracks_sound (cur ++ [u])); simpl; rewrite ?Hw'; done.
    + apply Forall_singleton.
      apply (tracks_sound (cur ++ [u])); simpl; rewrite ?app_nil_r, ?Hback; try done.
      exact (tracks_same_frame data _ _ _ Hfr' Htr).
  - intros [= <- <-]. split; [|split; [done|split; [done|apply same_frame_refl]]].
    apply Forall_singleton.
    apply (tracks_sound (cur ++ [u])); simpl; rewrite ?app_nil_r; done.
Qed.

Lemma for_each_observed_well fuel cur u target idx st tr st' :
  observed_well INIT mx_realloc_ok data fuel →
  Forall (λ i, i < size g) idx →
  tracks g (cur ++ [u]) (path_info st) →
  simple INIT g (cur ++ [u]) →
  weight (path_info st) = path_weight g (cur ++ [u]) →
  uniform INIT g (all_paths st) → well_counted (all_paths st) →
  for_each_observed
    (explore_step_observed INIT
       (λ c, find_all_from_to_observed INIT mx_realloc_ok fuel data c)
       {| from := u; to := target |} data) idx st = Some (tr, st') →
  Forall (sound_at INIT g) tr
  ∧ uniform INIT g (all_paths st') ∧ well_counted (all_paths st') ∧ same_frame st st'.
Proof.
  intros IH Hidx. revert st tr.
  induction Hidx as [|i idx Hi _ IHidx]; intros st tr Htr Hs Hw Hu Hc.
  { intros [= <- <-]. split; [apply Forall_nil_2|]. by repeat split. }
  simpl. destruct (explore_step_observed _ _ _ _ _ _) as [[tr1 s1]|] eqn:Hstep; [|done].
  simpl. destruct (for_each_observed _ _ _) as [[tr2 s2]|] eqn:Hrest; [|done].
  simpl. intros [= <- <-].
  eapply explore_step_observed_well in Hstep as (Hall1 & Hu1 & Hc1 & Hfr1); try done.
  apply IHidx in Hrest as (Hall2 & Hu2 & Hc2 & Hfr2); try done.
  - split; [by apply Forall_app|]. split; [done|]. split; [done|].
    by eapply same_frame_trans.
  - by apply (tracks_same_frame data _ st).
  - destruct Hfr1 as (_ & _ & -> & _). done.
Qed.

Lemma find_all_from_to_observed_well fuel :
  observed_well INIT mx_realloc_ok data fuel.
Proof.
  induction fuel as [|fuel IH]; intros cur u target st tr st' Htr Hs Hw Hu Hc; [done|].
  intros Hrun.
  pose proof Hs as (Hnd & Hlt & _).
  pose proof (find_all_from_to_observed_Some _ _ _ _ _ _ _ _ Hrun) as Hfr.
  apply find_all_from_to_frame in Hfr; [|by apply (tracks_ready cur)].
  revert Hrun. simpl.
  pose proof (tracks_enter_distinct data _ _ _ Htr Hnd Hlt) as Htr1.
  assert (sound_at INIT g (Entered u, enter u st)) as Hent.
  { apply (tracks_sound (cur ++ [u])); simpl; rewrite ?app_nil_r; done. }
  assert (∀ s2, same_frame st (leave u s2) → uniform INIT g (all_paths s2) →
                sound_at INIT g (Left u (path_info st), leave u s2)) as Hleft.
  { intros s2 Hfr2 Hu2. pose proof Hfr2 as (Hv2 & Hk2 & Hw2 & _).
    apply (tracks_sound cur); simpl; try done.
    - exact (tracks_same_frame data _ _ _ Hfr2 Htr).
    - simpl in Hw2. by rewrite Hw2. }
  destruct (decide (u = target)) as [->|Hne]; simpl.
  - intros [= <- <-].
    assert (uniform INIT g (all_paths (reached_destination mx_realloc_ok (enter target st)))) as Hu'.
    { by apply (reached_destination_uniform (cur ++ [target])). }
    split; [|split; [done|split; [|done]]].
    + apply Forall_cons. split; [done|]. apply Forall_cons. split.
      * apply (tracks_sound (cur ++ [target])); simpl;
          rewrite ?reached_destination_info, ?app_nil_r; done.
      * apply Forall_singleton. by apply Hleft.
    + by apply reached_destination_well_counted.
  - destruct (for_each_observed _ _ _) as [[tr2 s2]|] eqn:Hloop; [|done].
    simpl. intros [= <- <-].
    eapply for_each_observed_well in Hloop as (Hall & Hu2 & Hc2 & _);
      [| exact IH | apply Forall_seq_lt | exact Htr1 | done..].
    split; [|done]. apply Forall_cons. split; [done|].
    apply Forall_app. split; [done|]. apply Forall_singleton. by apply Hleft.
Qed.

End Invariant.

Lemma fresh_state_observed_well INIT mx_realloc_ok junk data start target fuel w :
  start < size (graph data) →
  size (graph data) ≤ fuel →
  ∃ tr st',
    find_all_from_to_observed INIT mx_realloc_ok fuel data
      {| from := start; to := target |} (fresh_state junk data w) = Some (tr, st')
    ∧ find_all_from_to INIT mx_realloc_ok fuel data
        {| from := start; to := target |} (fresh_state junk data w) = Some st'
    ∧ Forall (sound_at INIT (graph data)) tr
    ∧ uniform INIT (graph data) (all_paths st')
    ∧ same_frame (fresh_state junk data w) st'.
Proof.
  intros Hstart Hfuel.
  destruct (find_all_from_to_returns INIT mx_realloc_ok data fuel
              {| from := start; to := target |} (fresh_state junk data w))
    as (st' & Hrun & Hfr).
  { by apply fresh_state_ready. }
  { simpl. by rewrite unmarked_replicate. }
  destruct (find_all_from_to_observed_exists _ _ _ _ _ _ _ Hrun) as [tr Hobs].
  exists tr, st'. split; [done|]. split; [done|].
  apply (find_all_from_to_observed_well INIT mx_realloc_ok data fuel [] start target)
    in Hobs as (Hall & Hu & _ & _).
  - done.
  - apply fresh_state_tracks.
  - split; [apply NoDup_singleton|]. split; [by apply Forall_singleton|done].
  - done.
  - apply Forall_nil_2.
  - done.
Qed.

(** Where the weights are non-negative and no simple path weighs more than
    [INT_MAX], the sums taken in [int] are the sums. *)
Lemma sound_at_exact INIT g ps :
  (∀ u v, u < size g → v < size g → matrix_at g u v ≠ INIT → (0 ≤ matrix_at g u v)%Z) →
  (∀ p, simple INIT g p → (path_cost g p ≤ INT_MAX)%Z) →
  sound_at INIT g ps →
  exact_at g ps.1 ps.2 ∧ exactly_uniform g (all_paths ps.2).
Proof.
  intros Hnn Hfit ((_ & Hw & _) & Hs & Hu & _). split.
  - unfold exact_at. rewrite Hw. pose proof (Hfit _ Hs) as Hle.
    destruct Hs as (_ & Hlt & Hwalk). by apply (path_weight_exact INIT).
  - unfold exactly_uniform. eapply Forall_impl; [exact Hu|].
    intros sp [Hsp <-]. symmetry. pose proof (Hfit _ Hsp) as Hle.
    destruct Hsp as (_ & Hlt & Hwalk). by apply (path_weight_exact INIT).
Qed.

Lemma find_all_from_to_observed_head INIT mx_realloc_ok fuel data cords st tr st' :
  find_all_from_to_observed INIT mx_realloc_ok fuel data cords st = Some (tr, st') →
  head tr = Some (Entered (from cords), enter (from cords) st).
Proof.
  destruct fuel as [|fuel]; [done|]. simpl.
  destruct (if decide (from cords = to cords) then _ else _) as [[tr2 s2]|]; [|done].
  by intros [= <- <-].
Qed.

(** ** What a search does to the world *)

Section Progress.

Variable INIT : Z.
Variable mx_realloc_ok : nat → bool.

Lemma refused_between_same a : refused_between mx_realloc_ok a a = 0.
Proof. unfold refused_between. by rewrite Nat.sub_diag. Qed.

Lemma refused_between_split a b c :
  a ≤ b → b ≤ c →
  refused_between mx_realloc_ok a c
  = refused_between mx_realloc_ok a b + refused_between mx_realloc_ok b c.
Proof.
  intros Hab Hbc. unfold refused_between.
  replace (c - a) with ((b - a) + (c - b)) by lia.
  rewrite seq_app, filter_app, length_app.
  by replace (a + (b - a)) with b by lia.
Qed.

Lemma refused_between_next a :
  refused_between mx_realloc_ok a (S a) = if mx_realloc_ok a then 0 else 1.
Proof.
  unfold refused_between. replace (S a - a) with 1 by lia. simpl.
  rewrite filter_cons, filter_nil. destruct (mx_realloc_ok a); by case_decide.
Qed.

Lemma refused_between_served a b :
  (∀ n, mx_realloc_ok n = true) → refused_between mx_realloc_ok a b = 0.
Proof.
  intros Hok. unfold refused_between.
  induction (seq a (b - a)) as [|n l IH]; [done|].
  rewrite filter_cons. rewrite decide_False; [done|]. by rewrite Hok.
Qed.

Lemma only_progress_refl st : only_progress mx_realloc_ok st st.
Proof.
  unfold only_progress. rewrite refused_between_same. simpl.
  rewrite app_nil_r. repeat split; lia.
Qed.

Lemma only_progress_trans st1 st2 st3 :
  only_progress mx_realloc_ok st1 st2 → only_progress mx_realloc_ok st2 st3 →
  only_progress mx_realloc_ok st1 st3.
Proof.
  intros (Hm1 & Hd1 & Hc1 & He1) (Hm2 & Hd2 & Hc2 & He2).
  split; [lia|]. split; [congruence|]. split; [lia|].
  rewrite He2, He1, <- app_assoc, <- replicate_add.
  by rewrite <- (refused_between_split _ _ _ Hc1 Hc2).
Qed.

Lemma reached_destination_progress st :
  only_progress mx_realloc_ok st (reached_destination mx_realloc_ok st).
Proof.
  unfold only_progress, reached_destination, add_path.
  destruct (weight (path_info st) <? min_len (all_paths st))%Z eqn:Hlt; simpl.
  - rewrite Z.eqb_refl. apply Z.ltb_lt in Hlt.
    destruct (mx_realloc_ok (realloc_calls (world st))) eqn:Hok; simpl;
      rewrite refused_between_next, Hok; simpl; rewrite ?app_nil_r;
      (split; [lia|]); (split; [done|]); (split; [lia|done]).
  - destruct (weight (path_info st) =? min_len (all_paths st))%Z eqn:Heq; simpl.
    + destruct (mx_realloc_ok (realloc_calls (world st))) eqn:Hok; simpl;
        rewrite refused_between_next, Hok; simpl; rewrite ?app_nil_r;
        (split; [lia|]); (split; [done|]); (split; [lia|done]).
    + rewrite refused_between_same. simpl. rewrite app_nil_r.
      split; [lia|]. split; [done|]. split; [lia|done].
Qed.

Lemma explore_step_progress call cords data i st st' :
  (∀ c s s', call c s = Some s' → only_progress mx_realloc_ok s s') →
  explore_step INIT call cords data i st = Some st' →
  only_progress mx_realloc_ok st st'.
Proof.
  intros Hcall. unfold explore_step.
  destruct (may_descend INIT data (from cords) i st).
  - destruct (call _ _) as [st1|] eqn:Hc; [|done]. simpl. intros [= <-].
    apply Hcall in Hc. exact Hc.
  - intros [= <-]. apply only_progress_refl.
Qed.

Lemma for_each_progress body idx st st' :
  (∀ i s s', body i s = Some s' → only_progress mx_realloc_ok s s') →
  for_each body idx st = Some st' →
  only_progress mx_realloc_ok st st'.
Proof.
  intros Hbody. revert st. induction idx as [|i idx IH]; intros st; simpl.
  - intros [= <-]. apply only_progress_refl.
  - destruct (body i st) as [st1|] eqn:Hb; [|done]. simpl. intros Hrest.
    eapply only_progress_trans; [by eapply Hbody|by apply IH].
Qed.

Lemma find_all_from_to_progress fuel data cords st st' :
  find_all_from_to INIT mx_realloc_ok fuel data cords st = Some st' →
  only_progress mx_realloc_ok st st'.
Proof.
  revert cords st st'. induction fuel as [|fuel IH]; intros cords st st'; [done|].
  simpl. case_decide.
  - simpl. intros [= <-].
    exact (reached_destination_progress (enter (from cords) st)).
  - unfold explore_neighbors.
    destruct (for_each _ _ _) as [st2|] eqn:Hloop; [|done]. simpl. intros [= <-].
    apply for_each_progress in Hloop; [exact Hloop|].
    intros i s s'. apply explore_step_progress. intros c s0 s0'. apply IH.
Qed.

End Progress.

(** ** What a call stores, whatever the weights and the allocator *)

Section Within.

Variable INIT : Z.
Variable mx_realloc_ok : nat → bool.
Variable data : t_data.
Variable target : nat.

Local Abbreviation g := (graph data).

Lemma appended_same st st' : all_paths st' = all_paths st → appended st st' [].
Proof.
  intros E. unfold appended. rewrite E. split; [lia|].
  rewrite decide_True by done. simpl. by rewrite app_nil_r.
Qed.

Lemma appended_app st1 st2 st3 l1 l2 :
  appended st1 st2 l1 → appended st2 st3 l2 →
  ∃ l, l `sublist_of` l1 ++ l2 ∧ appended st1 st3 l
       ∧ (l1 = [] → l2 = [] → l = []).
Proof.
  intros [Hm1 Hp1] [Hm2 Hp2].
  destruct (decide (min_len (all_paths st3) = min_len (all_paths st2))) as [E2|N2].
  - exists (l1 ++ l2). split; [done|]. split; [|by intros -> ->].
    split; [lia|]. rewrite Hp2, Hp1, E2, fmap_app, app_assoc. done.
  - exists l2. split; [by apply sublist_inserts_l|]. split; [|done].
    split; [lia|]. rewrite Hp2. rewrite decide_False by lia. done.
Qed.

Lemma reached_destination_appended pre st :
  tracks g pre (path_info st) →
  well_counted (all_paths st) →
  ∃ l, l `sublist_of` [pre]
       ∧ appended st (reached_destination mx_realloc_ok st) l
       ∧ well_counted (all_paths (reached_destination mx_realloc_ok st)).
Proof.
  intros (_ & _ & Hk & Ht & _) Hc.
  assert (path_index (path_info st) ≤ length (path (path_info st))) as Hle.
  { rewrite Hk. rewrite <- Ht at 1. rewrite length_take. lia. }
  pose proof (reached_destination_well_counted mx_realloc_ok st Hc) as Hc'.
  unfold reached_destination in *.
  destruct (weight (path_info st) <? min_len (all_paths st))%Z eqn:Hlt.
  - apply Z.ltb_lt in Hlt. simpl in *. rewrite Z.eqb_refl in *.
    destruct (mx_realloc_ok (realloc_calls (world st))) eqn:Hok.
    + rewrite add_path_served in * by done. simpl in *.
      exists [pre]. split; [done|]. split; [|done]. split; simpl; [lia|].
      rewrite decide_False by lia. by rewrite Hk, Ht.
    + rewrite add_path_refused in * by done. simpl in *.
      exists []. split; [apply sublist_nil_l|]. split; [|done]. split; simpl; [lia|].
      by rewrite decide_False by lia.
  - destruct (weight (path_info st) =? min_len (all_paths st))%Z eqn:Heq.
    + destruct (mx_realloc_ok (realloc_calls (world st))) eqn:Hok.
      * rewrite add_path_served in * by done. simpl in *.
        exists [pre]. split; [done|]. split; [|done]. split; simpl; [lia|].
        rewrite decide_True by done. by rewrite Hk, Ht.
      * rewrite add_path_refused in * by done. simpl in *.
        exists []. split; [apply sublist_nil_l|]. split; [|done]. by apply appended_same.
    + simpl in *. exists []. split; [apply sublist_nil_l|]. split; [|done].
      by apply appended_same.
Qed.

Lemma explore_step_within fuel cur u i st st' :
  searches_within INIT mx_realloc_ok data target fuel →
  i < size g →
  tracks g (cur ++ [u]) (path_info st) →
  simple INIT g (cur ++ [u]) →
  in_int (weight (path_info st)) →
  well_counted (all_paths st) →
  explore_step INIT (λ c, find_all_from_to INIT mx_realloc_ok fuel data c)
    {| from := u; to := target |} data i st = Some st' →
  ∃ l,
    l `sublist_of` (if decide (matrix_at g u i ≠ INIT ∧ i ∉ cur ++ [u])
                    then all_simple_paths INIT g target fuel (cur ++ [u]) i else [])
    ∧ appended st st' l
    ∧ well_counted (all_paths st')
    ∧ same_frame st st'
    ∧ ((if decide (matrix_at g u i ≠ INIT ∧ i ∉ cur ++ [u])
        then all_simple_paths INIT g target fuel (cur ++ [u]) i else []) = [] →
       untouched st st').
Proof.
  intros IH Hi Htr Hs Hw Hc Hstep.
  assert (same_frame st st') as Hfr.
  { eapply (explore_step_frame INIT data _ _ i st st'); [|done| |done|exact Hstep].
    - intros c s s' Hr Hcall. by eapply find_all_from_to_frame.
    - destruct Htr as (-> & _). done. }
  revert Hstep. unfold explore_step. simpl.
  destruct (may_descend INIT data u i st) eqn:Hd.
  - apply may_descend_spec in Hd as (He & Hv & _).
    pose proof (tracks_lookup _ _ _ i Htr Hi) as Hvis.
    apply list_lookup_total_correct in Hvis. rewrite Hv in Hvis.
    destruct (decide (i ∈ cur ++ [u])) as [|Hnew]; [done|].
    rewrite decide_True by done.
    destruct (find_all_from_to _ _ _ _ _ _) as [s1|] eqn:Hcall; simpl; [|done].
    intros [= <-].
    apply (IH (cur ++ [u]) i) in Hcall as (l & Hsub & Happ & Hc1 & Hun);
      [|done|by apply simple_snoc|apply int_wrap_in_int|done].
    exists l. split; [done|]. split; [exact Happ|]. split; [done|]. split; [done|].
    exact Hun.
  - intros [= <-]. exists []. split; [apply sublist_nil_l|].
    split; [by apply appended_same|]. split; [done|]. split; [done|]. by intros _.
Qed.

Lemma for_each_within fuel cur u idx st st' :
  searches_within INIT mx_realloc_ok data target fuel →
  Forall (λ i, i < size g) idx →
  tracks g (cur ++ [u]) (path_info st) →
  simple INIT g (cur ++ [u]) →
  in_int (weight (path_info st)) →
  well_counted (all_paths st) →
  for_each (explore_step INIT (λ c, find_all_from_to INIT mx_realloc_ok fuel data c)
              {| from := u; to := target |} data) idx st = Some st' →
  ∃ l,
    l `sublist_of` (i ← idx;
                    if decide (matrix_at g u i ≠ INIT ∧ i ∉ cur ++ [u])
                    then all_simple_paths INIT g target fuel (cur ++ [u]) i else [])
    ∧ appended st st' l
    ∧ well_counted (all_paths st')
    ∧ ((i ← idx;
        if decide (matrix_at g u i ≠ INIT ∧ i ∉ cur ++ [u])
        then all_simple_paths INIT g target fuel (cur ++ [u]) i else []) = [] →
       untouched st st').
Proof.
  intros IH Hidx. revert st.
  induction Hidx as [|i idx Hi _ IHidx]; intros st Htr Hs Hw Hc.
  { intros [= <-]. exists []. split; [done|]. split; [by apply appended_same|]. done. }
  simpl. destruct (explore_step _ _ _ _ _ _) as [s1|] eqn:Hstep; simpl; [|done].
  intros Hrest.
  eapply explore_step_within in Hstep as (l1 & Hsub1 & Happ1 & Hc1 & Hfr & Hun1); [|done..].
  apply IHidx in Hrest as (l2 & Hsub2 & Happ2 & Hc2 & Hun2);
    [|by eapply tracks_same_frame|done|by destruct Hfr as (_ & _ & -> & _)|done].
  destruct (appended_app _ _ _ _ _ Happ1 Happ2) as (l & Hsub & Happ & _).
  exists l. split; [|split; [done|split; [done|]]].
  - etrans; [exact Hsub|]. by apply sublist_app.
  - intros [E1 E2]%app_eq_nil.
    destruct (Hun1 E1) as [Ha1 Hw1]. destruct (Hun2 E2) as [Ha2 Hw2].
    split; congruence.
Qed.

Lemma find_all_from_to_within fuel :
  searches_within INIT mx_realloc_ok data target fuel.
Proof.
  induction fuel as [|fuel IH]; intros cur u st st' Htr Hs Hw Hc; [done|].
  simpl. pose proof (tracks_enter _ _ _ _ _ Htr Hs) as Htr1.
  destruct (decide (u = target)) as [->|Hne].
  - simpl. intros [= <-].
    destruct (reached_destination_appended _ (enter target st) Htr1 Hc)
      as (l & Hsub & Happ & Hc').
    exists l. split; [done|]. split; [exact Happ|]. split; [exact Hc'|]. done.
  - destruct (explore_neighbors _ _ _ _ _) as [s2|] eqn:Hloop; simpl; [|done].
    intros [= <-]. unfold explore_neighbors in Hloop.
    eapply (for_each_within fuel cur u) in Hloop as (l & Hsub & Happ & Hc' & Hun);
      [|done|apply Forall_seq_lt|done|done|done|done].
    exists l. split; [done|]. split; [exact Happ|]. split; [exact Hc'|]. exact Hun.
Qed.

End Within.

(** A state that tracks the path being built is one in which the next call
    can be made, and fuel [size] is enough for it. *)
Lemma tracks_ready_in_int INIT data cur u st :
  tracks (graph data) cur (path_info st) →
  simple INIT (graph data) (cur ++ [u]) →
  in_int (weight (path_info st)) →
  ready data u st ∧ unmarked (visited (path_info st)) ≤ size (graph data).
Proof.
  intros (Hl & Hm & _) (Hnd & Hlt & _) Hw. split.
  - split; [lia|]. split; [|done].
    rewrite Forall_app, Forall_singleton in Hlt. destruct Hlt as [_ Hu].
    rewrite Hm by done. rewrite decide_False; [done|].
    apply NoDup_app in Hnd as (_ & Hnd & _). intros Hin.
    apply (Hnd u Hin). by apply list_elem_of_singleton.
  - rewrite <- Hl. apply unmarked_le_length.
Qed.

(** ** The order of the enumeration *)

Lemma lex_lt_diverge pre i j q q' :
  i < j → lex_lt (pre ++ i :: q) (pre ++ j :: q').
Proof.
  intros Hij. induction pre as [|x pre IH]; simpl; [by left|]. right. by split.
Qed.

Lemma StronglySorted_seq a n : StronglySorted lt (seq a n).
Proof.
  revert a. induction n as [|n IH]; intros a; simpl; constructor; [apply IH|].
  apply Forall_forall. intros x Hx%elem_of_seq. lia.
Qed.

Lemma StronglySorted_bind {A} (R : relation A) (f : nat → list A) idx :
  StronglySorted lt idx →
  (∀ i, StronglySorted R (f i)) →
  (∀ i j x y, i < j → x ∈ f i → y ∈ f j → R x y) →
  StronglySorted R (idx ≫= f).
Proof.
  intros Hidx Hf Hlt. induction Hidx as [|i idx _ IH Hi]; [constructor|].
  rewrite bind_cons. apply StronglySorted_app_2; [|apply Hf|apply IH].
  intros x y Hx (j & Hy & Hj)%list_elem_of_bind.
  rewrite Forall_forall in Hi. by apply (Hlt i j); [apply Hi|..].
Qed.

Lemma StronglySorted_sublist {A} (R : relation A) (l k : list A) :
  l `sublist_of` k → StronglySorted R k → StronglySorted R l.
Proof.
  induction 1 as [|x l k Hsub IH|x l k Hsub IH]; [done|..];
    intros [Hall Hk]%StronglySorted_cons.
  - apply StronglySorted_cons. split; [|by apply IH].
    rewrite Forall_forall in *. intros y Hy. apply Hall.
    by apply (elem_of_sublist l k).
  - by apply IH.
Qed.

Lemma all_simple_paths_sorted INIT g target fuel cur u :
  StronglySorted lex_lt (all_simple_paths INIT g target fuel cur u).
Proof.
  revert cur u. induction fuel as [|fuel IH]; intros cur u; simpl; [constructor|].
  destruct (decide (u = target)); [repeat constructor|].
  apply StronglySorted_bind.
  - apply StronglySorted_seq.
  - intros i. destruct (decide _); [apply IH|constructor].
  - intros i j p q Hij Hp Hq.
    destruct (decide _); [|by apply elem_of_nil in Hp].
    destruct (decide _); [|by apply elem_of_nil in Hq].
    apply all_simple_paths_prefix in Hp as [p' ->].
    apply all_simple_paths_prefix in Hq as [q' ->].
    rewrite <- !(app_assoc (cur ++ [u])). simpl. by apply lex_lt_diverge.
Qed.

Lemma vertices_stored (l : list (list nat)) : vertices <$> (stored <$> l) = l.
Proof. rewrite <- list_fmap_compose. apply list_fmap_id. Qed.

(** ** A search from a fresh state, whatever the weights and the allocator *)

Section FreshWithin.

Variable INIT : Z.
Variable mx_realloc_ok : nat → bool.
Variable junk : nat → nat.
Variable data : t_data.
Variable start target : nat.

Local Abbreviation g := (graph data).

Lemma search_from_fresh_within fuel w :
  start < size g → size g ≤ fuel →
  ∃ st' l,
    find_all_from_to INIT mx_realloc_ok fuel data {| from := start; to := target |}
      (fresh_state junk data w) = Some st'
    ∧ l `sublist_of` all_simple_paths INIT g target fuel [] start
    ∧ paths (all_paths st') = stored <$> l
    ∧ well_counted (all_paths st')
    ∧ uniform INIT g (all_paths st')
    ∧ only_progress mx_realloc_ok (fresh_state junk data w) st'
    ∧ (all_simple_paths INIT g target fuel [] start = [] →
       all_paths st' = create_paths ∧ world st' = w).
Proof.
  intros Hstart Hfuel.
  destruct (fresh_state_observed_well INIT mx_realloc_ok junk data start target fuel w
              Hstart Hfuel) as (_ & st' & _ & Hrun & _ & Hu & _).
  exists st'.
  destruct (find_all_from_to_within INIT mx_realloc_ok data target fuel [] start
              (fresh_state junk data w) st') as (l & Hsub & [_ Hp] & Hc & Hun).
  - apply fresh_state_tracks.
  - split; [apply NoDup_singleton|]. split; [by apply Forall_singleton|done].
  - simpl. unfold in_int, INT_MIN, INT_MAX. lia.
  - done.
  - done.
  - exists l. split; [done|]. split; [done|]. split.
    { rewrite Hp. simpl. by destruct (decide _). }
    split; [done|]. split; [done|]. split; [by eapply find_all_from_to_progress|].
    exact Hun.
Qed.

End FreshWithin.

(** ** The cells of the buffer above the index are never read *)

Section Junk.

Variable INIT : Z.
Variable mx_realloc_ok : nat → bool.

Lemma same_but_junk_sym st1 st2 : same_but_junk st1 st2 → same_but_junk st2 st1.
Proof.
  intros (Hv & Hk & Hw & Hl & Ht & Ha & Hwo).
  unfold same_but_junk. rewrite <- Hk. by rewrite Hv, Hw, Hl, Ht, Ha, Hwo.
Qed.

Lemma copy_loop_same (l1 l2 : list nat) n :
  take n l1 = take n l2 →
  (λ i, l1 !!! i) <$> seq 0 n = (λ i, l2 !!! i) <$> seq 0 n.
Proof.
  intros Ht. apply list_fmap_ext. intros k i [-> Hi]%lookup_seq. simpl.
  rewrite <- (lookup_total_take_lt l1 n k), <- (lookup_total_take_lt l2 n k) by done.
  by rewrite Ht.
Qed.

Lemma same_but_junk_enter u st1 st2 :
  same_but_junk st1 st2 → same_but_junk (enter u st1) (enter u st2).
Proof.
  intros (Hv & Hk & Hw & Hl & Ht & Ha & Hwo).
  unfold same_but_junk. simpl. rewrite !length_insert, <- Hk, Hv, Hw, Hl, Ha, Hwo.
  repeat split; try done.
  set (k := path_index (path_info st1)) in *.
  destruct (decide (k < length (path (path_info st1)))) as [Hlt|Hge].
  - rewrite !(take_S_r _ _ u) by (apply list_lookup_insert_eq; lia).
    by rewrite !take_insert_ge, Ht by lia.
  - rewrite !list_insert_ge by lia.
    rewrite !take_ge in Ht by lia. rewrite !take_ge by lia. done.
Qed.

Lemma same_but_junk_leave u st1 st2 :
  same_but_junk st1 st2 → same_but_junk (leave u st1) (leave u st2).
Proof.
  intros (Hv & Hk & Hw & Hl & Ht & Ha & Hwo).
  unfold same_but_junk. simpl. rewrite <- Hk, Hv, Hw, Hl, Ha, Hwo.
  repeat split; try done.
  set (k := path_index (path_info st1)) in *.
  apply (f_equal (take (pred k))) in Ht.
  rewrite !take_take in Ht. by replace (pred k `min` k) with (pred k) in Ht by lia.
Qed.

Lemma same_but_junk_set_weight z st1 st2 :
  same_but_junk st1 st2 → same_but_junk (set_weight z st1) (set_weight z st2).
Proof. intros (Hv & Hk & Hw & Hl & Ht & Ha & Hwo). by repeat split. Qed.

Lemma same_but_junk_reached_destination st1 st2 :
  same_but_junk st1 st2 →
  same_but_junk (reached_destination mx_realloc_ok st1)
                (reached_destination mx_realloc_ok st2).
Proof.
  intros (Hv & Hk & Hw & Hl & Ht & Ha & Hwo).
  unfold reached_destination, add_path.
  rewrite <- Hk, <- Hw, <- Ha, <- Hwo.
  pose proof (copy_loop_same (path (path_info st1)) (path (path_info st2)) _ Ht) as Hcopy.
  rewrite <- Hcopy.
  destruct (_ <? _)%Z; simpl.
  - rewrite Z.eqb_refl. destruct (mx_realloc_ok _); by repeat split.
  - destruct (_ =? _)%Z; [destruct (mx_realloc_ok _)|]; by repeat split.
Qed.

Lemma same_but_junk_may_descend data u i st1 st2 :
  same_but_junk st1 st2 →
  may_descend INIT data u i st1 = may_descend INIT data u i st2.
Proof.
  intros (Hv & Hk & Hw & Hl & Ht & Ha & Hwo). unfold may_descend.
  by rewrite Hv, Hw, Ha.
Qed.

Lemma explore_step_junk call cords data i st1 st2 st1' :
  (∀ c s1 s2 s1', same_but_junk s1 s2 → call c s1 = Some s1' →
     ∃ s2', call c s2 = Some s2' ∧ same_but_junk s1' s2') →
  same_but_junk st1 st2 →
  explore_step INIT call cords data i st1 = Some st1' →
  ∃ st2', explore_step INIT call cords data i st2 = Some st2'
          ∧ same_but_junk st1' st2'.
Proof.
  intros Hcall Hs. unfold explore_step.
  rewrite <- (same_but_junk_may_descend data _ i st1 st2 Hs).
  destruct (may_descend INIT data (from cords) i st1).
  - destruct (call _ _) as [s1|] eqn:Hc; [|done]. simpl. intros [= <-].
    pose proof Hs as (_ & _ & Hw & _).
    eapply Hcall in Hc as (s2 & Hc2 & Hs2).
    2:{ apply same_but_junk_set_weight. exact Hs. }
    rewrite <- Hw, Hc2. simpl. eexists. split; [done|].
    pose proof Hs2 as (_ & _ & Hw2 & _). rewrite <- Hw2.
    by apply same_but_junk_set_weight.
  - intros [= <-]. by exists st2.
Qed.

Lemma for_each_junk body idx st1 st2 st1' :
  (∀ i s1 s2 s1', same_but_junk s1 s2 → body i s1 = Some s1' →
     ∃ s2', body i s2 = Some s2' ∧ same_but_junk s1' s2') →
  same_but_junk st1 st2 →
  for_each body idx st1 = Some st1' →
  ∃ st2', for_each body idx st2 = Some st2' ∧ same_but_junk st1' st2'.
Proof.
  intros Hbody. revert st1 st2. induction idx as [|i idx IH]; intros st1 st2 Hs; simpl.
  - intros [= <-]. by exists st2.
  - destruct (body i st1) as [s1|] eqn:Hb; [|done]. simpl. intros Hrest.
    eapply Hbody in Hb as (s2 & -> & Hs2); [|exact Hs]. simpl. by eapply IH.
Qed.

Lemma find_all_from_to_junk fuel data cords st1 st2 st1' :
  same_but_junk st1 st2 →
  find_all_from_to INIT mx_realloc_ok fuel data cords st1 = Some st1' →
  ∃ st2', find_all_from_to INIT mx_realloc_ok fuel data cords st2 = Some st2'
          ∧ same_but_junk st1' st2'.
Proof.
  revert cords st1 st2 st1'.
  induction fuel as [|fuel IH]; intros cords st1 st2 st1' Hs; [done|].
  simpl. pose proof (same_but_junk_enter (from cords) _ _ Hs) as Hs1.
  case_decide.
  - simpl. intros [= <-]. eexists. split; [done|].
    by apply same_but_junk_leave, same_but_junk_reached_destination.
  - unfold explore_neighbors.
    destruct (for_each _ _ (enter _ st1)) as [s1|] eqn:Hloop; [|done].
    simpl. intros [= <-].
    eapply for_each_junk in Hloop as (s2 & -> & Hs2); [| |exact Hs1].
    + simpl. eexists. split; [done|]. by apply same_but_junk_leave.
    + intros i a b a' Hab. apply explore_step_junk; [|done].
      intros c x y x' Hxy. by apply IH.
Qed.

Lemma fresh_state_same_but_junk junk1 junk2 data w :
  same_but_junk (fresh_state junk1 data w) (fresh_state junk2 data w).
Proof.
  unfold same_but_junk. simpl. by rewrite !length_fmap.
Qed.

Lemma find_all_from_body_junk junk1 junk2 fuel data start copy w :
  find_all_from_body INIT mx_realloc_ok junk1 fuel data start copy w
  = find_all_from_body INIT mx_realloc_ok junk2 fuel data start copy w.
Proof.
  unfold find_all_from_body.
  change {| path_info := create_path_info junk1 (size (graph data));
            all_paths := create_paths; world := w |} with (fresh_state junk1 data w).
  change {| path_info := create_path_info junk2 (size (graph data));
            all_paths := create_paths; world := w |} with (fresh_state junk2 data w).
  destruct (find_all_from_to _ _ _ _ _ (fresh_state junk1 data w)) as [s1|] eqn:H1.
  - eapply find_all_from_to_junk in H1 as (s2 & -> & (_ & _ & _ & _ & _ & Ha & Hwo)).
    + simpl. by rewrite Ha, Hwo.
    + apply fresh_state_same_but_junk.
  - destruct (find_all_from_to _ _ _ _ _ (fresh_state junk2 data w)) as [s2|] eqn:H2; [|done].
    eapply find_all_from_to_junk in H2 as (s1 & H1' & _).
    2:{ apply (fresh_state_same_but_junk junk2 junk1). }
    congruence.
Qed.

Lemma find_all_from_loop_junk junk1 junk2 fuel data start copy w :
  find_all_from_loop INIT mx_realloc_ok junk1 fuel data start copy w
  = find_all_from_loop INIT mx_realloc_ok junk2 fuel data start copy w.
Proof.
  revert w. induction copy as [|c next IH]; intros w; simpl; [done|].
  rewrite (find_all_from_body_junk junk1 junk2).
  destruct (find_all_from_body _ _ _ _ _ _ _ _) as [w'|]; simpl; [apply IH|done].
Qed.

Lemma execute_pathfinding_loop_junk junk1 junk2 fuel data current w :
  execute_pathfinding_loop INIT mx_realloc_ok junk1 fuel data current w
  = execute_pathfinding_loop INIT mx_realloc_ok junk2 fuel data current w.
Proof.
  revert w. induction current as [|s next IH]; intros w; [done|].
  cbn [execute_pathfinding_loop find_all_from].
  rewrite (find_all_from_loop_junk junk1 junk2).
  destruct (find_all_from_loop _ _ _ _ _ _ _ _) as [w'|]; simpl; [apply IH|done].
Qed.

End Junk.

(** ** What a finished search has left, whatever the weights and the allocator *)

Section SoundResult.

Variable INIT : Z.
Variable mx_realloc_ok : nat → bool.
Variable junk : nat → nat.
Variable data : t_data.

Local Abbreviation g := (graph data).

Lemma search_from_fresh_sound start target fuel w :
  start < size g → size g ≤ fuel →
  ∃ st',
    find_all_from_to INIT mx_realloc_ok fuel data {| from := start; to := target |}
      (fresh_state junk data w) = Some st'
    ∧ sound_result INIT g start target (all_paths st')
    ∧ only_progress mx_realloc_ok (fresh_state junk data w) st'.
Proof.
  intros Hstart Hfuel.
  destruct (search_from_fresh_within INIT mx_realloc_ok junk data start target fuel w
              Hstart Hfuel) as (st' & l & Hrun & Hsub & Hp & Hc & Hu & Hprog & _).
  exists st'. split; [done|]. split; [|done].
  unfold sound_result, well_stored. rewrite Hp, vertices_stored.
  split; [|split; [|split; [|split; [|done]]]].
  - apply Forall_forall. intros p Hin. split.
    + apply (all_simple_paths_spec INIT g target fuel start p Hstart Hfuel).
      by apply (elem_of_sublist l).
    + unfold uniform in Hu. rewrite Hp, Forall_fmap, Forall_forall in Hu.
      by destruct (Hu p Hin).
  - eapply sublist_NoDup; [apply all_simple_paths_NoDup|exact Hsub].
  - eapply StronglySorted_sublist; [exact Hsub|]. apply all_simple_paths_sorted.
  - by apply Forall_fmap, Forall_forall.
Qed.

End SoundResult.

(** ** The list after a search with the requests served and no overflow *)

Section Lightest.

Variable INIT : Z.
Variable g : t_graph.
Variable start target fuel : nat.

Lemma foldl_record_lightest ap :
  start < size g → size g ≤ fuel →
  (∀ p, simple INIT g p → head p = Some start → (path_cost g p ≤ INT_MAX)%Z) →
  ap = foldl (record g) create_paths (all_simple_paths INIT g target fuel [] start) →
  well_counted ap →
  holds_lightest_paths INIT g start target ap.
Proof.
  intros Hstart Hfuel Hfit Hacc Hc. unfold holds_lightest_paths.
  set (l := all_simple_paths INIT g target fuel [] start) in *.
  destruct (foldl_record g create_paths l) as [Hm Hp].
  rewrite <- Hacc in Hm, Hp. simpl in Hm, Hp.
  set (m := least_cost g INT_MAX l) in *.
  assert (paths ap = stored <$> filter (λ p, path_cost g p = m) l) as Hpaths.
  { rewrite Hp. by destruct (m <? INT_MAX)%Z. }
  assert (∀ p, p ∈ l ↔ simple_path INIT g start target p) as Hl.
  { intros p. by apply all_simple_paths_spec. }
  assert (∀ p, p ∈ l → (path_cost g p ≤ INT_MAX)%Z) as Hle.
  { intros p (Hh & _ & Hs)%Hl. by apply Hfit. }
  assert (∀ p, p ∈ l → (m ≤ path_cost g p)%Z) as Hmin.
  { intros p Hp'. by apply least_cost_le. }
  assert (∀ q, q ∈ l → ∃ p, p ∈ l ∧ path_cost g p = m) as Hatt.
  { intros q Hq. destruct (least_cost_attained g INT_MAX l) as [Heq|(p & Hp' & Heq)].
    - exists q. split; [done|]. specialize (Hle q Hq). specialize (Hmin q Hq).
      fold m in Heq. lia.
    - exists p. by split. }
  assert (∀ p, p ∈ l ∧ path_cost g p = m ↔ lightest_path INIT g start target p) as Hlight.
  { intros p. split.
    - intros [Hp' Hcost]. split; [by apply Hl|].
      intros q Hq%Hl. rewrite Hcost. by apply Hmin.
    - intros [Hp' Hleast]. apply Hl in Hp'. split; [done|].
      destruct (Hatt p Hp') as (p' & Hp'' & Heq).
      specialize (Hmin p Hp'). apply Hl in Hp''. specialize (Hleast p' Hp''). lia. }
  assert (vertices <$> paths ap = filter (λ p, path_cost g p = m) l) as Hvs.
  { rewrite Hpaths. apply vertices_stored. }
  split; [|split; [|split; [|split; [|split; [|split]]]]].
  - intros p. rewrite Hvs, list_elem_of_filter, <- Hlight.
    split; intros [? ?]; by split.
  - intros p Hp'. apply Hlight in Hp' as [_ Hp']. by rewrite Hm.
  - intros q Hq%Hl. destruct (Hatt q Hq) as (p & Hp' & Heq).
    rewrite Hpaths. intros Hnil%fmap_nil_inv.
    assert (p ∈ filter (λ p, path_cost g p = m) l) as Hin by by apply list_elem_of_filter.
    rewrite Hnil in Hin. by apply elem_of_nil in Hin.
  - intros Hnone. destruct l as [|q l'] eqn:El.
    + rewrite Hpaths, Hm. done.
    + exfalso. apply (Hnone q), Hl. apply list_elem_of_here.
  - rewrite Hpaths. apply NoDup_fmap_2; [apply _|].
    apply NoDup_filter, all_simple_paths_NoDup.
  - rewrite Hpaths. apply Forall_fmap, Forall_forall. done.
  - done.
Qed.

End Lightest.

(** ** One result for each pair *)

Section Results.

Variable INIT : Z.
Variable mx_realloc_ok : nat → bool.
Variable junk : nat → nat.
Variable data : t_data.
Variable fuel : nat.

Local Abbreviation g := (graph data).

Lemma world_progress_refl w : world_progress mx_realloc_ok w w.
Proof.
  split; [done|]. rewrite refused_between_same. simpl. by rewrite app_nil_r.
Qed.

Lemma world_progress_trans w1 w2 w3 :
  world_progress mx_realloc_ok w1 w2 → world_progress mx_realloc_ok w2 w3 →
  world_progress mx_realloc_ok w1 w3.
Proof.
  intros [Hc1 He1] [Hc2 He2]. split; [lia|].
  rewrite He2, He1, <- app_assoc, <- replicate_add.
  by rewrite <- (refused_between_split _ _ _ _ Hc1 Hc2).
Qed.

Lemma later_pairs_elem_of (l : list t_node) s c :
  (s, c) ∈ later_pairs l → s ∈ l ∧ c ∈ l.
Proof.
  induction l as [|x l IH]; simpl; [by intros ?%elem_of_nil|].
  intros [(c' & [= -> ->] & Hc)%list_elem_of_fmap|Hin]%elem_of_app.
  - split; [apply list_elem_of_here|by apply elem_of_cons; right].
  - destruct (IH Hin). split; apply elem_of_cons; by right.
Qed.

Lemma search_each_results (Q : t_node → t_node → t_path_list → Prop) pairs w :
  (∀ s c w0, (s, c) ∈ pairs →
     ∃ st',
       find_all_from_to INIT mx_realloc_ok fuel data {| from := id s; to := id c |}
         (fresh_state junk data w0) = Some st'
       ∧ Q s c (all_paths st')
       ∧ only_progress mx_realloc_ok (fresh_state junk data w0) st') →
  ∃ w' results,
    search_each INIT mx_realloc_ok junk fuel data pairs w = Some w'
    ∧ displayed w' = displayed w ++ results
    ∧ Forall2 (λ sc ap, Q sc.1 sc.2 ap) pairs results
    ∧ world_progress mx_realloc_ok w w'.
Proof.
  revert w. induction pairs as [|[s c] pairs IH]; intros w Hall.
  { exists w, []. split; [done|]. split; [by rewrite app_nil_r|].
    split; [constructor|apply world_progress_refl]. }
  destruct (Hall s c w) as (st' & Hrun & HQ & (_ & Hd & Hc & He)); [apply list_elem_of_here|].
  destruct (IH (display_paths (all_paths st') (world st')))
    as (w' & results & Hrest & Hdis & Hres & Hprog).
  { intros s0 c0 w0 Hin. apply Hall. by apply elem_of_cons; right. }
  exists w', (all_paths st' :: results).
  split; [|split; [|split]].
  - simpl. unfold find_all_from_body.
    change {| path_info := create_path_info junk (size g);
              all_paths := create_paths; world := w |} with (fresh_state junk data w).
    rewrite Hrun. simpl. exact Hrest.
  - rewrite Hdis. simpl. rewrite Hd. simpl. by rewrite <- app_assoc.
  - by constructor.
  - eapply world_progress_trans; [|exact Hprog]. by split.
Qed.

End Results.

(** ** The two macros *)

Lemma RESET_PATH_INFO_enter u st :
  path_index (path_info st) < length (path (path_info st)) →
  RESET_PATH_INFO (path_info (enter u st)) = path_info (leave u (enter u st)).
Proof.
  intros Hk. unfold RESET_PATH_INFO. simpl.
  by rewrite list_lookup_total_insert_eq.
Qed.

Lemma leave_enter_frame u st :
  visited (path_info st) !! u = Some 0%Z →
  same_frame st (leave u (enter u st)).
Proof.
  intros Hu. unfold same_frame. simpl.
  rewrite list_insert_insert_eq, (list_insert_id _ _ _ Hu), length_insert.
  repeat split; try done.
  by rewrite take_insert_ge.
Qed.

Section Bound.

Variable INIT : Z.
Variable mx_realloc_ok : nat → bool.
Variable data : t_data.
Variable start target : nat.

Local Abbreviation g := (graph data).

Hypothesis weights_nonneg :
  ∀ u v, u < size g → v < size g → matrix_at g u v ≠ INIT → (0 ≤ matrix_at g u v)%Z.

Hypothesis weights_fit :
  ∀ p, simple INIT g p → head p = Some start → (path_cost g p ≤ INT_MAX)%Z.

Lemma reached_destination_keeps_min_len st :
  (min_len (all_paths st) ≤ weight (path_info st))%Z →
  min_len (all_paths (reached_destination mx_realloc_ok st)) = min_len (all_paths st).
Proof.
  intros Hle. unfold reached_destination, add_path.
  rewrite (proj2 (Z.ltb_ge _ _)) by done.
  destruct (_ =? _)%Z; [|done]. by destruct (mx_realloc_ok _).
Qed.

Lemma explore_step_keeps_min_len fuel cur u i st st' :
  keeps_min_len INIT mx_realloc_ok data start target fuel →
  i < size g →
  tracks g (cur ++ [u]) (path_info st) →
  weight (path_info st) = path_cost g (cur ++ [u]) →
  simple INIT g (cur ++ [u]) →
  head (cur ++ [u]) = Some start →
  (min_len (all_paths st) ≤ weight (path_info st))%Z →
  explore_step INIT (λ c, find_all_from_to INIT mx_realloc_ok fuel data c)
    {| from := u; to := target |} data i st = Some st' →
  min_len (all_paths st') = min_len (all_paths st) ∧ same_frame st st'.
Proof using weights_nonneg weights_fit.
  intros IH Hi Htr Hw Hs Hh Hle Hstep.
  assert (same_frame st st') as Hfr.
  { eapply (explore_step_frame INIT data _ _ i st st'); [|done| | |exact Hstep].
    - intros c s s' Hr Hcall. by eapply find_all_from_to_frame.
    - destruct Htr as (-> & _). done.
    - rewrite Hw. by apply (simple_cost_in_int INIT data start). }
  split; [|done]. revert Hstep. unfold explore_step. simpl.
  destruct (may_descend INIT data u i st) eqn:Hd; [|by intros [= <-]].
  apply may_descend_spec in Hd as (He & Hv & _).
  pose proof (tracks_lookup _ _ _ i Htr Hi) as Hvis.
  apply list_lookup_total_correct in Hvis. rewrite Hv in Hvis.
  destruct (decide (i ∈ cur ++ [u])) as [|Hnew]; [done|].
  assert (simple INIT g ((cur ++ [u]) ++ [i])) as Hs' by by apply simple_snoc.
  assert (head ((cur ++ [u]) ++ [i]) = Some start) as Hh'.
  { rewrite head_app. by rewrite Hh. }
  pose proof (simple_cost_in_int INIT data start weights_nonneg weights_fit _ Hs' Hh') as Hfit.
  assert (path_cost g ((cur ++ [u]) ++ [i]) = (weight (path_info st) + matrix_at g u i)%Z) as Hcost.
  { rewrite <- app_assoc. simpl. rewrite path_cost_snoc. by rewrite Hw. }
  rewrite Hcost in Hfit. rewrite int_add_exact by done.
  destruct (find_all_from_to _ _ _ _ _ _) as [s1|] eqn:Hcall; simpl; [|done].
  intros [= <-]. simpl.
  apply (IH (cur ++ [u]) i) in Hcall; simpl; [done|done|by rewrite <- Hcost|done|done|].
  assert (u < size g) as Hu.
  { destruct Hs as (_ & Hlt & _). apply Forall_app in Hlt as [_ Hlt].
    by rewrite Forall_singleton in Hlt. }
  pose proof (weights_nonneg u i Hu Hi He). lia.
Qed.

Lemma for_each_keeps_min_len fuel cur u idx st st' :
  keeps_min_len INIT mx_realloc_ok data start target fuel →
  Forall (λ i, i < size g) idx →
  tracks g (cur ++ [u]) (path_info st) →
  weight (path_info st) = path_cost g (cur ++ [u]) →
  simple INIT g (cur ++ [u]) →
  head (cur ++ [u]) = Some start →
  (min_len (all_paths st) ≤ weight (path_info st))%Z →
  for_each (explore_step INIT (λ c, find_all_from_to INIT mx_realloc_ok fuel data c)
              {| from := u; to := target |} data) idx st = Some st' →
  min_len (all_paths st') = min_len (all_paths st).
Proof using weights_nonneg weights_fit.
  intros IH Hidx. revert st.
  induction Hidx as [|i idx Hi _ IHidx]; intros st Htr Hw Hs Hh Hle.
  { by intros [= <-]. }
  simpl. destruct (explore_step _ _ _ _ _ _) as [s1|] eqn:Hstep; simpl; [|done].
  intros Hrest.
  eapply explore_step_keeps_min_len in Hstep as [Hm Hfr]; [|done..].
  pose proof Hfr as (_ & _ & Hw1 & _).
  rewrite <- Hm. apply IHidx; [by eapply tracks_same_frame|by rewrite Hw1|done|done| |done].
  rewrite Hm, Hw1. done.
Qed.

Lemma find_all_from_to_keeps_min_len fuel :
  keeps_min_len INIT mx_realloc_ok data start target fuel.
Proof using weights_nonneg weights_fit.
  induction fuel as [|fuel IH]; intros cur u st st' Htr Hw Hs Hh Hle; [done|].
  simpl. pose proof (tracks_enter _ _ _ _ _ Htr Hs) as Htr1.
  destruct (decide (u = target)) as [->|Hne].
  - simpl. intros [= <-]. simpl.
    by apply (reached_destination_keeps_min_len (enter target st)).
  - destruct (explore_neighbors _ _ _ _ _) as [s2|] eqn:Hloop; simpl; [|done].
    intros [= <-]. simpl. unfold explore_neighbors in Hloop.
    eapply (for_each_keeps_min_len fuel cur u) in Hloop;
      [done|done|apply Forall_seq_lt|done..].
Qed.

End Bound.

(** ** Every access is within its array *)

Section InRange.

Variable INIT : Z.
Variable mx_realloc_ok : nat → bool.
Variable data : t_data.

Local Abbreviation g := (graph data).

Lemma tracks_top cur u pi :
  tracks g (cur ++ [u]) pi →
  u < size g →
  visited pi !! u = Some 1%Z
  ∧ path_index pi = S (length cur)
  ∧ path pi !! length cur = Some u
  ∧ S (length cur) ≤ length (path pi).
Proof.
  intros (Hl & Hm & Hk & Ht & Hsz) Hu.
  rewrite length_app in Hk, Ht. simpl in Hk, Ht.
  replace (length cur + 1) with (S (length cur)) in Hk, Ht by lia.
  assert (path pi !! length cur = Some u) as Htop.
  { rewrite <- (lookup_take_lt _ (S (length cur))) by lia. rewrite Ht.
    by rewrite list_lookup_middle. }
  split; [|split; [done|split; [done|]]].
  - rewrite Hm by done. rewrite decide_True; [done|].
    apply elem_of_app. right. by apply list_elem_of_singleton.
  - apply lookup_lt_Some in Htop. lia.
Qed.

Lemma explore_step_observed_Some fuel cords i st tr st' :
  explore_step_observed INIT
    (λ c, find_all_from_to_observed INIT mx_realloc_ok fuel data c) cords data i st
  = Some (tr, st') →
  explore_step INIT (λ c, find_all_from_to INIT mx_realloc_ok fuel data c) cords data i st
  = Some st'.
Proof.
  intros H.
  rewrite <- (explore_step_observed_state INIT
                (λ c, find_all_from_to INIT mx_realloc_ok fuel data c)
                (λ c, find_all_from_to_observed INIT mx_realloc_ok fuel data c)).
  - by rewrite H.
  - intros c s. apply find_all_from_to_observed_state.
Qed.

Lemma explore_step_observed_in_range fuel cur u target i st tr st' :
  observed_in_range INIT mx_realloc_ok data fuel →
  i < size g →
  tracks g (cur ++ [u]) (path_info st) →
  simple INIT g (cur ++ [u]) →
  in_int (weight (path_info st)) →
  explore_step_observed INIT
    (λ c, find_all_from_to_observed INIT mx_realloc_ok fuel data c)
    {| from := u; to := target |} data i st = Some (tr, st') →
  Forall (λ ps, in_range_at ps.1 ps.2) tr ∧ same_frame st st'.
Proof.
  intros IH Hi Htr Hs Hw Hstep.
  pose proof Htr as (Hl & _).
  assert (same_frame st st') as Hfr.
  { apply explore_step_observed_Some in Hstep.
    eapply (explore_step_frame INIT data _ _ i st st'); [|done|lia|done|exact Hstep].
    intros c s s' Hr Hcall. by eapply find_all_from_to_frame. }
  split; [|done]. revert Hstep. unfold explore_step_observed. simpl.
  destruct (may_descend INIT data u i st) eqn:Hd.
  - apply may_descend_spec in Hd as (He & Hv & _).
    pose proof (tracks_lookup _ _ _ i Htr Hi) as Hvis.
    apply list_lookup_total_correct in Hvis. rewrite Hv in Hvis.
    destruct (decide (i ∈ cur ++ [u])) as [|Hnew]; [done|].
    destruct (find_all_from_to_observed _ _ _ _ _ _) as [[tr1 s1]|] eqn:Hcall; [|done].
    simpl. intros [= <- <-].
    apply (IH (cur ++ [u]) i target) in Hcall;
      [|done|by apply simple_snoc|apply int_wrap_in_int].
    apply Forall_cons. split; [simpl; lia|]. apply Forall_app. split; [done|].
    apply Forall_singleton. destruct Hfr as (Hv' & _). simpl in *. rewrite Hv'. lia.
  - intros [= <- <-]. apply Forall_singleton. simpl. lia.
Qed.

Lemma for_each_observed_in_range fuel cur u target idx st tr st' :
  observed_in_range INIT mx_realloc_ok data fuel →
  Forall (λ i, i < size g) idx →
  tracks g (cur ++ [u]) (path_info st) →
  simple INIT g (cur ++ [u]) →
  in_int (weight (path_info st)) →
  for_each_observed
    (explore_step_observed INIT
       (λ c, find_all_from_to_observed INIT mx_realloc_ok fuel data c)
       {| from := u; to := target |} data) idx st = Some (tr, st') →
  Forall (λ ps, in_range_at ps.1 ps.2) tr ∧ same_frame st st'.
Proof.
  intros IH Hidx. revert st tr.
  induction Hidx as [|i idx Hi _ IHidx]; intros st tr Htr Hs Hw.
  { intros [= <- <-]. split; [apply Forall_nil_2|apply same_frame_refl]. }
  simpl. destruct (explore_step_observed _ _ _ _ _ _) as [[tr1 s1]|] eqn:Hstep; [|done].
  simpl. destruct (for_each_observed _ _ _) as [[tr2 s2]|] eqn:Hrest; [|done].
  simpl. intros [= <- <-].
  eapply explore_step_observed_in_range in Hstep as (Hall1 & Hfr1); try done.
  apply IHidx in Hrest as (Hall2 & Hfr2); try done.
  - split; [by apply Forall_app|]. by eapply same_frame_trans.
  - by apply (tracks_same_frame data _ st).
  - destruct Hfr1 as (_ & _ & -> & _). done.
Qed.

Lemma find_all_from_to_observed_in_range fuel :
  observed_in_range INIT mx_realloc_ok data fuel.
Proof.
  induction fuel as [|fuel IH]; intros cur u target st tr st' Htr Hs Hw; [done|].
  simpl.
  pose proof (tracks_enter _ _ _ _ _ Htr Hs) as Htr1.
  assert (u < size g) as Hu.
  { destruct Hs as (_ & Hlt & _). apply Forall_app in Hlt as [_ Hlt].
    by rewrite Forall_singleton in Hlt. }
  assert (in_range_at (Entered u) (enter u st)) as Hent.
  { destruct (tracks_top _ _ _ Htr1 Hu) as (Hv & Hk & Htop & _).
    unfold in_range_at. rewrite Hk. simpl. split; [done|]. split; [lia|done]. }
  assert (∀ s2, same_frame (enter u st) s2 →
                in_range_at (Left u (path_info st)) (leave u s2)) as Hleft.
  { intros s2 Hfr2.
    pose proof (tracks_same_frame data _ _ _ Hfr2 Htr1) as Htr2.
    destruct (tracks_top _ _ _ Htr2 Hu) as (Hv & Hk & Htop & _).
    unfold in_range_at. simpl. rewrite Hk. simpl. split; [|done].
    apply list_lookup_insert_eq. by apply lookup_lt_Some in Hv. }
  destruct (decide (u = target)) as [->|Hne]; simpl.
  - intros [= <- <-].
    apply Forall_cons. split; [done|]. apply Forall_cons. split.
    + unfold in_range_at. simpl. rewrite reached_destination_info.
      destruct (tracks_top _ _ _ Htr1 Hu) as (_ & Hk & _ & Hlen). by rewrite Hk.
    + apply Forall_singleton. apply Hleft.
      unfold same_frame. by rewrite reached_destination_info.
  - destruct (for_each_observed _ _ _) as [[tr2 s2]|] eqn:Hloop; [|done].
    simpl. intros [= <- <-].
    eapply (for_each_observed_in_range fuel cur u) in Hloop as (Hall & Hfr);
      [|done|apply Forall_seq_lt|done|done|done].
    apply Forall_cons. split; [done|].
    apply Forall_app. split; [done|]. apply Forall_singleton. by apply Hleft.
Qed.

End InRange.

(** * The claims *)

(** A statement about the entries of a concrete matrix of four rows and
    columns, settled entry by entry. *)
Ltac each_entry_of_4 u v :=
  do 4 (destruct u as [|u];
        [do 4 (destruct v as [|v]; [vm_compute; congruence|]); lia|]);
  lia.

(** ** C1: the result of a search *)

(** Weights that are small against the number of vertices cannot overflow. *)
Lemma small_weights_fit INIT g (bound : Z) :
  (∀ u v, u < size g → v < size g → matrix_at g u v ≠ INIT → (matrix_at g u v ≤ bound)%Z) →
  (0 ≤ bound)%Z →
  (bound * Z.of_nat (size g) ≤ INT_MAX)%Z →
  ∀ p, simple INIT g p → (path_cost g p ≤ INT_MAX)%Z.
Proof.
  intros Hb H0 Hsz p Hs. pose proof (simple_length _ _ _ Hs) as Hlen.
  destruct Hs as (_ & Hlt & Hw).
  assert (path_cost g p ≤ bound * Z.of_nat (length p))%Z; [|nia].
  clear Hlen. induction p as [|x p IH]; [simpl; lia|].
  destruct p as [|y p]; [simpl; lia|].
  destruct Hw as [He Hw]. apply Forall_cons in Hlt as [Hx Hlt].
  pose proof Hlt as [Hy _]%Forall_cons.
  specialize (IH Hlt Hw). specialize (Hb x y Hx Hy He).
  change (matrix_at g x y + path_cost g (y :: p) ≤ bound * Z.of_nat (S (length (y :: p))))%Z.
  lia.
Qed.

(** C1 (as amended): for a graph with non-negative weights in which no simple
    path from [start] weighs more than [INT_MAX], and with every [mx_realloc]
    request served, a search from a fresh state returns, and the list then
    holds exactly the lightest simple paths from [start] to [target], each
    once, with [min_len] their weight; if there is no simple path the list is
    empty and [min_len] is still [INT_MAX]. *)
Theorem find_all_from_to_lightest_paths
    (INIT : Z) (mx_realloc_ok : nat → bool) (junk : nat → nat) (data : t_data)
    (start target fuel : nat) (w : t_world) :
  start < size (graph data) →
  size (graph data) ≤ fuel →
  (∀ n, mx_realloc_ok n = true) →
  (∀ u v, u < size (graph data) → v < size (graph data) →
          matrix_at (graph data) u v ≠ INIT → (0 ≤ matrix_at (graph data) u v)%Z) →
  (∀ p, simple INIT (graph data) p → head p = Some start →
        (path_cost (graph data) p ≤ INT_MAX)%Z) →
  ∃ st',
    find_all_from_to INIT mx_realloc_ok fuel data {| from := start; to := target |}
      (fresh_state junk data w) = Some st'
    ∧ holds_lightest_paths INIT (graph data) start target (all_paths st').
Proof.
  intros Hstart Hfuel Hok Hnn Hfit.
  destruct (search_from_fresh INIT mx_realloc_ok junk data start target fuel w
              Hstart Hfuel Hok Hnn Hfit) as (st' & Hrun & Hacc & Hc).
  exists st'. split; [done|]. unfold holds_lightest_paths.
  set (g := graph data) in *.
  set (l := all_simple_paths INIT g target fuel [] start) in *.
  destruct (foldl_record g create_paths l) as [Hm Hp].
  rewrite <- Hacc in Hm, Hp. simpl in Hm, Hp.
  set (m := least_cost g INT_MAX l) in *.
  assert (paths (all_paths st') = stored <$> filter (λ p, path_cost g p = m) l) as Hpaths.
  { rewrite Hp. by destruct (m <? INT_MAX)%Z. }
  assert (∀ p, p ∈ l ↔ simple_path INIT g start target p) as Hl.
  { intros p. by apply all_simple_paths_spec. }
  assert (∀ p, p ∈ l → (path_cost g p ≤ INT_MAX)%Z) as Hle.
  { intros p (Hh & _ & Hs)%Hl. by apply Hfit. }
  assert (∀ p, p ∈ l → (m ≤ path_cost g p)%Z) as Hmin.
  { intros p Hp'. by apply least_cost_le. }
  assert (∀ q, q ∈ l → ∃ p, p ∈ l ∧ path_cost g p = m) as Hatt.
  { intros q Hq. destruct (least_cost_attained g INT_MAX l) as [Heq|(p & Hp' & Heq)].
    - exists q. split; [done|]. specialize (Hle q Hq). specialize (Hmin q Hq).
      fold m in Heq. lia.
    - exists p. by split. }
  assert (∀ p, p ∈ l ∧ path_cost g p = m ↔ lightest_path INIT g start target p) as Hlight.
  { intros p. split.
    - intros [Hp' Hcost]. split; [by apply Hl|].
      intros q Hq%Hl. rewrite Hcost. by apply Hmin.
    - intros [Hp' Hleast]. apply Hl in Hp'. split; [done|].
      destruct (Hatt p Hp') as (p' & Hp'' & Heq).
      specialize (Hmin p Hp'). apply Hl in Hp''. specialize (Hleast p' Hp''). lia. }
  assert (vertices <$> paths (all_paths st') = filter (λ p, path_cost g p = m) l) as Hvs.
  { rewrite Hpaths, <- list_fmap_compose. apply list_fmap_id. }
  split; [|split; [|split; [|split; [|split; [|split]]]]].
  - intros p. rewrite Hvs, list_elem_of_filter, <- Hlight. tauto.
  - intros p Hp'. apply Hlight in Hp' as [_ Hp']. by rewrite Hm.
  - intros q Hq%Hl. destruct (Hatt q Hq) as (p & Hp' & Heq).
    rewrite Hpaths. intros Hnil%fmap_nil_inv.
    assert (p ∈ filter (λ p, path_cost g p = m) l) as Hin by by apply list_elem_of_filter.
    rewrite Hnil in Hin. by apply elem_of_nil in Hin.
  - intros Hnone. destruct l as [|q l'] eqn:El.
    + rewrite Hpaths, Hm. done.
    + exfalso. apply (Hnone q), Hl. apply list_elem_of_here.
  - rewrite Hpaths. apply NoDup_fmap_2; [apply _|].
    apply NoDup_filter, all_simple_paths_NoDup.
  - rewrite Hpaths. apply Forall_fmap, Forall_forall. done.
  - done.
Qed.

Lemma diamond_nonneg u v :
  u < 4 → v < 4 → matrix_at (graph (diamond (-1))) u v ≠ (-1)%Z →
  (0 ≤ matrix_at (graph (diamond (-1))) u v)%Z.
Proof.
  intros Hu Hv. each_entry_of_4 u v.
Qed.

Lemma diamond_small u v :
  u < 4 → v < 4 → matrix_at (graph (diamond (-1))) u v ≠ (-1)%Z →
  (matrix_at (graph (diamond (-1))) u v ≤ 5)%Z.
Proof.
  intros Hu Hv. each_entry_of_4 u v.
Qed.

Lemma find_all_from_to_lightest_paths_witness :
  ∃ st',
    find_all_from_to (-1) always_served 4 (diamond (-1)) {| from := 0; to := 3 |}
      (fresh_state no_junk (diamond (-1)) world0) = Some st'
    ∧ holds_lightest_paths (-1) (graph (diamond (-1))) 0 3 (all_paths st').
Proof.
  apply find_all_from_to_lightest_paths.
  - simpl. lia.
  - simpl. lia.
  - reflexivity.
  - apply diamond_nonneg.
  - intros p Hp _. apply (small_weights_fit (-1) (graph (diamond (-1))) 5).
    + apply diamond_small.
    + lia.
    + vm_compute. congruence.
    + exact Hp.
Defined.

(** On [heavy] the weights are non-negative, yet the search leaves the path
    0-1-3 of weight 2^31 + 100 in the list with [min_len] below zero: the sum
    left [int].  The edge 0-3 is a simple path of weight 7, and even among the
    sums taken in [int] that of 0-2-3 is smaller than [min_len]. *)
Lemma heavy_weights_not_lightest :
  (∀ u v, u < 4 → v < 4 → matrix_at (graph (heavy (-1))) u v ≠ (-1)%Z →
          (0 ≤ matrix_at (graph (heavy (-1))) u v)%Z)
  ∧ ∃ st',
      find_all_from_to (-1) always_served 4 (heavy (-1)) {| from := 0; to := 3 |}
        (fresh_state no_junk (heavy (-1)) world0) = Some st'
      ∧ vertices <$> paths (all_paths st') = [[0; 1; 3]]
      ∧ min_len (all_paths st') = (-2147483548)%Z
      ∧ path_cost (graph (heavy (-1))) [0; 1; 3] = 2147483748%Z
      ∧ simple_path (-1) (graph (heavy (-1))) 0 3 [0; 3]
      ∧ path_cost (graph (heavy (-1))) [0; 3] = 7%Z
      ∧ path_weight (graph (heavy (-1))) [0; 2; 3] = (-2147483645)%Z
      ∧ ¬ holds_lightest_paths (-1) (graph (heavy (-1))) 0 3 (all_paths st').
Proof.
  split.
  { intros u v Hu Hv. each_entry_of_4 u v. }
  assert (simple_path (-1) (graph (heavy (-1))) 0 3 [0; 3]) as Hdirect.
  { split; [reflexivity|]. split; [reflexivity|]. split; [|split].
    - apply NoDup_ListNoDup. repeat constructor; simpl; intros H; intuition lia.
    - repeat constructor.
    - simpl. unfold matrix_at. simpl. split; [discriminate|done]. }
  eexists. split; [vm_compute; reflexivity|].
  split; [reflexivity|]. split; [reflexivity|]. split; [reflexivity|].
  split; [exact Hdirect|]. split; [reflexivity|]. split; [reflexivity|].
  intros (Hset & _).
  assert ([0; 1; 3] ∈ vertices <$> [stored [0; 1; 3]]) as Hin by apply list_elem_of_here.
  apply Hset in Hin as [_ Hleast]. specialize (Hleast [0; 3] Hdirect).
  vm_compute in Hleast. by apply Hleast.
Qed.

(** The same happens whichever of -1, 0, [INT_MAX] and [INT_MIN] marks the
    absent edges. *)
Lemma heavy_weights_any_marker :
  Forall (λ x, ∃ st',
            find_all_from_to x always_served 4 (heavy x) {| from := 0; to := 3 |}
              (fresh_state no_junk (heavy x) world0) = Some st'
            ∧ vertices <$> paths (all_paths st') = [[0; 1; 3]]
            ∧ min_len (all_paths st') = (-2147483548)%Z)
    [(-1)%Z; 0%Z; INT_MAX; INT_MIN].
Proof.
  repeat constructor; eexists; (split; [vm_compute; reflexivity|]); split; reflexivity.
Qed.

(** ** C2: the three cases of recording *)

(** C2: [reached_destination] acts by three cases on the running weight
    against [min_len].  Lighter: the list becomes the copy of the candidate
    alone and [min_len] the weight.  Equal: the copy is appended.  Heavier:
    nothing changes.  The copy is a value of its own: popping the last vertex
    and pushing another over it afterwards does not touch the list.  (The
    request for the new cell is taken to be served; C10 covers the other
    case.) *)
Theorem reached_destination_three_cases (mx_realloc_ok : nat → bool) (st : state) :
  well_counted (all_paths st) →
  path_index (path_info st) ≤ length (path (path_info st)) →
  mx_realloc_ok (realloc_calls (world st)) = true →
  let w := weight (path_info st) in
  let candidate := take (path_index (path_info st)) (path (path_info st)) in
  let st' := reached_destination mx_realloc_ok st in
  ((w < min_len (all_paths st))%Z →
     all_paths st' = {| paths := [stored candidate]; count := 1; min_len := w |})
  ∧ (w = min_len (all_paths st) →
     all_paths st'
     = {| paths := paths (all_paths st) ++ [stored candidate];
          count := S (count (all_paths st));
          min_len := min_len (all_paths st) |})
  ∧ ((w > min_len (all_paths st))%Z → st' = st)
  ∧ path_info st' = path_info st
  ∧ ∀ u v, all_paths (enter v (leave u st')) = all_paths st'.
Proof.
  intros Hc Hlen Hok w candidate st'. subst st'.
  split; [|split; [|split; [|split; [apply reached_destination_info|done]]]].
  - intros Hlt. unfold reached_destination.
    rewrite (proj2 (Z.ltb_lt _ _)) by done. simpl. rewrite Z.eqb_refl.
    by rewrite add_path_served.
  - intros Heq. unfold reached_destination.
    rewrite (proj2 (Z.ltb_ge _ _)) by (fold w; lia).
    rewrite (proj2 (Z.eqb_eq _ _)) by done.
    by rewrite add_path_served.
  - intros Hgt. unfold reached_destination.
    rewrite (proj2 (Z.ltb_ge _ _)) by (fold w; lia).
    rewrite (proj2 (Z.eqb_neq _ _)) by (fold w; lia).
    by destruct st.
Qed.

Lemma reached_destination_three_cases_witness :
  let st := {| path_info := {| visited := [1; 0; 1]%Z; path := [0; 2; 7];
                               path_index := 2; weight := 4 |};
               all_paths := {| paths := [stored [0; 1; 2]]; count := 1; min_len := 4 |};
               world := world0 |} in
  well_counted (all_paths st)
  ∧ path_index (path_info st) ≤ length (path (path_info st))
  ∧ always_served (realloc_calls (world st)) = true
  ∧ all_paths (reached_destination always_served st)
    = {| paths := [stored [0; 1; 2]; stored [0; 2]]; count := 2; min_len := 4 |}.
Proof.
  intros st.
  assert (well_counted (all_paths st)) as Hc by reflexivity.
  assert (path_index (path_info st) ≤ length (path (path_info st))) as Hlen
    by (simpl; lia).
  assert (always_served (realloc_calls (world st)) = true) as Hok by reflexivity.
  split; [exact Hc|]. split; [exact Hlen|]. split; [exact Hok|].
  exact (proj1 (proj2 (reached_destination_three_cases always_served st Hc Hlen Hok))
           eq_refl).
Defined.

(** ** C3: marks, weight and backtracking *)

(** C3 (as amended): at every program point a search from a fresh state
    passes, nested calls included, [visited[v]] is 1 exactly when [v] is
    among [path[0..path_index)] and 0 otherwise, these entries form a simple
    path of the graph, and [weight] is the sum of the edge weights along
    them, taken in [int] as the program takes it; while control is between line 125 and
    line 128 the edge to the vertex about to be pushed or just popped is
    counted too.  Where the weights are non-negative and no simple path weighs
    more than [INT_MAX] this is the sum as a mathematical integer.  At every
    return, whether the target was reached or the neighbours were exhausted,
    [visited], [path_index] and [weight] are what the call found ([Left]
    points). *)
Theorem backtracking_keeps_marks_and_weight (INIT : Z) (mx_realloc_ok : nat → bool)
    (junk : nat → nat) (data : t_data) (start target fuel : nat) (w : t_world) :
  start < size (graph data) →
  size (graph data) ≤ fuel →
  ∃ tr st',
    find_all_from_to_observed INIT mx_realloc_ok fuel data
      {| from := start; to := target |} (fresh_state junk data w) = Some (tr, st')
    ∧ find_all_from_to INIT mx_realloc_ok fuel data
        {| from := start; to := target |} (fresh_state junk data w) = Some st'
    ∧ Forall (λ ps, agrees_at (graph data) ps.1 ps.2
                    ∧ simple_at INIT (graph data) ps.1 ps.2) tr
    ∧ ((∀ u v, u < size (graph data) → v < size (graph data) →
               matrix_at (graph data) u v ≠ INIT → (0 ≤ matrix_at (graph data) u v)%Z) →
       (∀ p, simple INIT (graph data) p → (path_cost (graph data) p ≤ INT_MAX)%Z) →
       Forall (λ ps, exact_at (graph data) ps.1 ps.2) tr)
    ∧ visited (path_info st') = visited (path_info (fresh_state junk data w))
    ∧ path_index (path_info st') = 0
    ∧ weight (path_info st') = 0%Z.
Proof.
  intros Hstart Hfuel.
  destruct (fresh_state_observed_well INIT mx_realloc_ok junk data start target fuel w
              Hstart Hfuel) as (tr & st' & Hobs & Hrun & Hall & _ & Hfr).
  exists tr, st'. split; [done|]. split; [done|]. split; [|split].
  - eapply Forall_impl; [exact Hall|]. by intros ps (? & ? & _).
  - intros Hnn Hfit. eapply Forall_impl; [exact Hall|].
    intros ps Hps. by apply (sound_at_exact INIT (graph data) ps Hnn Hfit).
  - by destruct Hfr as (-> & -> & -> & _).
Qed.

Lemma backtracking_keeps_marks_and_weight_witness :
  0 < size (graph (diamond (-1)))
  ∧ size (graph (diamond (-1))) ≤ 4
  ∧ ∃ tr st',
      find_all_from_to_observed (-1) always_served 4 (diamond (-1))
        {| from := 0; to := 3 |} (fresh_state no_junk (diamond (-1)) world0) = Some (tr, st')
      ∧ Forall (λ ps, agrees_at (graph (diamond (-1))) ps.1 ps.2
                      ∧ simple_at (-1) (graph (diamond (-1))) ps.1 ps.2) tr.
Proof.
  assert (0 < size (graph (diamond (-1)))) as H1 by (simpl; lia).
  assert (size (graph (diamond (-1))) ≤ 4) as H2 by (simpl; lia).
  split; [exact H1|]. split; [exact H2|].
  destruct (backtracking_keeps_marks_and_weight (-1) always_served no_junk (diamond (-1))
              0 3 4 world0 H1 H2) as (tr & st' & Hobs & _ & Hall & _).
  exists tr, st'. split; [exact Hobs|exact Hall].
Defined.

(** The claim of C3 as it stands fails in two ways.  On the diamond, at the
    point between line 125 and the call on 1, the buffer holds the path 0 of
    weight 0 while [weight] is already 1.  On [heavy], when 3 is entered
    through 1 the buffer holds 0-1-3, whose edges sum to 2^31 + 100, while
    [weight] is 2^31 + 100 - 2^32: the sum left [int]. *)
Lemma weight_is_not_the_sum_of_the_buffer :
  (∃ tr st' s,
     find_all_from_to_observed (-1) always_served 4 (diamond (-1))
       {| from := 0; to := 3 |} (fresh_state no_junk (diamond (-1)) world0) = Some (tr, st')
     ∧ tr !! 2 = Some (Descending 0 1, s)
     ∧ take (path_index (path_info s)) (path (path_info s)) = [0]
     ∧ path_cost (graph (diamond (-1))) [0] = 0%Z
     ∧ weight (path_info s) = 1%Z
     ∧ ¬ Forall (λ ps, weight (path_info ps.2)
                       = path_cost (graph (diamond (-1)))
                           (take (path_index (path_info ps.2)) (path (path_info ps.2)))) tr)
  ∧ (∃ tr st' s,
       find_all_from_to_observed (-1) always_served 4 (heavy (-1))
         {| from := 0; to := 3 |} (fresh_state no_junk (heavy (-1)) world0) = Some (tr, st')
       ∧ tr !! 8 = Some (Entered 3, s)
       ∧ take (path_index (path_info s)) (path (path_info s)) = [0; 1; 3]
       ∧ path_cost (graph (heavy (-1))) [0; 1; 3] = 2147483748%Z
       ∧ weight (path_info s) = (-2147483548)%Z
       ∧ ¬ Forall (λ ps, exact_at (graph (heavy (-1))) ps.1 ps.2) tr).
Proof.
  split.
  - eexists _, _, _. split; [vm_compute; reflexivity|].
    split; [reflexivity|]. split; [reflexivity|]. split; [reflexivity|].
    split; [reflexivity|].
    intros Hall. pose proof (Forall_lookup_1 _ _ 2 _ Hall eq_refl) as Hpt.
    vm_compute in Hpt. discriminate.
  - eexists _, _, _. split; [vm_compute; reflexivity|].
    split; [reflexivity|]. split; [reflexivity|]. split; [reflexivity|].
    split; [reflexivity|].
    intros Hall. pose proof (Forall_lookup_1 _ _ 8 _ Hall eq_refl) as Hpt.
    vm_compute in Hpt. discriminate.
Qed.

(** The overflow is met whichever of -1, 0, [INT_MAX] and [INT_MIN] marks the
    absent edges. *)
Lemma weight_is_not_the_sum_any_marker :
  Forall (λ x, ∃ tr st' s,
            find_all_from_to_observed x always_served 4 (heavy x)
              {| from := 0; to := 3 |} (fresh_state no_junk (heavy x) world0) = Some (tr, st')
            ∧ tr !! 8 = Some (Entered 3, s)
            ∧ take (path_index (path_info s)) (path (path_info s)) = [0; 1; 3]
            ∧ weight (path_info s) = (-2147483548)%Z)
    [(-1)%Z; 0%Z; INT_MAX; INT_MIN].
Proof.
  repeat constructor; eexists _, _, _; (split; [vm_compute; reflexivity|]);
    (split; [reflexivity|]); split; reflexivity.
Qed.

(** ** C4: the test of the neighbour loop *)

(** C4: one iteration of the loop of the call on [u], for a neighbour [i],
    from any state in which the code can be (marks covering the graph, fuel
    for the vertices still unmarked), returns; and the search goes into [i]
    exactly when the entry [(u, i)] is not [INIT], [i] is not marked, and the
    running weight plus the edge weight is at most [min_len] (at most, not
    below), which always holds while [min_len] is [INT_MAX].  When it does,
    [find_all_from_to] is called on [i] with the same target in the state
    whose weight is the running weight plus the edge weight and which is
    otherwise unchanged, so that on entry [i] is marked and pushed with that
    weight; what the call leaves in the list and the world is what the
    iteration leaves, and the edge weight is taken off the weight the call
    gives back, which makes the running weight what it was.  When it does
    not, nothing changes. *)
Theorem explore_step_descends_exactly_when (INIT : Z) (mx_realloc_ok : nat → bool)
    (data : t_data) (fuel u target i : nat) (st : state) :
  i < size (graph data) →
  size (graph data) ≤ length (visited (path_info st)) →
  in_int (weight (path_info st)) →
  unmarked (visited (path_info st)) ≤ fuel →
  let edge := matrix_at (graph data) u i in
  let running := weight (path_info st) in
  let test := edge ≠ INIT
              ∧ visited (path_info st) !!! i = 0%Z
              ∧ (int_add running edge ≤ min_len (all_paths st))%Z in
  ∃ tr st',
    explore_step_observed INIT
      (λ c, find_all_from_to_observed INIT mx_realloc_ok fuel data c)
      {| from := u; to := target |} data i st = Some (tr, st')
    ∧ explore_step INIT (λ c, find_all_from_to INIT mx_realloc_ok fuel data c)
        {| from := u; to := target |} data i st = Some st'
    ∧ ((∃ s, (Entered i, s) ∈ tr) ↔ test)
    ∧ (test →
         ∃ s_in s_out,
           tr !! 1 = Some (Entered i, s_in)
           ∧ visited (path_info s_in) = <[i := 1%Z]> (visited (path_info st))
           ∧ path (path_info s_in)
             = <[path_index (path_info st) := i]> (path (path_info st))
           ∧ path_index (path_info s_in) = S (path_index (path_info st))
           ∧ weight (path_info s_in) = int_add running edge
           ∧ all_paths s_in = all_paths st
           ∧ world s_in = world st
           ∧ find_all_from_to INIT mx_realloc_ok fuel data {| from := i; to := target |}
               {| path_info := {| visited := visited (path_info st);
                                  path := path (path_info st);
                                  path_index := path_index (path_info st);
                                  weight := int_add running edge |};
                  all_paths := all_paths st;
                  world := world st |} = Some s_out
           ∧ weight (path_info s_out) = int_add running edge
           ∧ weight (path_info st') = int_sub (weight (path_info s_out)) edge
           ∧ all_paths st' = all_paths s_out
           ∧ world st' = world s_out
           ∧ last tr = Some (Resumed u i, st'))
    ∧ (¬ test → tr = [(Skipped u i, st)] ∧ st' = st)
    ∧ (min_len (all_paths st) = INT_MAX → (int_add running edge ≤ min_len (all_paths st))%Z)
    ∧ weight (path_info st') = running
    ∧ same_frame st st'.
Proof.
  intros Hi Hlen Hw Hfuel edge running test.
  assert (may_descend INIT data u i st = true ↔ test) as Hspec by apply may_descend_spec.
  assert (min_len (all_paths st) = INT_MAX →
          (int_add running edge ≤ min_len (all_paths st))%Z) as Hmax.
  { intros ->. apply int_le_INT_MAX. }
  unfold explore_step_observed, explore_step. simpl. fold edge. fold running.
  destruct (may_descend INIT data u i st) eqn:Hgo.
  - assert test as Htest by by apply Hspec.
    set (s_call := set_weight (int_add running edge) st).
    assert (ready data i s_call) as Hready.
    { split; [done|]. split; [|apply int_wrap_in_int]. simpl.
      apply may_descend_unmarked in Hgo; [done|lia]. }
    destruct (find_all_from_to_returns INIT mx_realloc_ok data fuel
                {| from := i; to := target |} s_call Hready Hfuel)
      as (s_out & Hcall & (Hv1 & Hk1 & Hw1 & Hl1 & Ht1)).
    destruct (find_all_from_to_observed_exists _ _ _ _ _ _ _ Hcall) as [tr1 Hobs].
    rewrite Hobs, Hcall. simpl.
    pose proof (find_all_from_to_observed_head _ _ _ _ _ _ _ _ Hobs) as Hhead.
    simpl in Hhead. destruct tr1 as [|e tr1]; [done|]. injection Hhead as ->.
    simpl in Hw1, Hv1, Hk1, Hl1, Ht1.
    assert (int_sub (weight (path_info s_out)) edge = running) as Hback.
    { rewrite Hw1. by apply int_sub_add. }
    eexists _, _. split; [done|]. split; [done|].
    split; [|split; [|split; [|split; [done|split]]]].
    + split; [done|]. intros _. eexists. apply elem_of_cons. right. apply list_elem_of_here.
    + intros _. exists (enter i s_call), s_out.
      split; [done|]. do 6 (split; [done|]). split; [exact Hcall|].
      split; [done|]. split; [done|]. split; [done|]. split; [done|].
      apply (last_snoc _ (_ :: _ :: tr1)).
    + done.
    + done.
    + unfold same_frame. simpl. by rewrite Hback.
  - assert (¬ test) as Htest.
    { intros Ht%Hspec. congruence. }
    eexists _, _. split; [done|]. split; [done|].
    split; [|split; [done|split; [done|split; [done|split; [done|apply same_frame_refl]]]]].
    split; [|done]. intros [s Hs]. apply list_elem_of_singleton in Hs. done.
Qed.

Lemma explore_step_descends_exactly_when_witness :
  1 < size (graph (diamond (-1)))
  ∧ size (graph (diamond (-1)))
    ≤ length (visited (path_info (enter 0 (fresh_state no_junk (diamond (-1)) world0))))
  ∧ in_int (weight (path_info (enter 0 (fresh_state no_junk (diamond (-1)) world0))))
  ∧ unmarked (visited (path_info (enter 0 (fresh_state no_junk (diamond (-1)) world0)))) ≤ 3
  ∧ ∃ tr st' s_in,
      explore_step_observed (-1)
        (λ c, find_all_from_to_observed (-1) always_served 3 (diamond (-1)) c)
        {| from := 0; to := 3 |} (diamond (-1)) 1
        (enter 0 (fresh_state no_junk (diamond (-1)) world0)) = Some (tr, st')
      ∧ explore_step (-1) (λ c, find_all_from_to (-1) always_served 3 (diamond (-1)) c)
          {| from := 0; to := 3 |} (diamond (-1)) 1
          (enter 0 (fresh_state no_junk (diamond (-1)) world0)) = Some st'
      ∧ tr !! 1 = Some (Entered 1, s_in)
      ∧ weight (path_info s_in) = 1%Z
      ∧ vertices <$> paths (all_paths st') = [[0; 1; 3]]
      ∧ weight (path_info st') = 0%Z.
Proof.
  assert (1 < size (graph (diamond (-1)))) as H1 by (simpl; lia).
  assert (size (graph (diamond (-1)))
          ≤ length (visited (path_info (enter 0 (fresh_state no_junk (diamond (-1)) world0)))))
    as H2 by (simpl; lia).
  assert (in_int (weight (path_info (enter 0 (fresh_state no_junk (diamond (-1)) world0)))))
    as H3 by (unfold in_int, INT_MIN, INT_MAX; simpl; lia).
  assert (unmarked (visited (path_info (enter 0 (fresh_state no_junk (diamond (-1)) world0))))
          ≤ 3) as H4 by (vm_compute; lia).
  split; [exact H1|]. split; [exact H2|]. split; [exact H3|]. split; [exact H4|].
  destruct (explore_step_descends_exactly_when (-1) always_served (diamond (-1)) 3 0 3 1
              (enter 0 (fresh_state no_junk (diamond (-1)) world0)) H1 H2 H3 H4)
    as (tr & st' & Hobs & Hrun & _ & Htest & _ & _ & Hweight & _).
  destruct Htest as (s_in & s_out & Hin & _ & _ & _ & Hw_in & _).
  { split; [vm_compute; congruence|]. split; [reflexivity|vm_compute; congruence]. }
  exists tr, st', s_in.
  split; [exact Hobs|]. split; [exact Hrun|]. split; [exact Hin|]. split; [exact Hw_in|].
  split; [|exact Hweight].
  assert (explore_step (-1) (λ c, find_all_from_to (-1) always_served 3 (diamond (-1)) c)
            {| from := 0; to := 3 |} (diamond (-1)) 1
            (enter 0 (fresh_state no_junk (diamond (-1)) world0))
          = Some {| path_info := {| visited := [1; 0; 0; 0]%Z; path := [0; 1; 3; 0];
                                    path_index := 1; weight := 0 |};
                    all_paths := {| paths := [stored [0; 1; 3]]; count := 1; min_len := 2 |};
                    world := {| realloc_calls := 1; stderr := []; displayed := [] |} |})
    as Hval by (vm_compute; reflexivity).
  rewrite Hval in Hrun. injection Hrun as <-. reflexivity.
Defined.

(** ** C5: every stored path weighs [min_len] *)

(** C5 (as amended): at every program point of a search from a fresh state,
    every path in the list is a simple path of the graph and weighs exactly
    [min_len], the sum being taken in [int] as the program takes it, and
    being the sum as a mathematical integer where the weights are
    non-negative and no simple path weighs more than [INT_MAX].  Recording a strictly lighter candidate leaves
    nothing of the former collection: the list is then the copy of the
    candidate alone, or empty when the request for its cell was refused. *)
Theorem stored_paths_weigh_min_len (INIT : Z) (mx_realloc_ok : nat → bool)
    (junk : nat → nat) (data : t_data) (start target fuel : nat) (w : t_world) :
  start < size (graph data) →
  size (graph data) ≤ fuel →
  (∃ tr st',
     find_all_from_to_observed INIT mx_realloc_ok fuel data
       {| from := start; to := target |} (fresh_state junk data w) = Some (tr, st')
     ∧ Forall (λ ps, uniform INIT (graph data) (all_paths ps.2)) tr
     ∧ uniform INIT (graph data) (all_paths st')
     ∧ ((∀ u v, u < size (graph data) → v < size (graph data) →
                matrix_at (graph data) u v ≠ INIT → (0 ≤ matrix_at (graph data) u v)%Z) →
        (∀ p, simple INIT (graph data) p → (path_cost (graph data) p ≤ INT_MAX)%Z) →
        Forall (λ ps, exactly_uniform (graph data) (all_paths ps.2)) tr))
  ∧ ∀ st,
      (weight (path_info st) < min_len (all_paths st))%Z →
      min_len (all_paths (reached_destination mx_realloc_ok st)) = weight (path_info st)
      ∧ paths (all_paths (reached_destination mx_realloc_ok st))
        = if mx_realloc_ok (realloc_calls (world st))
          then [{| vertices := (λ i, path (path_info st) !!! i)
                               <$> seq 0 (path_index (path_info st));
                   p_length := path_index (path_info st) |}]
          else [].
Proof.
  intros Hstart Hfuel. split.
  - destruct (fresh_state_observed_well INIT mx_realloc_ok junk data start target fuel w
                Hstart Hfuel) as (tr & st' & Hobs & _ & Hall & Hu & _).
    exists tr, st'. split; [done|]. split; [|split; [done|]].
    + eapply Forall_impl; [exact Hall|]. by intros ps (_ & _ & ? & _).
    + intros Hnn Hfit. eapply Forall_impl; [exact Hall|].
      intros ps Hps. by apply (sound_at_exact INIT (graph data) ps Hnn Hfit).
  - intros st Hlt. unfold reached_destination.
    rewrite (proj2 (Z.ltb_lt _ _)) by done. simpl. rewrite Z.eqb_refl.
    unfold add_path. by destruct (mx_realloc_ok _).
Qed.

Lemma stored_paths_weigh_min_len_witness :
  0 < size (graph (diamond (-1)))
  ∧ size (graph (diamond (-1))) ≤ 4
  ∧ ∃ tr st',
      find_all_from_to_observed (-1) always_served 4 (diamond (-1))
        {| from := 0; to := 3 |} (fresh_state no_junk (diamond (-1)) world0) = Some (tr, st')
      ∧ Forall (λ ps, uniform (-1) (graph (diamond (-1))) (all_paths ps.2)) tr
      ∧ uniform (-1) (graph (diamond (-1))) (all_paths st').
Proof.
  assert (0 < size (graph (diamond (-1)))) as H1 by (simpl; lia).
  assert (size (graph (diamond (-1))) ≤ 4) as H2 by (simpl; lia).
  split; [exact H1|]. split; [exact H2|].
  destruct (stored_paths_weigh_min_len (-1) always_served no_junk (diamond (-1))
              0 3 4 world0 H1 H2) as ((tr & st' & Hobs & Hall & Hu & _) & _).
  exists tr, st'. split; [exact Hobs|]. split; [exact Hall|exact Hu].
Defined.

(** The claim of C5 as it stands fails on [heavy], whose weights are
    non-negative: the search ends with the path 0-1-3 in the list, whose
    edges sum to 2^31 + 100, and [min_len] 2^31 + 100 - 2^32; so it is from
    the point where that path was recorded. *)
Lemma heavy_stored_path_outweighs_min_len :
  (∀ u v, u < 4 → v < 4 → matrix_at (graph (heavy (-1))) u v ≠ (-1)%Z →
          (0 ≤ matrix_at (graph (heavy (-1))) u v)%Z)
  ∧ ∃ tr st',
      find_all_from_to_observed (-1) always_served 4 (heavy (-1))
        {| from := 0; to := 3 |} (fresh_state no_junk (heavy (-1)) world0) = Some (tr, st')
      ∧ paths (all_paths st') = [stored [0; 1; 3]]
      ∧ path_cost (graph (heavy (-1))) [0; 1; 3] = 2147483748%Z
      ∧ min_len (all_paths st') = (-2147483548)%Z
      ∧ ¬ exactly_uniform (graph (heavy (-1))) (all_paths st')
      ∧ ¬ Forall (λ ps, exactly_uniform (graph (heavy (-1))) (all_paths ps.2)) tr.
Proof.
  split.
  { intros u v Hu Hv. each_entry_of_4 u v. }
  eexists _, _. split; [vm_compute; reflexivity|].
  split; [reflexivity|]. split; [reflexivity|]. split; [reflexivity|]. split.
  - intros Hall. apply Forall_cons in Hall as [Hp _]. vm_compute in Hp. discriminate.
  - intros Hall. pose proof (Forall_lookup_1 _ _ 9 _ Hall eq_refl) as Hpt.
    apply Forall_cons in Hpt as [Hp _]. vm_compute in Hp. discriminate.
Qed.

(** ** C6: the outer enumeration *)

(** What the two loops do: [execute_pathfinding] searches once for every pair
    made of a node and a node listed after it, start by start in list order
    and, for each start, target by target in list order; that is n(n-1)/2
    searches for n nodes. *)
Theorem execute_pathfinding_later_pairs (INIT : Z) (mx_realloc_ok : nat → bool)
    (junk : nat → nat) (fuel : nat) (data : t_data) (w : t_world) :
  execute_pathfinding INIT mx_realloc_ok junk fuel data w
  = search_each INIT mx_realloc_ok junk fuel data (later_pairs (nodes data)) w
  ∧ 2 * length (later_pairs (nodes data))
    = length (nodes data) * (length (nodes data) - 1)
  ∧ ∀ i j s c, later_pairs (nodes data) !! i = Some (s, c) →
               later_pairs (nodes data) !! j = Some (s, c) →
               NoDup (nodes data) → i = j.
Proof.
  split; [apply execute_pathfinding_loop_pairs|]. split; [apply later_pairs_length|].
  intros i j s c Hi Hj Hnd. eapply NoDup_lookup; [|exact Hi|exact Hj].
  clear Hi Hj. induction Hnd as [|x l Hx Hnd IH]; [apply NoDup_nil_2|].
  simpl. apply NoDup_app. split; [|split; [|done]].
  - apply NoDup_fmap_2; [|done]. intros a b [=]. done.
  - intros [a b] (c' & [= -> ->] & Hc)%list_elem_of_fmap Hin.
    apply Hx. clear -Hin. induction l as [|y l IH]; [by apply elem_of_nil in Hin|].
    simpl in Hin. apply elem_of_app in Hin as [(c'' & [= -> ->] & _)%list_elem_of_fmap|Hin].
    + apply list_elem_of_here.
    + apply elem_of_cons. right. by apply IH.
Qed.

(** C6: [find_all_from] is documented as finding the paths from the current
    node to all other nodes, which with the loop of [execute_pathfinding]
    gives the search for every ordered pair that the claim states; but its
    loop starts at [start->next] and never reaches the nodes listed before
    [start].  On two nodes 0 and 1 joined by the edge 1-0 only, one list is
    displayed, the empty one of the search from 0 to 1; searching every
    ordered pair would also have displayed the path 1-0. *)
Lemma execute_pathfinding_not_ordered_pairs :
  execute_pathfinding (-1) always_served no_junk 2 (back_edge (-1)) world0
  = Some {| realloc_calls := 0; stderr := [];
            displayed := [{| paths := []; count := 0; min_len := INT_MAX |}] |}
  ∧ ordered_pairs (nodes (back_edge (-1)))
    = [({| id := 0 |}, {| id := 1 |}); ({| id := 1 |}, {| id := 0 |})]
  ∧ search_each (-1) always_served no_junk 2 (back_edge (-1))
      (ordered_pairs (nodes (back_edge (-1)))) world0
    = Some {| realloc_calls := 1; stderr := [];
              displayed := [{| paths := []; count := 0; min_len := INT_MAX |};
                            {| paths := [stored [1; 0]]; count := 1; min_len := 1 |}] |}
  ∧ execute_pathfinding (-1) always_served no_junk 2 (back_edge (-1)) world0
    ≠ search_each (-1) always_served no_junk 2 (back_edge (-1))
        (ordered_pairs (nodes (back_edge (-1)))) world0.
Proof.
  split; [vm_compute; reflexivity|]. split; [reflexivity|].
  split; [vm_compute; reflexivity|]. vm_compute. discriminate.
Qed.

(** The same happens whichever of -1, 0, [INT_MAX] and [INT_MIN] marks the
    absent edges. *)
Lemma later_pairs_any_marker :
  Forall (λ x, ∃ w,
            execute_pathfinding x always_served no_junk 2 (back_edge x) world0 = Some w
            ∧ length (displayed w) = 1)
    [(-1)%Z; 0%Z; INT_MAX; INT_MIN].
Proof.
  repeat constructor; eexists; (split; [vm_compute; reflexivity|]); reflexivity.
Qed.

(** ** C7: allocation failure is not propagated *)

(** C7 (as amended): a refused [mx_realloc] is written to [stderr] and goes
    no further.  The call that reached the target returns as any other call,
    the candidate is not in the list (which is empty if the candidate was
    lighter than what it held, and as before otherwise), [min_len] is the
    candidate's weight, and the frame is given back, so the search goes on. *)
Theorem refused_request_is_not_propagated (INIT : Z) (mx_realloc_ok : nat → bool)
    (data : t_data) (v fuel : nat) (st : state) :
  mx_realloc_ok (realloc_calls (world st)) = false →
  (weight (path_info st) ≤ min_len (all_paths st))%Z →
  ∃ st',
    find_all_from_to INIT mx_realloc_ok (S fuel) data {| from := v; to := v |} st = Some st'
    ∧ stderr (world st')
      = stderr (world st) ++ ["error: memory allocation failed in add_path"%string]
    ∧ realloc_calls (world st') = S (realloc_calls (world st))
    ∧ paths (all_paths st')
      = (if (weight (path_info st) <? min_len (all_paths st))%Z
         then [] else paths (all_paths st))
    ∧ min_len (all_paths st') = weight (path_info st)
    ∧ path_index (path_info st') = path_index (path_info st)
    ∧ weight (path_info st') = weight (path_info st).
Proof.
  intros Hno Hle. eexists. split.
  { cbn [find_all_from_to from to]. rewrite decide_True by done. reflexivity. }
  rewrite (reached_destination_refused mx_realloc_ok (enter v st)) by done.
  simpl. repeat split.
  - by destruct (_ <? _)%Z.
  - destruct (_ <? _)%Z eqn:Hlt; [done|]. apply Z.ltb_ge in Hlt. simpl. lia.
Qed.

Lemma refused_request_is_not_propagated_witness :
  first_refused (realloc_calls (world (fresh_state no_junk self_loop world0))) = false
  ∧ (weight (path_info (fresh_state no_junk self_loop world0))
     ≤ min_len (all_paths (fresh_state no_junk self_loop world0)))%Z
  ∧ ∃ st',
      find_all_from_to (-1) first_refused 1 self_loop {| from := 0; to := 0 |}
        (fresh_state no_junk self_loop world0) = Some st'
      ∧ stderr (world st') = ["error: memory allocation failed in add_path"%string]
      ∧ paths (all_paths st') = [].
Proof.
  assert (first_refused (realloc_calls (world (fresh_state no_junk self_loop world0)))
          = false) as Hno by reflexivity.
  assert (weight (path_info (fresh_state no_junk self_loop world0))
          ≤ min_len (all_paths (fresh_state no_junk self_loop world0)))%Z as Hle
    by (vm_compute; congruence).
  split; [exact Hno|]. split; [exact Hle|].
  destruct (refused_request_is_not_propagated (-1) first_refused self_loop 0 0
              (fresh_state no_junk self_loop world0) Hno Hle)
    as (st' & Hrun & Herr & _ & Hpaths & _).
  exists st'. split; [exact Hrun|]. split; [exact Herr|exact Hpaths].
Defined.

(** The claim of C7 fails on the diamond when the first request is refused:
    the search returns as usual, having gone on to make a second request; of
    the two lightest paths only 0-2-3 is in the list, and nothing but the line
    on [stderr] tells that 0-1-3 was dropped. *)
Lemma refused_request_search_goes_on :
  find_all_from_to (-1) first_refused 4 (diamond (-1)) {| from := 0; to := 3 |}
    (fresh_state no_junk (diamond (-1)) world0)
  = Some {| path_info := {| visited := [0; 0; 0; 0]%Z; path := [0; 2; 3; 0];
                            path_index := 0; weight := 0 |};
            all_paths := {| paths := [stored [0; 2; 3]]; count := 1; min_len := 2 |};
            world := {| realloc_calls := 2;
                        stderr := ["error: memory allocation failed in add_path"%string];
                        displayed := [] |} |}
  ∧ simple_path (-1) (graph (diamond (-1))) 0 3 [0; 1; 3]
  ∧ path_cost (graph (diamond (-1))) [0; 1; 3] = 2%Z.
Proof.
  split; [vm_compute; reflexivity|]. split; [|reflexivity].
  split; [reflexivity|]. split; [reflexivity|].
  split; [|split].
  - apply NoDup_ListNoDup. repeat constructor; simpl; intros H; intuition lia.
  - repeat constructor.
  - simpl. unfold matrix_at. simpl. repeat split; discriminate.
Qed.

(** The same happens whichever of -1, 0, [INT_MAX] and [INT_MIN] marks the
    absent edges. *)
Lemma refused_request_any_marker :
  Forall (λ x, ∃ st',
            find_all_from_to x first_refused 4 (diamond x) {| from := 0; to := 3 |}
              (fresh_state no_junk (diamond x) world0) = Some st'
            ∧ vertices <$> paths (all_paths st') = [[0; 2; 3]]
            ∧ realloc_calls (world st') = 2
            ∧ length (stderr (world st')) = 1)
    [(-1)%Z; 0%Z; INT_MAX; INT_MIN].
Proof.
  repeat constructor; eexists; (split; [vm_compute; reflexivity|]);
    repeat split; reflexivity.
Qed.

(** ** C8: the trivial path *)

(** C8: with start and target the same vertex [v], a search from a fresh
    state stores the one path [[v]] and sets [min_len] to 0, whatever the
    matrix holds, a loop on [v] included. *)
Theorem find_all_from_to_trivial_path (INIT : Z) (mx_realloc_ok : nat → bool)
    (junk : nat → nat) (data : t_data) (v fuel : nat) (w : t_world) :
  v < size (graph data) →
  mx_realloc_ok (realloc_calls w) = true →
  ∃ st',
    find_all_from_to INIT mx_realloc_ok (S fuel) data {| from := v; to := v |}
      (fresh_state junk data w) = Some st'
    ∧ all_paths st' = {| paths := [{| vertices := [v]; p_length := 1 |}];
                         count := 1; min_len := 0 |}
    ∧ path_cost (graph data) [v] = 0%Z.
Proof.
  intros Hv Hok.
  set (st1 := enter v (fresh_state junk data w)).
  exists (leave v (reached_destination mx_realloc_ok st1)).
  split; [|split; [|done]].
  { cbn [find_all_from_to from to]. by rewrite decide_True. }
  change (all_paths (reached_destination mx_realloc_ok st1)
          = {| paths := [stored [v]]; count := 1; min_len := 0 |}).
  assert (take (path_index (path_info st1)) (path (path_info st1)) = [v]) as Htake.
  { subst st1. simpl. destruct (size (graph data)) as [|n]; [lia|]. done. }
  rewrite (reached_destination_record mx_realloc_ok (graph data) st1 [v]);
    [done|done|done|exact Htake| |done].
  subst st1. simpl. rewrite length_insert, length_fmap, length_seq. lia.
Qed.

Lemma find_all_from_to_trivial_path_witness :
  0 < size (graph self_loop)
  ∧ always_served (realloc_calls world0) = true
  ∧ matrix_at (graph self_loop) 0 0 = 3%Z
  ∧ ∃ st',
      find_all_from_to (-1) always_served 1 self_loop {| from := 0; to := 0 |}
        (fresh_state no_junk self_loop world0) = Some st'
      ∧ all_paths st' = {| paths := [{| vertices := [0]; p_length := 1 |}];
                           count := 1; min_len := 0 |}
      ∧ path_cost (graph self_loop) [0] = 0%Z.
Proof.
  assert (0 < size (graph self_loop)) as Hv by (simpl; lia).
  assert (always_served (realloc_calls world0) = true) as Hok by reflexivity.
  split; [exact Hv|]. split; [exact Hok|]. split; [reflexivity|].
  exact (find_all_from_to_trivial_path (-1) always_served no_junk self_loop 0 0 world0 Hv Hok).
Defined.

(** ** C9: termination and depth *)

(** C9: a search returns, and no more calls are ever in progress than the
    graph has vertices.  Fuel, of which every nested call spends one unit and
    the loop none, need not exceed [size] (more fuel gives the same result);
    and at every program point [path_index], which each call raises by one on
    entry and lowers by one on exit, is at most [size].  The same fuel is
    enough from any state in which the vertex is unmarked: the loop calls on
    unmarked vertices only and each call marks its own. *)
Theorem find_all_from_to_terminates (INIT : Z) (mx_realloc_ok : nat → bool)
    (junk : nat → nat) (data : t_data) (start target fuel : nat) (w : t_world) :
  start < size (graph data) →
  size (graph data) ≤ fuel →
  ∃ tr st',
    find_all_from_to INIT mx_realloc_ok (size (graph data)) data
      {| from := start; to := target |} (fresh_state junk data w) = Some st'
    ∧ find_all_from_to INIT mx_realloc_ok fuel data
        {| from := start; to := target |} (fresh_state junk data w) = Some st'
    ∧ find_all_from_to_observed INIT mx_realloc_ok (size (graph data)) data
        {| from := start; to := target |} (fresh_state junk data w) = Some (tr, st')
    ∧ Forall (λ ps, path_index (path_info ps.2) ≤ size (graph data)) tr
    ∧ ∀ cords st,
        ready data (from cords) st →
        length (visited (path_info st)) = size (graph data) →
        ∃ st'', find_all_from_to INIT mx_realloc_ok (size (graph data)) data cords st
                = Some st''.
Proof.
  intros Hstart Hfuel.
  destruct (fresh_state_observed_well INIT mx_realloc_ok junk data start target
              (size (graph data)) w Hstart (le_n _))
    as (tr & st' & Hobs & Hrun & Hall & _).
  exists tr, st'. split; [done|]. split; [|split; [done|split]].
  - by apply find_all_from_to_more_fuel with (size (graph data)).
  - eapply Forall_impl; [exact Hall|]. by intros ps (_ & _ & _ & ?).
  - intros cords st Hr Hlen.
    destruct (find_all_from_to_returns INIT mx_realloc_ok data (size (graph data)) cords st)
      as (st'' & Hrun' & _); [done| |by exists st''].
    pose proof (unmarked_le_length (visited (path_info st))). lia.
Qed.

Lemma find_all_from_to_terminates_witness :
  0 < size (graph (diamond (-1)))
  ∧ size (graph (diamond (-1))) ≤ 9
  ∧ ∃ tr st',
      find_all_from_to (-1) always_served 9 (diamond (-1))
        {| from := 0; to := 3 |} (fresh_state no_junk (diamond (-1)) world0) = Some st'
      ∧ find_all_from_to_observed (-1) always_served (size (graph (diamond (-1)))) (diamond (-1))
          {| from := 0; to := 3 |} (fresh_state no_junk (diamond (-1)) world0) = Some (tr, st')
      ∧ Forall (λ ps, path_index (path_info ps.2) ≤ size (graph (diamond (-1)))) tr.
Proof.
  assert (0 < size (graph (diamond (-1)))) as H1 by (simpl; lia).
  assert (size (graph (diamond (-1))) ≤ 9) as H2 by (simpl; lia).
  split; [exact H1|]. split; [exact H2|].
  destruct (find_all_from_to_terminates (-1) always_served no_junk (diamond (-1)) 0 3 9
              world0 H1 H2) as (tr & st' & _ & Hrun & Hobs & Hdepth & _).
  exists tr, st'. split; [exact Hrun|]. split; [exact Hobs|exact Hdepth].
Defined.

(** ** C10: a refused request leaves the list alone *)

(** C10: when [mx_realloc] returns NULL, [add_path] hands the list back as it
    was (same paths, same [count], same [min_len]; only the diagnostic and the
    request counter tell); the call that was recording returns to its caller
    as usual, and under such an allocator every search still runs to its end
    and gives back the frame it was given. *)
Theorem add_path_refused_leaves_list (INIT : Z) (mx_realloc_ok : nat → bool)
    (all_paths0 : t_path_list) (current_path : list nat) (length0 : nat) (w : t_world) :
  mx_realloc_ok (realloc_calls w) = false →
  add_path mx_realloc_ok all_paths0 current_path length0 w
  = (all_paths0,
     {| realloc_calls := S (realloc_calls w);
        stderr := stderr w ++ ["error: memory allocation failed in add_path"%string];
        displayed := displayed w |})
  ∧ (∀ data v fuel st,
       world st = w →
       find_all_from_to INIT mx_realloc_ok (S fuel) data {| from := v; to := v |} st
       = Some (leave v (reached_destination mx_realloc_ok (enter v st))))
  ∧ (∀ data cords fuel st,
       ready data (from cords) st →
       length (visited (path_info st)) = size (graph data) →
       size (graph data) ≤ fuel →
       ∃ st', find_all_from_to INIT mx_realloc_ok fuel data cords st = Some st'
              ∧ same_frame st st').
Proof.
  intros Hno. split; [by apply add_path_refused|]. split.
  - intros data v fuel st _. cbn [find_all_from_to from to]. by rewrite decide_True.
  - intros data cords fuel st Hr Hlen Hfuel.
    apply find_all_from_to_returns; [done|].
    pose proof (unmarked_le_length (visited (path_info st))). lia.
Qed.

Lemma add_path_refused_leaves_list_witness :
  first_refused (realloc_calls world0) = false
  ∧ add_path first_refused
      {| paths := [stored [0; 1; 3]]; count := 1; min_len := 2 |} [0; 2; 3; 0] 3 world0
    = ({| paths := [stored [0; 1; 3]]; count := 1; min_len := 2 |},
       {| realloc_calls := 1;
          stderr := ["error: memory allocation failed in add_path"%string];
          displayed := [] |}).
Proof.
  assert (first_refused (realloc_calls world0) = false) as Hno by reflexivity.
  split; [exact Hno|].
  exact (proj1 (add_path_refused_leaves_list 0 first_refused
                  {| paths := [stored [0; 1; 3]]; count := 1; min_len := 2 |}
                  [0; 2; 3; 0] 3 world0 Hno)).
Defined.

(** * Further properties *)

(** Two facts about the inputs of the examples. *)
Lemma level_weights u v :
  u < 4 → v < 4 → matrix_at (graph (level (-1))) u v ≠ (-1)%Z →
  matrix_at (graph (level (-1))) u v = 0%Z.
Proof.
  intros Hu Hv. each_entry_of_4 u v.
Qed.

Lemma at_call_on_2_tracks (data : t_data) :
  data = diamond (-1) ∨ data = level (-1) →
  tracks (graph data) [0] (path_info (at_call_on_2 data))
  ∧ simple (-1) (graph data) ([0] ++ [2]).
Proof.
  intros Hd. split.
  - split; [by destruct Hd as [-> | ->]|].
    split; [|split; [by destruct Hd as [-> | ->]|split; by destruct Hd as [-> | ->]]].
    intros v Hv.
    assert (v < 4) as Hv4 by (by destruct Hd as [-> | ->]). clear Hv.
    do 4 (destruct v as [|v]; [by destruct Hd as [-> | ->]|]). lia.
  - split; [|split].
    + apply NoDup_cons. split; [|apply NoDup_singleton].
      intros Hin%list_elem_of_singleton. done.
    + destruct Hd as [-> | ->]; repeat constructor.
    + destruct Hd as [-> | ->]; (split; [vm_compute; congruence|done]).
Qed.

(** ** X1: what a search does to the world *)

(** X1: whatever the state, the graph and the allocator, a call of
    [find_all_from_to] that returns has not raised [min_len], has displayed
    nothing, has only added [mx_realloc] requests, and has written to [stderr]
    exactly one line of [add_path] for each request that was refused. *)
Theorem find_all_from_to_only_progress (INIT : Z) (mx_realloc_ok : nat → bool)
    (fuel : nat) (data : t_data) (cords : t_coords) (st st' : state) :
  find_all_from_to INIT mx_realloc_ok fuel data cords st = Some st' →
  only_progress mx_realloc_ok st st'.
Proof. apply find_all_from_to_progress. Qed.

Lemma find_all_from_to_only_progress_witness :
  ∃ st',
    find_all_from_to (-1) first_refused 4 (diamond (-1)) {| from := 0; to := 3 |}
      (fresh_state no_junk (diamond (-1)) world0) = Some st'
    ∧ only_progress first_refused (fresh_state no_junk (diamond (-1)) world0) st'
    ∧ stderr (world st') = [refusal_line].
Proof.
  assert (∃ st', find_all_from_to (-1) first_refused 4 (diamond (-1))
                   {| from := 0; to := 3 |}
                   (fresh_state no_junk (diamond (-1)) world0) = Some st'
                 ∧ stderr (world st') = [refusal_line])
    as (st' & Hrun & Herr) by (eexists; split; vm_compute; reflexivity).
  exists st'. split; [exact Hrun|]. split; [|exact Herr].
  exact (find_all_from_to_only_progress (-1) first_refused 4 (diamond (-1))
           {| from := 0; to := 3 |} _ st' Hrun).
Defined.

(** ** X2: a call appends to the list or replaces it *)

(** X2: a call made on [u] with [cur] as the path being built, with fuel for
    the vertices of the graph, returns; it has kept the paths already stored
    exactly when it ends with [min_len] as it found it, and none of them when
    it has lowered [min_len]; what it has stored after them are simple paths
    through [cur ++ [u]] to the target, in the order in which a depth-first
    search by vertex number meets them.  This holds whatever the weights and
    whichever requests are refused. *)
Theorem find_all_from_to_appends_or_replaces (INIT : Z) (mx_realloc_ok : nat → bool)
    (data : t_data) (target fuel : nat) (cur : list nat) (u : nat) (st : state) :
  tracks (graph data) cur (path_info st) →
  simple INIT (graph data) (cur ++ [u]) →
  in_int (weight (path_info st)) →
  well_counted (all_paths st) →
  size (graph data) ≤ fuel →
  ∃ st' l,
    find_all_from_to INIT mx_realloc_ok fuel data {| from := u; to := target |} st = Some st'
    ∧ l `sublist_of` all_simple_paths INIT (graph data) target fuel cur u
    ∧ appended st st' l
    ∧ well_counted (all_paths st').
Proof.
  intros Htr Hs Hw Hc Hfuel.
  destruct (tracks_ready_in_int INIT data cur u st Htr Hs Hw) as [Hready Hun].
  destruct (find_all_from_to_returns INIT mx_realloc_ok data fuel
              {| from := u; to := target |} st Hready) as (st' & Hrun & _); [lia|].
  destruct (find_all_from_to_within INIT mx_realloc_ok data target fuel cur u st st'
              Htr Hs Hw Hc Hrun) as (l & Hsub & Happ & Hc' & _).
  by exists st', l.
Qed.

Lemma find_all_from_to_appends_or_replaces_witness :
  tracks (graph (diamond (-1))) [0] (path_info (at_call_on_2 (diamond (-1))))
  ∧ simple (-1) (graph (diamond (-1))) ([0] ++ [2])
  ∧ in_int (weight (path_info (at_call_on_2 (diamond (-1)))))
  ∧ well_counted (all_paths (at_call_on_2 (diamond (-1))))
  ∧ size (graph (diamond (-1))) ≤ 4
  ∧ vertices <$> paths (all_paths (at_call_on_2 (diamond (-1)))) = [[0; 1; 3]]
  ∧ ∃ st' l,
      find_all_from_to (-1) always_served 4 (diamond (-1)) {| from := 2; to := 3 |}
        (at_call_on_2 (diamond (-1))) = Some st'
      ∧ l `sublist_of` all_simple_paths (-1) (graph (diamond (-1))) 3 4 [0] 2
      ∧ appended (at_call_on_2 (diamond (-1))) st' l
      ∧ well_counted (all_paths st')
      ∧ vertices <$> paths (all_paths st') = [[0; 1; 3]; [0; 2; 3]].
Proof.
  destruct (at_call_on_2_tracks (diamond (-1))) as [H1 H2]; [by left|].
  assert (in_int (weight (path_info (at_call_on_2 (diamond (-1)))))) as H3
    by (vm_compute; split; discriminate).
  assert (well_counted (all_paths (at_call_on_2 (diamond (-1))))) as H4 by reflexivity.
  assert (size (graph (diamond (-1))) ≤ 4) as H5 by (simpl; lia).
  split; [exact H1|]. split; [exact H2|]. split; [exact H3|]. split; [exact H4|].
  split; [exact H5|]. split; [reflexivity|].
  destruct (find_all_from_to_appends_or_replaces (-1) always_served (diamond (-1)) 3 4 [0] 2
              (at_call_on_2 (diamond (-1))) H1 H2 H3 H4 H5)
    as (st' & l & Hrun & Hsub & Happ & Hc).
  exists st', l. split; [exact Hrun|]. split; [exact Hsub|]. split; [exact Happ|].
  split; [exact Hc|].
  assert (vertices <$> paths (all_paths
            (default (at_call_on_2 (diamond (-1)))
               (find_all_from_to (-1) always_served 4 (diamond (-1))
                  {| from := 2; to := 3 |} (at_call_on_2 (diamond (-1))))))
          = [[0; 1; 3]; [0; 2; 3]]) as Hval by (vm_compute; reflexivity).
  rewrite Hrun in Hval. exact Hval.
Defined.

(** ** X3: the list after a search, whatever the weights and the allocator *)

(** X3: a search from a fresh state returns whatever the weights (negative
    ones and sums that leave [int] included) and whichever requests are
    refused, and every path then in the list is a simple path of the graph
    from [start] to [target] whose weight, summed in [int], is [min_len]; no
    path is stored twice, the paths are in lexicographic order of their vertex
    numbers, [length] of each is the number of its vertices, and [count] is
    the number of paths. *)
Theorem find_all_from_to_sound_result (INIT : Z) (mx_realloc_ok : nat → bool)
    (junk : nat → nat) (data : t_data) (start target fuel : nat) (w : t_world) :
  start < size (graph data) →
  size (graph data) ≤ fuel →
  ∃ st',
    find_all_from_to INIT mx_realloc_ok fuel data {| from := start; to := target |}
      (fresh_state junk data w) = Some st'
    ∧ sound_result INIT (graph data) start target (all_paths st').
Proof.
  intros Hstart Hfuel.
  destruct (search_from_fresh_sound INIT mx_realloc_ok junk data start target fuel w
              Hstart Hfuel) as (st' & Hrun & Hres & _).
  by exists st'.
Qed.

Lemma find_all_from_to_sound_result_witness :
  0 < size (graph (heavy (-1)))
  ∧ size (graph (heavy (-1))) ≤ 4
  ∧ ∃ st',
      find_all_from_to (-1) first_refused 4 (heavy (-1)) {| from := 0; to := 3 |}
        (fresh_state no_junk (heavy (-1)) world0) = Some st'
      ∧ sound_result (-1) (graph (heavy (-1))) 0 3 (all_paths st').
Proof.
  assert (0 < size (graph (heavy (-1)))) as H1 by (simpl; lia).
  assert (size (graph (heavy (-1))) ≤ 4) as H2 by (simpl; lia).
  split; [exact H1|]. split; [exact H2|].
  exact (find_all_from_to_sound_result (-1) first_refused no_junk (heavy (-1)) 0 3 4 world0
           H1 H2).
Defined.

(** ** X4: a target that cannot be reached *)

(** X4: when the graph has no simple path from [start] to [target], the
    search returns with the list as [create_paths] made it (no path, [count]
    0, [min_len] [INT_MAX]) and the world as it found it: no request was made
    and nothing was written. *)
Theorem find_all_from_to_unreachable (INIT : Z) (mx_realloc_ok : nat → bool)
    (junk : nat → nat) (data : t_data) (start target fuel : nat) (w : t_world) :
  start < size (graph data) →
  size (graph data) ≤ fuel →
  (∀ q, ¬ simple_path INIT (graph data) start target q) →
  ∃ st',
    find_all_from_to INIT mx_realloc_ok fuel data {| from := start; to := target |}
      (fresh_state junk data w) = Some st'
    ∧ all_paths st' = create_paths
    ∧ world st' = w.
Proof.
  intros Hstart Hfuel Hnone.
  destruct (search_from_fresh_within INIT mx_realloc_ok junk data start target fuel w
              Hstart Hfuel) as (st' & l & Hrun & _ & _ & _ & _ & _ & Hun).
  exists st'. split; [done|]. apply Hun.
  destruct (all_simple_paths _ _ _ _ _ _) as [|q l'] eqn:El; [done|].
  exfalso. apply (Hnone q).
  apply (all_simple_paths_spec INIT (graph data) target fuel start q Hstart Hfuel).
  rewrite El. apply list_elem_of_here.
Qed.

Lemma back_edge_unreachable q : ¬ simple_path (-1) (graph (back_edge (-1))) 0 1 q.
Proof.
  intros Hq.
  apply (all_simple_paths_spec (-1) (graph (back_edge (-1))) 1 2 0 q) in Hq;
    [|simpl; lia|simpl; lia].
  vm_compute in Hq. by apply elem_of_nil in Hq.
Qed.

Lemma find_all_from_to_unreachable_witness :
  0 < size (graph (back_edge (-1)))
  ∧ size (graph (back_edge (-1))) ≤ 2
  ∧ (∀ q, ¬ simple_path (-1) (graph (back_edge (-1))) 0 1 q)
  ∧ ∃ st',
      find_all_from_to (-1) first_refused 2 (back_edge (-1)) {| from := 0; to := 1 |}
        (fresh_state no_junk (back_edge (-1)) world0) = Some st'
      ∧ all_paths st' = create_paths
      ∧ world st' = world0.
Proof.
  assert (0 < size (graph (back_edge (-1)))) as H1 by (simpl; lia).
  assert (size (graph (back_edge (-1))) ≤ 2) as H2 by (simpl; lia).
  split; [exact H1|]. split; [exact H2|]. split; [exact back_edge_unreachable|].
  exact (find_all_from_to_unreachable (-1) first_refused no_junk (back_edge (-1)) 0 1 2
           world0 H1 H2 back_edge_unreachable).
Defined.

(** ** X5: the contents [malloc] left in the path buffer *)

(** X5: [find_all_from_to] never reads a cell of the path buffer at or above
    [path_index] before writing it: run from two states that differ only in
    those cells, it returns for the one when it returns for the other, with
    the same list and the same world, and with states that again differ only
    in those cells. *)
Theorem find_all_from_to_ignores_junk (INIT : Z) (mx_realloc_ok : nat → bool)
    (fuel : nat) (data : t_data) (cords : t_coords) (st1 st2 st1' : state) :
  same_but_junk st1 st2 →
  find_all_from_to INIT mx_realloc_ok fuel data cords st1 = Some st1' →
  ∃ st2',
    find_all_from_to INIT mx_realloc_ok fuel data cords st2 = Some st2'
    ∧ same_but_junk st1' st2'.
Proof. apply find_all_from_to_junk. Qed.

Lemma find_all_from_to_ignores_junk_witness :
  same_but_junk (fresh_state no_junk (diamond (-1)) world0)
                (fresh_state (λ i, 7 + i) (diamond (-1)) world0)
  ∧ ∃ st1' st2',
      find_all_from_to (-1) always_served 4 (diamond (-1)) {| from := 0; to := 3 |}
        (fresh_state no_junk (diamond (-1)) world0) = Some st1'
      ∧ find_all_from_to (-1) always_served 4 (diamond (-1)) {| from := 0; to := 3 |}
          (fresh_state (λ i, 7 + i) (diamond (-1)) world0) = Some st2'
      ∧ same_but_junk st1' st2'.
Proof.
  pose proof (fresh_state_same_but_junk no_junk (λ i, 7 + i) (diamond (-1)) world0) as H1.
  assert (∃ st1', find_all_from_to (-1) always_served 4 (diamond (-1))
                    {| from := 0; to := 3 |}
                    (fresh_state no_junk (diamond (-1)) world0) = Some st1')
    as [st1' Hrun] by (eexists; vm_compute; reflexivity).
  split; [exact H1|].
  destruct (find_all_from_to_ignores_junk (-1) always_served 4 (diamond (-1))
              {| from := 0; to := 3 |} _ _ st1' H1 Hrun) as (st2' & Hrun2 & Hsame).
  exists st1', st2'. split; [exact Hrun|]. split; [exact Hrun2|exact Hsame].
Defined.

(** ** X6: the result does not depend on uninitialised memory *)

(** X6: [create_path_info] leaves the path buffer as [malloc] returned it;
    whatever it holds, [execute_pathfinding] returns the same world: the same
    lists displayed, the same requests, the same lines on [stderr]. *)
Theorem execute_pathfinding_ignores_junk (INIT : Z) (mx_realloc_ok : nat → bool)
    (junk1 junk2 : nat → nat) (fuel : nat) (data : t_data) (w : t_world) :
  execute_pathfinding INIT mx_realloc_ok junk1 fuel data w
  = execute_pathfinding INIT mx_realloc_ok junk2 fuel data w.
Proof. apply execute_pathfinding_loop_junk. Qed.

(** ** X7: the whole run, whatever the weights and the allocator *)

(** X7: when every listed node has an [id] below [size], [execute_pathfinding]
    returns whatever the weights and whichever requests are refused.  It has
    then handed to [display_paths] one list for each pair of a node and a node
    listed after it, in that order, after what was displayed before, that is
    n(n-1)/2 lists for n nodes; each list holds only simple paths from the
    first node of its pair to the second, all of the weight [min_len] of that
    list, without repetition and in lexicographic order; and [stderr] has
    grown by one line for each refused request. *)
Theorem execute_pathfinding_returns (INIT : Z) (mx_realloc_ok : nat → bool)
    (junk : nat → nat) (fuel : nat) (data : t_data) (w : t_world) :
  Forall (λ n, id n < size (graph data)) (nodes data) →
  size (graph data) ≤ fuel →
  ∃ w' results,
    execute_pathfinding INIT mx_realloc_ok junk fuel data w = Some w'
    ∧ displayed w' = displayed w ++ results
    ∧ Forall2 (λ sc ap, sound_result INIT (graph data) (id sc.1) (id sc.2) ap)
        (later_pairs (nodes data)) results
    ∧ 2 * length results = length (nodes data) * (length (nodes data) - 1)
    ∧ world_progress mx_realloc_ok w w'.
Proof.
  intros Hids Hfuel. unfold execute_pathfinding.
  rewrite execute_pathfinding_loop_pairs.
  destruct (search_each_results INIT mx_realloc_ok junk data fuel
              (λ s c ap, sound_result INIT (graph data) (id s) (id c) ap)
              (later_pairs (nodes data)) w)
    as (w' & results & Hrun & Hdis & Hres & Hprog).
  - intros s c w0 [Hs _]%later_pairs_elem_of.
    rewrite Forall_forall in Hids.
    apply search_from_fresh_sound; [by apply Hids|done].
  - exists w', results. split; [done|]. split; [done|]. split; [done|]. split; [|done].
    rewrite <- (Forall2_length _ _ _ Hres). apply later_pairs_length.
Qed.

Lemma execute_pathfinding_returns_witness :
  Forall (λ n, id n < size (graph (heavy (-1)))) (nodes (heavy (-1)))
  ∧ size (graph (heavy (-1))) ≤ 4
  ∧ ∃ w' results,
      execute_pathfinding (-1) first_refused no_junk 4 (heavy (-1)) world0 = Some w'
      ∧ displayed w' = displayed world0 ++ results
      ∧ Forall2 (λ sc ap, sound_result (-1) (graph (heavy (-1))) (id sc.1) (id sc.2) ap)
          (later_pairs (nodes (heavy (-1)))) results
      ∧ 2 * length results = length (nodes (heavy (-1))) * (length (nodes (heavy (-1))) - 1)
      ∧ world_progress first_refused world0 w'.
Proof.
  assert (Forall (λ n, id n < size (graph (heavy (-1)))) (nodes (heavy (-1)))) as H1
    by (repeat constructor; simpl; lia).
  assert (size (graph (heavy (-1))) ≤ 4) as H2 by (simpl; lia).
  split; [exact H1|]. split; [exact H2|].
  exact (execute_pathfinding_returns (-1) first_refused no_junk 4 (heavy (-1)) world0 H1 H2).
Defined.

(** ** X8: the whole run with the requests served and no overflow *)

(** X8: with every request served, non-negative weights and no simple path
    heavier than [INT_MAX], [execute_pathfinding] returns having displayed,
    for each pair of a node and a node listed after it, in that order, the
    list of exactly the lightest simple paths from the first to the second,
    each once, with [min_len] their weight (an empty list with [min_len]
    [INT_MAX] when there is none); nothing is written to [stderr]. *)
Theorem execute_pathfinding_lightest_paths (INIT : Z) (mx_realloc_ok : nat → bool)
    (junk : nat → nat) (fuel : nat) (data : t_data) (w : t_world) :
  Forall (λ n, id n < size (graph data)) (nodes data) →
  size (graph data) ≤ fuel →
  (∀ n, mx_realloc_ok n = true) →
  (∀ u v, u < size (graph data) → v < size (graph data) →
          matrix_at (graph data) u v ≠ INIT → (0 ≤ matrix_at (graph data) u v)%Z) →
  (∀ p, simple INIT (graph data) p → (path_cost (graph data) p ≤ INT_MAX)%Z) →
  ∃ w' results,
    execute_pathfinding INIT mx_realloc_ok junk fuel data w = Some w'
    ∧ displayed w' = displayed w ++ results
    ∧ Forall2 (λ sc ap, holds_lightest_paths INIT (graph data) (id sc.1) (id sc.2) ap)
        (later_pairs (nodes data)) results
    ∧ stderr w' = stderr w.
Proof.
  intros Hids Hfuel Hok Hnn Hfit. unfold execute_pathfinding.
  rewrite execute_pathfinding_loop_pairs.
  destruct (search_each_results INIT mx_realloc_ok junk data fuel
              (λ s c ap, holds_lightest_paths INIT (graph data) (id s) (id c) ap)
              (later_pairs (nodes data)) w)
    as (w' & results & Hrun & Hdis & Hres & [Hc He]).
  - intros s c w0 [Hs _]%later_pairs_elem_of.
    rewrite Forall_forall in Hids. specialize (Hids s Hs).
    destruct (search_from_fresh INIT mx_realloc_ok junk data (id s) (id c) fuel w0
                Hids Hfuel Hok Hnn) as (st' & Hrun & Hacc & Hcount).
    { intros p Hp _. by apply Hfit. }
    exists st'. split; [done|]. split; [|by eapply find_all_from_to_progress].
    apply (foldl_record_lightest INIT (graph data) (id s) (id c) fuel); try done.
    intros p Hp _. by apply Hfit.
  - exists w', results. split; [done|]. split; [done|]. split; [done|].
    rewrite He, refused_between_served by done. simpl. by rewrite app_nil_r.
Qed.

Lemma execute_pathfinding_lightest_paths_witness :
  Forall (λ n, id n < size (graph (diamond (-1)))) (nodes (diamond (-1)))
  ∧ size (graph (diamond (-1))) ≤ 4
  ∧ ∃ w' results,
      execute_pathfinding (-1) always_served no_junk 4 (diamond (-1)) world0 = Some w'
      ∧ displayed w' = displayed world0 ++ results
      ∧ Forall2 (λ sc ap, holds_lightest_paths (-1) (graph (diamond (-1)))
                            (id sc.1) (id sc.2) ap)
          (later_pairs (nodes (diamond (-1)))) results
      ∧ stderr w' = stderr world0.
Proof.
  assert (Forall (λ n, id n < size (graph (diamond (-1)))) (nodes (diamond (-1)))) as H1
    by (repeat constructor; simpl; lia).
  assert (size (graph (diamond (-1))) ≤ 4) as H2 by (simpl; lia).
  split; [exact H1|]. split; [exact H2|].
  apply (execute_pathfinding_lightest_paths (-1) always_served no_junk 4 (diamond (-1))
           world0 H1 H2).
  - reflexivity.
  - apply diamond_nonneg.
  - apply (small_weights_fit (-1) (graph (diamond (-1))) 5).
    + apply diamond_small.
    + lia.
    + vm_compute. congruence.
Defined.

(** ** X9: [RESET_PATH_INFO] *)

(** X9: where the buffer has room for one more vertex and [u] is not marked,
    [RESET_PATH_INFO] applied after lines 143-144 on [u] does what lines
    152-153 do, and the state is then the one before line 143 as far as the
    caller can tell: same marks, same index, same weight, same buffer below
    the index. *)
Theorem RESET_PATH_INFO_undoes_enter (u : nat) (st : state) :
  path_index (path_info st) < length (path (path_info st)) →
  visited (path_info st) !! u = Some 0%Z →
  RESET_PATH_INFO (path_info (enter u st)) = path_info (leave u (enter u st))
  ∧ same_frame st (leave u (enter u st)).
Proof.
  intros Hk Hu. split; [by apply RESET_PATH_INFO_enter|by apply leave_enter_frame].
Qed.

Lemma RESET_PATH_INFO_undoes_enter_witness :
  path_index (path_info (fresh_state no_junk (diamond (-1)) world0))
  < length (path (path_info (fresh_state no_junk (diamond (-1)) world0)))
  ∧ visited (path_info (fresh_state no_junk (diamond (-1)) world0)) !! 2 = Some 0%Z
  ∧ RESET_PATH_INFO (path_info (enter 2 (fresh_state no_junk (diamond (-1)) world0)))
    = path_info (leave 2 (enter 2 (fresh_state no_junk (diamond (-1)) world0)))
  ∧ same_frame (fresh_state no_junk (diamond (-1)) world0)
      (leave 2 (enter 2 (fresh_state no_junk (diamond (-1)) world0))).
Proof.
  assert (path_index (path_info (fresh_state no_junk (diamond (-1)) world0))
          < length (path (path_info (fresh_state no_junk (diamond (-1)) world0)))) as H1
    by (simpl; lia).
  assert (visited (path_info (fresh_state no_junk (diamond (-1)) world0)) !! 2 = Some 0%Z)
    as H2 by reflexivity.
  split; [exact H1|]. split; [exact H2|].
  exact (RESET_PATH_INFO_undoes_enter 2 _ H1 H2).
Defined.

(** ** X10: [CHECK_WEIGHT_CONDITION] *)

(** X10: with non-negative weights and no simple path from [start] heavier
    than [INT_MAX], a call made where [CHECK_WEIGHT_CONDITION] holds (some
    minimum is known and [weight] is not below [min_len]), with fuel for the
    vertices of the graph, returns with [min_len] as it found it.  The list
    may still grow by paths of that weight, as in the example. *)
Theorem find_all_from_to_beyond_bound (INIT : Z) (mx_realloc_ok : nat → bool)
    (data : t_data) (start target fuel : nat) (cur : list nat) (u : nat) (st : state) :
  (∀ u v, u < size (graph data) → v < size (graph data) →
          matrix_at (graph data) u v ≠ INIT → (0 ≤ matrix_at (graph data) u v)%Z) →
  (∀ p, simple INIT (graph data) p → head p = Some start →
        (path_cost (graph data) p ≤ INT_MAX)%Z) →
  tracks (graph data) cur (path_info st) →
  weight (path_info st) = path_cost (graph data) (cur ++ [u]) →
  simple INIT (graph data) (cur ++ [u]) →
  head (cur ++ [u]) = Some start →
  CHECK_WEIGHT_CONDITION (path_info st) (all_paths st) = true →
  size (graph data) ≤ fuel →
  ∃ st',
    find_all_from_to INIT mx_realloc_ok fuel data {| from := u; to := target |} st = Some st'
    ∧ min_len (all_paths st') = min_len (all_paths st).
Proof.
  intros Hnn Hfit Htr Hw Hs Hh Hcheck Hfuel.
  destruct (tracks_ready_in_int INIT data cur u st Htr Hs) as [Hready Hun].
  { rewrite Hw. by apply (simple_cost_in_int INIT data start). }
  destruct (find_all_from_to_returns INIT mx_realloc_ok data fuel
              {| from := u; to := target |} st Hready) as (st' & Hrun & _); [lia|].
  exists st'. split; [done|].
  apply (find_all_from_to_keeps_min_len INIT mx_realloc_ok data start target Hnn Hfit
           fuel cur u st st'); try done.
  unfold CHECK_WEIGHT_CONDITION in Hcheck.
  apply andb_true_iff in Hcheck as [_ Hle]. by apply Z.leb_le.
Qed.

Lemma find_all_from_to_beyond_bound_witness :
  tracks (graph (level (-1))) [0] (path_info (at_call_on_2 (level (-1))))
  ∧ weight (path_info (at_call_on_2 (level (-1))))
    = path_cost (graph (level (-1))) ([0] ++ [2])
  ∧ simple (-1) (graph (level (-1))) ([0] ++ [2])
  ∧ head ([0] ++ [2]) = Some 0
  ∧ CHECK_WEIGHT_CONDITION (path_info (at_call_on_2 (level (-1))))
      (all_paths (at_call_on_2 (level (-1)))) = true
  ∧ size (graph (level (-1))) ≤ 4
  ∧ vertices <$> paths (all_paths (at_call_on_2 (level (-1)))) = [[0; 1; 3]]
  ∧ ∃ st',
      find_all_from_to (-1) always_served 4 (level (-1)) {| from := 2; to := 3 |}
        (at_call_on_2 (level (-1))) = Some st'
      ∧ min_len (all_paths st') = min_len (all_paths (at_call_on_2 (level (-1))))
      ∧ vertices <$> paths (all_paths st') = [[0; 1; 3]; [0; 2; 3]].
Proof.
  destruct (at_call_on_2_tracks (level (-1))) as [H1 H2]; [by right|].
  assert (size (graph (level (-1))) ≤ 4) as H3 by (simpl; lia).
  split; [exact H1|]. split; [reflexivity|]. split; [exact H2|]. split; [reflexivity|].
  split; [reflexivity|]. split; [exact H3|]. split; [reflexivity|].
  destruct (find_all_from_to_beyond_bound (-1) always_served (level (-1)) 0 3 4 [0] 2
              (at_call_on_2 (level (-1)))) as (st' & Hrun & Hmin).
  - intros u v Hu Hv He. rewrite (level_weights u v Hu Hv He). lia.
  - intros p Hp _. apply (small_weights_fit (-1) (graph (level (-1))) 0).
    + intros u v Hu Hv He. rewrite (level_weights u v Hu Hv He). lia.
    + lia.
    + vm_compute. congruence.
    + exact Hp.
  - exact H1.
  - reflexivity.
  - exact H2.
  - reflexivity.
  - reflexivity.
  - exact H3.
  - exists st'. split; [exact Hrun|]. split; [exact Hmin|].
    assert (vertices <$> paths (all_paths
              (default (at_call_on_2 (level (-1)))
                 (find_all_from_to (-1) always_served 4 (level (-1))
                    {| from := 2; to := 3 |} (at_call_on_2 (level (-1))))))
            = [[0; 1; 3]; [0; 2; 3]]) as Hval by (vm_compute; reflexivity).
    rewrite Hrun in Hval. exact Hval.
Defined.

(** ** X11: every access is within its array *)

(** X11: in a search from a fresh state, whatever the weights, the allocator
    and the contents [malloc] left in the buffer, every access the code makes
    to [visited] and to the path buffer is in range (the matrix, which the
    caller supplies, is not covered).  At every program point of the run: on
    entry [visited[from]] holds 1 and [path[path_index - 1]] holds [from], so
    the writes of lines 143-144 landed; [add_path] copies from below the
    length of the buffer; the test of line 124 reads [visited] within its
    length; on exit [visited[from]] holds 0 and [path[path_index]] still holds
    [from], so [path_index] was lowered from above zero. *)
Theorem find_all_from_to_stays_in_range (INIT : Z) (mx_realloc_ok : nat → bool)
    (junk : nat → nat) (data : t_data) (start target fuel : nat) (w : t_world) :
  start < size (graph data) →
  size (graph data) ≤ fuel →
  ∃ tr st',
    find_all_from_to_observed INIT mx_realloc_ok fuel data
      {| from := start; to := target |} (fresh_state junk data w) = Some (tr, st')
    ∧ Forall (λ ps, in_range_at ps.1 ps.2) tr.
Proof.
  intros Hstart Hfuel.
  destruct (fresh_state_observed_well INIT mx_realloc_ok junk data start target fuel w
              Hstart Hfuel) as (tr & st' & Hobs & _).
  exists tr, st'. split; [done|].
  apply (find_all_from_to_observed_in_range INIT mx_realloc_ok data fuel [] start target
           (fresh_state junk data w) tr st'); [apply fresh_state_tracks| | |done].
  - split; [apply NoDup_singleton|]. split; [by apply Forall_singleton|done].
  - simpl. unfold in_int, INT_MIN, INT_MAX. lia.
Qed.

Lemma find_all_from_to_stays_in_range_witness :
  0 < size (graph (diamond (-1)))
  ∧ size (graph (diamond (-1))) ≤ 4
  ∧ ∃ tr st',
      find_all_from_to_observed (-1) always_served 4 (diamond (-1))
        {| from := 0; to := 3 |} (fresh_state (λ i, 7 + i) (diamond (-1)) world0)
      = Some (tr, st')
      ∧ Forall (λ ps, in_range_at ps.1 ps.2) tr.
Proof.
  assert (0 < size (graph (diamond (-1)))) as H1 by (simpl; lia).
  assert (size (graph (diamond (-1))) ≤ 4) as H2 by (simpl; lia).
  split; [exact H1|]. split; [exact H2|].
  exact (find_all_from_to_stays_in_range (-1) always_served (λ i, 7 + i) (diamond (-1))
           0 3 4 world0 H1 H2).
Defined.
